(** * EEMS: command validation, scheduling and fuzzy evaluation

    A shallow embedding of [EEMSBasePackage.py]:

    - [PyStr], [PyRe]: the bits of Python's [str] and [re] the package
      relies on, the regular expressions run by a backtracking matcher;
    - [Cmd]: class [EEMSCmd] (statement parser, command descriptions,
      validation, typed parameter access);
    - [Prog]: class [EEMSProgram] (statement reassembly, definition
      bookkeeping, [__OrderCmds]);
    - [Runner]: class [EEMSCmdRunnerBase] (field registry and operators);
    - [Interp]: class [EEMSInterpreter] ([RunProgram] dispatch).

    Conventions.  A raised Python exception is a value [Raise e] of the
    [result] type.  A [dict] is an association list in insertion order.
    Program text is ASCII; the character classes [\s] and [\w] are the
    ASCII parts of the Python 3 classes.  The language is Python 3, as
    the package declares.  Numbers are IEEE 754 doubles ([F64]), the
    [float] of Python and the [float64] of numpy.  A numpy masked
    array of floats is a list of cells, a cell being [None] when
    masked and [Some x] otherwise; the value numpy keeps under a mask
    is not part of the model. *)

From Stdlib Require Import String Ascii List Bool Arith ZArith QArith Lia Lqa.
From Stdlib Require Import Permutation Sorted DecimalString.
From Stdlib Require Import Floats.SpecFloat.
Import ListNotations.

Local Open Scope string_scope.
Local Open Scope list_scope.

(** ** Exceptions *)

Inductive exn : Type :=
| Exception (msg : string)
| KeyError (key : string)
| TypeError (msg : string)
| ValueError (msg : string)
| NameError (name : string)
| UnboundLocalError (name : string)
| AttributeError (attr : string)
| IndexError (msg : string)
| ZeroDivisionError (msg : string).

Inductive result (A : Type) : Type :=
| OK (a : A)
| Raise (e : exn).

Arguments OK {A} a.
Arguments Raise {A} e.

Definition bind {A B : Type} (c : result A) (k : A -> result B) : result B :=
  match c with
  | OK a => k a
  | Raise e => Raise e
  end.

Notation "x <- c ;; k" := (bind c (fun x => k))
  (at level 61, c at next level, right associativity).
Notation "' p <- c ;; k" := (bind c (fun x => let 'p := x in k))
  (at level 61, p pattern, c at next level, right associativity).
Notation "c ;;; k" := (bind c (fun _ => k))
  (at level 61, right associativity).

(** [for x in l: body], the body threading a state and able to raise. *)
Fixpoint for_each {A S : Type} (l : list A) (body : A -> S -> result S) (s : S)
  : result S :=
  match l with
  | [] => OK s
  | x :: l' => s' <- body x s ;; for_each l' body s'
  end.

Definition is_ok {A : Type} (r : result A) : bool :=
  match r with OK _ => true | Raise _ => false end.

(** ** Python strings *)

Module PyStr.

Definition chr (n : nat) : ascii := ascii_of_nat n.
Definition nl : ascii := chr 10.
Definition NL : string := String nl EmptyString.
(** The double quote. *)
Definition DQ : string := String (chr 34) EmptyString.

Definition in_range (lo hi : nat) (c : ascii) : bool :=
  let n := nat_of_ascii c in ((lo <=? n)%nat && (n <=? hi)%nat)%bool.

(** [str.isspace] on an ASCII character: TAB..CR, FS..US and the space. *)
Definition is_space (c : ascii) : bool :=
  in_range 9 13 c || in_range 28 31 c || in_range 32 32 c.

Definition is_digit (c : ascii) : bool := in_range 48 57 c.
Definition is_alpha (c : ascii) : bool := in_range 65 90 c || in_range 97 122 c.
(** [\w] *)
Definition is_word (c : ascii) : bool := is_alpha c || is_digit c || Ascii.eqb c "_".

Fixpoint lstrip (s : string) : string :=
  match s with
  | String c s' => if is_space c then lstrip s' else s
  | EmptyString => EmptyString
  end.

Fixpoint rev_str (s acc : string) : string :=
  match s with
  | String c s' => rev_str s' (String c acc)
  | EmptyString => acc
  end.

Definition rstrip (s : string) : string :=
  rev_str (lstrip (rev_str s "")) "".

(** [s.strip()] *)
Definition strip (s : string) : string := rstrip (lstrip s).

(** [sep.join(l)] *)
Fixpoint join (sep : string) (l : list string) : string :=
  match l with
  | [] => ""
  | [x] => x
  | x :: l' => x ++ sep ++ join sep l'
  end.

(** [s.split(',')]: a literal one-character separator. *)
Fixpoint split_chr (sep : ascii) (s : string) (cur : string) : list string :=
  match s with
  | EmptyString => [rev_str cur ""]
  | String c s' =>
      if Ascii.eqb c sep then rev_str cur "" :: split_chr sep s' ""
      else split_chr sep s' (String c cur)
  end.

(** [str(n)], ['%d' % n] for a natural number and for an integer. *)
Definition str_nat (n : nat) : string := NilZero.string_of_uint (Nat.to_uint n).
Definition str_Z (z : Z) : string :=
  match z with
  | Zneg p => "-" ++ str_nat (Pos.to_nat p)
  | _ => str_nat (Z.to_nat z)
  end.

Fixpoint zeros_str (n : nat) : string :=
  match n with
  | O => EmptyString
  | S n' => String "0" (zeros_str n')
  end.

(** [s.rjust(n, '0')] *)
Definition pad_left (n : nat) (s : string) : string :=
  zeros_str (n - String.length s) ++ s.

(** ['%f' % q]: six decimals, ties to even. *)
Definition round_half_even (q : Q) : Z :=
  let n := Qnum q in
  let d := Zpos (Qden q) in
  let fl := Z.div n d in
  let r2 := (2 * (n - fl * d))%Z in
  if (r2 <? d)%Z then fl
  else if (d <? r2)%Z then (fl + 1)%Z
  else if Z.even fl then fl else (fl + 1)%Z.

Definition fmt_f (q : Q) : string :=
  let neg := (Qnum q <? 0)%Z in
  let a := if neg then Qopp q else q in
  let n := round_half_even (Qmult a (inject_Z 1000000)) in
  (if neg then "-" else "") ++
  str_nat (Z.to_nat (n / 1000000)%Z) ++ "." ++
  pad_left 6 (str_nat (Z.to_nat (n mod 1000000)%Z)).

Definition mem (x : string) (l : list string) : bool :=
  existsb (String.eqb x) l.

End PyStr.

(** ** IEEE 754 double precision

    The values of Python's [float] and of numpy's [float64]: the floats
    of the standard library's specification of IEEE 754 arithmetic,
    with 53 bits of precision, every operation rounded to the nearest
    float, ties to even.  [nan] has no payload. *)

Module F64.
Import PyStr.

Definition prec : Z := 53.
Definition emax : Z := 1024.

Definition float : Type := spec_float.

Definition add : float -> float -> float := SFadd prec emax.
Definition sub : float -> float -> float := SFsub prec emax.
Definition mul : float -> float -> float := SFmul prec emax.
Definition div : float -> float -> float := SFdiv prec emax.
Definition opp : float -> float := SFopp.
Definition abs : float -> float := SFabs.

(** [x < y], [x <= y], [x == y], [x != y]: every comparison but the
    last is false when one side is not a number. *)
Definition ltb : float -> float -> bool := SFltb.
Definition leb : float -> float -> bool := SFleb.
Definition eqb : float -> float -> bool := SFeqb.
Definition neb (x y : float) : bool := negb (SFeqb x y).

Definition nan : float := S754_nan.
Definition pinf : float := S754_infinity false.
Definition ninf : float := S754_infinity true.
Definition zero : float := S754_zero false.

Definition is_nan (x : float) : bool :=
  match x with S754_nan => true | _ => false end.
Definition is_zero (x : float) : bool :=
  match x with S754_zero _ => true | _ => false end.
(** [np.isfinite] *)
Definition is_finite (x : float) : bool :=
  match x with S754_zero _ | S754_finite _ _ _ => true | _ => false end.

(** The float of an integer. *)
Definition of_Z (z : Z) : float := binary_normalize prec emax z 0 false.
Definition of_nat (n : nat) : float := of_Z (Z.of_nat n).

Definition one : float := of_Z 1.
Definition minus_one : float := of_Z (-1).

(** The float nearest to the quotient of two natural numbers, with the
    sign given. *)
Definition of_ratio (neg : bool) (n : Z) (d : positive) : float :=
  match n with
  | Zpos _ =>
      let '(m, e, l) := SFdiv_core_binary prec emax n 0 (Zpos d) 0 in
      binary_round_aux prec emax neg m e l
  | _ => S754_zero neg
  end.

(** The float a decimal literal stands for: [dec n k] is n / 10^k. *)
Definition dec (n : Z) (k : nat) : float :=
  of_ratio (n <? 0)%Z (Z.abs n) (Z.to_pos (10 ^ Z.of_nat k)).

(** The floats that stand for a number of the format: the mantissa has
    the digits the exponent asks for. *)
Definition valid (x : float) : bool := valid_binary prec emax x.

(** The exact value of a finite float. *)
Definition to_Q (x : float) : Q :=
  match x with
  | S754_finite s m e =>
      let v := match e with
               | Zneg p => Qmake (Zpos m) (2 ^ p)%positive
               | _ => inject_Z (Zpos m * 2 ^ e)%Z
               end in
      if s then Qopp v else v
  | _ => 0%Q
  end.

(** ['%f' % x] *)
Definition fmt (x : float) : string :=
  match x with
  | S754_nan => "nan"
  | S754_infinity s => if s then "-inf" else "inf"
  | S754_zero s => if s then "-0.000000" else "0.000000"
  | S754_finite _ _ _ => fmt_f (to_Q x)
  end.

End F64.

(** ** Python regular expressions

    Patterns are values of [regex]; [rmatch] is a backtracking matcher
    with the priorities of Python's [re]: a greedy quantifier tries the
    longest repetition first, an alternation its left branch first, and
    the first complete match found is the answer. *)

Module PyRe.
Import PyStr.

Inductive regex : Type :=
| Eps
| Cls (p : ascii -> bool)          (* one character of a class *)
| Cat (r1 r2 : regex)
| Alt (r1 r2 : regex)              (* r1|r2 *)
| Star (r : regex)                 (* r*, greedy *)
| Grp (n : nat) (r : regex)        (* capturing group, [groups()[n]] *)
| Bol                              (* ^ *)
| Eol.                             (* $: at the end, or before a final newline *)

Definition caps : Type := list (nat * string).

Fixpoint group (c : caps) (n : nat) : option string :=
  match c with
  | [] => None
  | (m, s) :: c' => if (m =? n)%nat then Some s else group c' n
  end.

Section Matcher.
Context {A : Type}.

Fixpoint rmatch (r : regex) (pos : nat) (s : string) (c : caps)
    (k : nat -> string -> caps -> option A) {struct r} : option A :=
  match r with
  | Eps => k pos s c
  | Cls p =>
      match s with
      | String a s' => if p a then k (S pos) s' c else None
      | EmptyString => None
      end
  | Cat r1 r2 => rmatch r1 pos s c (fun pos' s' c' => rmatch r2 pos' s' c' k)
  | Alt r1 r2 =>
      match rmatch r1 pos s c k with
      | Some x => Some x
      | None => rmatch r2 pos s c k
      end
  | Star r1 =>
      (fix star (fuel : nat) (pos : nat) (s : string) (c : caps) : option A :=
         match fuel with
         | O => k pos s c
         | S fuel' =>
             match rmatch r1 pos s c
                     (fun pos' s' c' =>
                        if (pos <? pos')%nat then star fuel' pos' s' c' else None) with
             | Some x => Some x
             | None => k pos s c
             end
         end) (String.length s) pos s c
  | Grp n r1 =>
      rmatch r1 pos s c
        (fun pos' s' c' => k pos' s' ((n, substring 0 (pos' - pos) s) :: c'))
  | Bol => if (pos =? 0)%nat then k pos s c else None
  | Eol =>
      match s with
      | EmptyString => k pos s c
      | String a EmptyString => if Ascii.eqb a nl then k pos s c else None
      | _ => None
      end
  end.

End Matcher.

(** Derived forms. *)
Definition Plus (r : regex) : regex := Cat r (Star r).       (* r+ *)
Definition Opt (r : regex) : regex := Alt r Eps.             (* r{0,1} *)
Definition Chr (a : ascii) : regex := Cls (Ascii.eqb a).
Definition OneOf (s : string) : regex :=
  Cls (fun a => existsb (Ascii.eqb a) (list_ascii_of_string s)).
Definition NoneOf (s : string) : regex :=
  Cls (fun a => negb (existsb (Ascii.eqb a) (list_ascii_of_string s))).
Definition Dot : regex := Cls (fun a => negb (Ascii.eqb a nl)).   (* . *)
Definition Ws : regex := Cls is_space.                            (* \s *)
Definition NotWs : regex := Cls (fun a => negb (is_space a)).     (* [^\s] *)
Definition Word : regex := Cls is_word.                           (* \w *)
Definition Digit : regex := Cls is_digit.                         (* [0-9] *)

Fixpoint Lit (s : string) : regex :=
  match s with
  | EmptyString => Eps
  | String a s' => Cat (Chr a) (Lit s')
  end.

Fixpoint Seq (l : list regex) : regex :=
  match l with
  | [] => Eps
  | [r] => r
  | r :: l' => Cat r (Seq l')
  end.

(** [re.match(r, s)]: the end position and the groups of the match. *)
Definition re_match (r : regex) (s : string) : option (nat * caps) :=
  rmatch r 0 s [] (fun pos _ c => Some (pos, c)).

Definition matches (r : regex) (s : string) : bool :=
  match re_match r s with Some _ => true | None => false end.

(** The search loop shared by [re.sub] and [re.split]: a match is tried
    at every position from left to right; after an empty match the next
    one at the same position has to be non-empty. *)
Definition match_at (r : regex) (pos : nat) (s : string) (must_advance : bool)
  : option (nat * string) :=
  rmatch r pos s []
    (fun pos' s' _ =>
       if (must_advance && (pos' =? pos)%nat)%bool then None else Some (pos', s')).

(** [re.sub(r, repl, s)] for a replacement without group references. *)
Fixpoint re_sub_from (fuel : nat) (r : regex) (repl : string) (pos : nat)
    (s : string) (must_advance : bool) : string :=
  match fuel with
  | O => s
  | S fuel' =>
      match match_at r pos s must_advance with
      | Some (pos', s') =>
          repl ++
          match s' with
          | EmptyString => EmptyString
          | _ => re_sub_from fuel' r repl pos' s' (pos' =? pos)%nat
          end
      | None =>
          match s with
          | EmptyString => EmptyString
          | String a s1 => String a (re_sub_from fuel' r repl (S pos) s1 false)
          end
      end
  end.

Definition re_sub (r : regex) (repl : string) (s : string) : string :=
  re_sub_from (2 * String.length s + 2) r repl 0 s false.

(** [re.split(r, s)] for a pattern without groups. *)
Fixpoint re_split_from (fuel : nat) (r : regex) (pos : nat) (s : string)
    (must_advance : bool) (cur : string) : list string :=
  match fuel with
  | O => [(rev_str cur "" ++ s)%string]
  | S fuel' =>
      match match_at r pos s must_advance with
      | Some (pos', s') =>
          rev_str cur "" :: re_split_from fuel' r pos' s' (pos' =? pos)%nat ""
      | None =>
          match s with
          | EmptyString => [rev_str cur ""]
          | String a s1 => re_split_from fuel' r (S pos) s1 false (String a cur)
          end
      end
  end.

Definition re_split (r : regex) (s : string) : list string :=
  re_split_from (2 * String.length s + 2) r 0 s false "".

End PyRe.

(** ** Python dictionaries, in insertion order *)

Module PyDict.

Definition dict (V : Type) : Type := list (string * V).

Definition keys {V : Type} (d : dict V) : list string := map fst d.

Fixpoint get {V : Type} (d : dict V) (k : string) : option V :=
  match d with
  | [] => None
  | (k', v) :: d' => if String.eqb k' k then Some v else get d' k
  end.

Definition has {V : Type} (d : dict V) (k : string) : bool :=
  PyStr.mem k (keys d).

(** [d[k] = v]: an existing key keeps its place. *)
Fixpoint set {V : Type} (d : dict V) (k : string) (v : V) : dict V :=
  match d with
  | [] => [(k, v)]
  | (k', v') :: d' =>
      if String.eqb k' k then (k', v) :: d' else (k', v') :: set d' k v
  end.

(** [d[k]] *)
Definition item {V : Type} (d : dict V) (k : string) : result V :=
  match get d k with
  | Some v => OK v
  | None => Raise (KeyError k)
  end.

End PyDict.

(** ** class EEMSCmd *)

Module Cmd.
Import PyStr PyRe PyDict.
Local Open Scope string_scope.

Definition banner : string :=
  NL ++ "********************ERROR********************" ++ NL.

Definition proper_format : string :=
  "Proper command format is:" ++ NL ++
  "  Result = Command(Parameter1 = ParameterValue1,...)".

(** The command description [self.cmdDesc]. *)
Record cmdDescT : Type := mkDesc {
  Name : string;
  Result : option string;
  RequiredParams : dict string;
  OptionalParams : dict string;
  ReadableNm : string;
  ShortDesc : string;
  RtrnType : string;
  InputType : string
}.

(** [self.parsedCmd]: the keys 'rslt' (when present), 'cmd' and 'params'. *)
Record parsedCmdT : Type := mkParsed {
  rslt : option string;
  cmd : string;
  params : dict string
}.

Record EEMSCmd : Type := mkCmd {
  cmdStr : string;
  parsedCmd : parsedCmdT;
  cmdDesc : cmdDescT
}.

Definition cmdDescTable : list cmdDescT :=
[
  mkDesc "READ" (None)
    [("InFileName", "File Name"); ("InFieldName", "Field Name")]
    [("OutFileName", "File Name"); ("NewFieldName", "Field Name")]
    "Read"
    "Read a variable"
    "Numeric" "Numeric";
  mkDesc "READMULTI" (None)
    [("InFileName", "File Name"); ("InFieldNames", "Field Name List")]
    [("OutFileName", "File Name"); ("NewFieldNames", "Field Name List")]
    "Read Multiple Variables"
    "Read multiple variables from a singe file"
    "Numeric" "Numeric";
  mkDesc "CVTTOFUZZY" (Some "Field Name")
    [("InFieldName", "Field Name"); ("TrueThreshold", "Float"); ("FalseThreshold", "Float")]
    [("OutFileName", "File Name")]
    "Convert To Fuzzy"
    "Convert input field into a fuzzy field using linear interpolation"
    "Fuzzy" "Numeric";
  mkDesc "CVTTOFUZZYCURVE" (Some "Field Name")
    [("InFieldName", "Field Name"); ("RawValues", "Float List"); ("FuzzyValues", "Fuzzy Value List")]
    [("OutFileName", "File Name")]
    "Convert To Fuzzy Curve"
    "Convert input field into a fuzzy field using a curve function"
    "Fuzzy" "Numeric";
  mkDesc "CVTTOFUZZYCAT" (Some "Field Name")
    [("InFieldName", "Field Name"); ("RawValues", "Float List"); ("FuzzyValues", "Fuzzy Value List"); ("DefaultFuzzyValue", "Float")]
    [("OutFileName", "File Name")]
    "Convert To Fuzzy Category"
    "Convert input field into a fuzzy field using categorical lookup"
    "Fuzzy" "Integer";
  mkDesc "COPYFIELD" (Some "Field Name")
    [("InFieldName", "Field Name")]
    [("OutFileName", "File Name")]
    "Copy A Field"
    "Copies an existing field into a new field"
    "Any" "Any";
  mkDesc "NOT" (Some "Field Name")
    [("InFieldName", "Field Name")]
    [("OutFileName", "File Name")]
    "Not"
    "Returns the fuzzy logical negative of fuzzy input field"
    "Fuzzy" "Fuzzy";
  mkDesc "SELECTEDUNION" (Some "Field Name")
    [("InFieldNames", "Field Name List"); ("TruestOrFalsest", "Truest or Falsest"); ("NumberToConsider", "Positive Integer")]
    [("OutFileName", "File Name")]
    "Fuzzy Selected Union"
    "Returns the Union of the N Truest or Falsest fuzzy input fields"
    "Fuzzy" "Fuzzy";
  mkDesc "OR" (Some "Field Name")
    [("InFieldNames", "Field Name List")]
    [("OutFileName", "File Name")]
    "Fuzzy Or"
    "Returns the Truest of fuzzy input fields"
    "Fuzzy" "Fuzzy";
  mkDesc "ORNEG" (Some "Field Name")
    [("InFieldNames", "Field Name List")]
    [("OutFileName", "File Name")]
    "Fuzzy Negative Or"
    "Returns the Falsest of fuzzy input fields - Deprecated. Use And"
    "Fuzzy" "Fuzzy";
  mkDesc "XOR" (Some "Field Name")
    [("InFieldNames", "Field Name List")]
    [("OutFileName", "File Name")]
    "Fuzzy Exclusive Or"
    "Returns the fuzzy logic equivalent of exclusive or of fuzzy input fields"
    "Fuzzy" "Fuzzy";
  mkDesc "SUM" (Some "Field Name")
    [("InFieldNames", "Field Name List")]
    [("OutFileName", "File Name")]
    "Sum"
    "Returns sum of input fields"
    "Numeric" "Numeric";
  mkDesc "MIN" (Some "Field Name")
    [("InFieldNames", "Field Name List")]
    [("OutFileName", "File Name")]
    "Minimum"
    "Returns minimum of input fields"
    "Numeric" "Numeric";
  mkDesc "MAX" (Some "Field Name")
    [("InFieldNames", "Field Name List")]
    [("OutFileName", "File Name")]
    "Maximum"
    "Returns maximum of input fields"
    "Numeric" "Numeric";
  mkDesc "MEAN" (Some "Field Name")
    [("InFieldNames", "Field Name List")]
    [("OutFileName", "File Name")]
    "Mean"
    "Returns mean of input fields"
    "Numeric" "Numeric";
  mkDesc "UNION" (Some "Field Name")
    [("InFieldNames", "Field Name List")]
    [("OutFileName", "File Name")]
    "Fuzzy Union"
    "Returns the mean of fuzzy input fields"
    "Fuzzy" "Fuzzy";
  mkDesc "AND" (Some "Field Name")
    [("InFieldNames", "Field Name List")]
    [("OutFileName", "File Name")]
    "Fuzzy And"
    "Returns the minimum of fuzzy input fields"
    "Fuzzy" "Fuzzy";
  mkDesc "EMDSAND" (Some "Field Name")
    [("InFieldNames", "Field Name List")]
    [("OutFileName", "File Name")]
    "EMDS And"
    "Applies the EMDS And function to fuzzy input fields"
    "Fuzzy" "Fuzzy";
  mkDesc "DIF" (Some "Field Name")
    [("StartingFieldName", "Field Name"); ("ToSubtractFieldName", "Field Name")]
    [("OutFileName", "File Name")]
    "Difference"
    "Takes the difference of two input fields"
    "Numeric" "Numeric";
  mkDesc "WTDUNION" (Some "Field Name")
    [("InFieldNames", "Field Name List"); ("Weights", "Positive Float List")]
    [("OutFileName", "File Name")]
    "Weighted Union"
    "Returns the weighted mean of fuzzy input fields"
    "Fuzzy" "Fuzzy";
  mkDesc "WTDMEAN" (Some "Field Name")
    [("InFieldNames", "Field Name List"); ("Weights", "Positive Float List")]
    [("OutFileName", "File Name")]
    "Weighted Mean"
    "Returns the weighted mean of input fields"
    "Numeric" "Numeric";
  mkDesc "WTDSUM" (Some "Field Name")
    [("InFieldNames", "Field Name List"); ("Weights", "Positive Float List")]
    [("OutFileName", "File Name")]
    "Weighted Sum"
    "Returns the weighted sum of input fields"
    "Numeric" "Numeric";
  mkDesc "WTDEMDSAND" (Some "Field Name")
    [("InFieldNames", "Field Name List"); ("Weights", "Positive Float List")]
    [("OutFileName", "File Name")]
    "Weighted EMDS And"
    "Applies the Weighted EMDS And function to fuzzy input fields"
    "Fuzzy" "Fuzzy";
  mkDesc "CALLEXTERN" (Some "Field Name")
    [("InFieldNames", "Field Name List"); ("ImportName", "Import Name"); ("FunctionName", "Function Name"); ("ResultType", "Field Type Description")]
    [("OutFileName", "File Name")]
    "Call External Function"
    "Calls an external function"
    "Any" "Any";
  mkDesc "SCORERANGEBENEFIT" (Some "Field Name")
    [("InFieldName", "Field Name")]
    [("OutFileName", "File Name")]
    "Score Range Benefit"
    "Converts input field to fuzzy field using score range benefit algorithm"
    "Fuzzy" "Numeric";
  mkDesc "SCORERANGECOST" (Some "Field Name")
    [("InFieldName", "Field Name")]
    [("OutFileName", "File Name")]
    "Score Range Cost"
    "Converts input field to fuzzy field using score cost benefit algorithm"
    "Fuzzy" "Numeric";
  mkDesc "MEANTOMID" (Some "Field Name")
    [("InFieldName", "Field Name"); ("IgnoreZeros", "Boolean"); ("FuzzyValues", "Fuzzy Value List")]
    [("OutFileName", "File Name")]
    "Mean To Mid"
    "Converts input field to fuzzy field using mean to mid algorithm"
    "Fuzzy" "Numeric"
].

(** [__InitCmdDesc]: the if/elif chain picks the first entry whose name
    is the command token, and raises for an unknown token. *)
Definition InitCmdDesc (cmdStr cmdNm : string) : result cmdDescT :=
  match find (fun d => String.eqb (Name d) cmdNm) cmdDescTable with
  | Some d => OK d
  | None =>
      Raise (Exception
        ("Illegal Command: *" ++ cmdNm ++ "*" ++ NL ++
         "Full erroneous command is:" ++ NL ++
         "  " ++ cmdStr ++ NL ++
         proper_format))
  end.

(** [__TrimEndSpace] *)
Definition TrimEndSpace (s : string) : string :=
  re_sub (Cat (Star Ws) Eol) "" (re_sub (Cat Bol (Star Ws)) "" s).

(** Pattern "([a-zA-Z]:[\\/]){0,1}[\w\\/\.\- ]*\w+\s*$" *)
Definition reFileName : regex :=
  Seq [Opt (Grp 0 (Seq [Cls is_alpha; Chr ":"; OneOf "\/"]));
       Star (Cls (fun a => is_word a ||
                    existsb (Ascii.eqb a) (list_ascii_of_string "\/.- ")));
       Plus Word; Star Ws; Eol].

(** Pattern "^[0-9]$" *)
Definition reInt : regex := Seq [Bol; Digit; Eol].

(** The float pattern: "^", an optional sign, group 1 = digits, any number
    of points, any digits, "$"; or else group 2 = "^", an optional sign, a
    point, digits, followed by "$". *)
Definition reFloat : regex :=
  Alt (Seq [Bol; Opt (OneOf "+-");
            Grp 0 (Seq [Plus Digit; Star (Chr "."); Star Digit]); Eol])
      (Seq [Grp 1 (Seq [Bol; Opt (OneOf "+-"); Chr "."; Plus Digit]); Eol]).

(** A word matched letter by letter in either case, as in
    "^[Tt][Rr][Uu][Ee]$". *)
Fixpoint AnyCase (upper lower : string) : regex :=
  match upper, lower with
  | String u upper', String l lower' =>
      Cat (Cls (fun a => Ascii.eqb a u || Ascii.eqb a l)) (AnyCase upper' lower')
  | _, _ => Eps
  end.

Definition reTrue : regex := Seq [Bol; AnyCase "TRUE" "true"; Eol].
Definition reFalse : regex := Seq [Bol; AnyCase "FALSE" "false"; Eol].
Definition reTruest : regex := Seq [Bol; AnyCase "TRUEST" "truest"; Eol].
Definition reFalsest : regex := Seq [Bol; AnyCase "FALSEST" "falsest"; Eol].

(** Pattern "^\w+$" *)
Definition reFieldName : regex := Seq [Bol; Plus Word; Eol].

(** Pattern "([a-zA-Z_]){0,1}[\w\.\- ]*$" *)
Definition reImportName : regex :=
  Seq [Opt (Grp 0 (Cls (fun a => is_alpha a || Ascii.eqb a "_")));
       Star (Cls (fun a => is_word a ||
                    existsb (Ascii.eqb a) (list_ascii_of_string ".- ")));
       Eol].

(** Patterns "^\[.+\]$" and "^\[\s*(.+)\s*\]$" *)
Definition reListParam : regex := Seq [Bol; Chr "["; Plus Dot; Chr "]"; Eol].
Definition reListBody : regex :=
  Seq [Bol; Chr "["; Star Ws; Grp 0 (Plus Dot); Star Ws; Chr "]"; Eol].

(** Pattern "\s*,\s*" *)
Definition reComma : regex := Seq [Star Ws; Chr ","; Star Ws].

(** The element type of a list type: a group of any characters, as long as
    possible, followed by " List". *)
Definition reListType : regex := Seq [Grp 0 (Star Dot); Lit " List"].

Definition IsStrValidFileName (s : string) : bool := matches reFileName s.
Definition IsStrValidInt (s : string) : bool := matches reInt s.
Definition IsStrValidFloat (s : string) : bool := matches reFloat s.
Definition IsStrValidBoolean (s : string) : bool :=
  mem s ["0"; "1"; "-1"] || matches reTrue s || matches reFalse s.
Definition IsStrValidFieldName (s : string) : bool := matches reFieldName s.
Definition IsStrValidFunctionName (s : string) : bool := matches reFieldName s.
Definition IsStrValidImportName (s : string) : bool := matches reImportName s.
Definition IsStrValidFldTypeDesc (s : string) : bool :=
  mem s ["Fuzzy"; "Numeric"; "Any"].
Definition IsListParam (s : string) : bool := matches reListParam s.

(** [__ListFromListParam]: [None] for a value that is not a list. *)
Definition ListFromListParam (s : string) : option (list string) :=
  if negb (IsListParam s) then None
  else
    match re_match reListBody s with
    | Some (_, c) =>
        match group c 0 with
        | Some body => Some (re_split reComma body)
        | None => None
        end
    | None => None
    end.

(** [len(self.__ListFromListParam(v))] *)
Definition len_list_param (s : string) : result nat :=
  match ListFromListParam s with
  | Some l => OK (List.length l)
  | None => Raise (TypeError "object of type 'NoneType' has no len()")
  end.

(** *** [int(s)] and [float(s)]

    Decimal numerals with an optional sign, surrounding white space
    stripped.  These are the forms [IsStrValidInt] and [IsStrValidFloat]
    let through; every other text raises [ValueError]. *)

Definition digit_val (a : ascii) : Z := Z.of_nat (nat_of_ascii a - 48).

Fixpoint digits_val (s : string) (acc : Z) : option Z :=
  match s with
  | EmptyString => Some acc
  | String a s' =>
      if is_digit a then digits_val s' (10 * acc + digit_val a)%Z else None
  end.

Definition split_sign (s : string) : bool * string :=
  match s with
  | String "-" s' => (true, s')
  | String "+" s' => (false, s')
  | _ => (false, s)
  end.

Definition py_int (s : string) : result Z :=
  let '(neg, body) := split_sign (strip s) in
  match body, digits_val body 0 with
  | String _ _, Some n => OK (if neg then (- n)%Z else n)
  | _, _ => Raise (ValueError ("invalid literal for int() with base 10: '" ++ s ++ "'"))
  end.

Fixpoint split_point (s : string) (acc : string) : string * option string :=
  match s with
  | EmptyString => (rev_str acc "", None)
  | String "." s' => (rev_str acc "", Some s')
  | String a s' => split_point s' (String a acc)
  end.

Definition py_float (s : string) : result F64.float :=
  let bad := Raise (ValueError ("could not convert string to float: '" ++ s ++ "'")) in
  let '(neg, body) := split_sign (strip s) in
  let '(ip, fp) := split_point body "" in
  let fp' := match fp with Some f => f | None => "" end in
  match ip, fp' with
  | EmptyString, EmptyString => bad
  | _, _ =>
      match digits_val ip 0, digits_val fp' 0 with
      | Some i, Some f =>
          let den := (10 ^ Z.of_nat (String.length fp'))%Z in
          OK (F64.of_ratio neg (i * den + f) (Z.to_pos den))
      | _, _ => bad
      end
  end.

(** [__IsParamType]: is the text a value of the named type? *)
Definition list_types : list string :=
  ["File Name List"; "Field Name List"; "Import Name List";
   "Function Name ListInteger List";      (* two literals with no comma between *)
   "Positive Integer List"; "Float List"; "Positive Float List";
   "Boolean List"; "Fuzzy Value List"].

Definition illegal_type {A : Type} (type : string) : result A :=
  Raise (Exception (banner ++ "Illegal parameter type: " ++ type)).

Definition IsScalarParamType (inStr type : string) : result bool :=
  if String.eqb type "File Name" then OK (IsStrValidFileName inStr)
  else if String.eqb type "Field Name" then OK (IsStrValidFieldName inStr)
  else if String.eqb type "Import Name" then OK (IsStrValidImportName inStr)
  else if String.eqb type "Function Name" then OK (IsStrValidFunctionName inStr)
  else if String.eqb type "Field Type Description" then OK (IsStrValidFldTypeDesc inStr)
  else if String.eqb type "Integer" then OK (IsStrValidInt inStr)
  else if String.eqb type "Positive Integer" then
    if IsStrValidInt inStr then n <- py_int inStr ;; OK (0 <? n)%Z else OK false
  else if String.eqb type "Float" then OK (IsStrValidFloat inStr)
  else if String.eqb type "Positive Float" then
    if IsStrValidFloat inStr then q <- py_float inStr ;; OK (F64.ltb F64.zero q)
    else OK false
  else if String.eqb type "Boolean" then OK (IsStrValidBoolean inStr)
  else if String.eqb type "Fuzzy Value" then
    if IsStrValidFloat inStr then
      q <- py_float inStr ;;
      if F64.leb F64.minus_one q then
        q' <- py_float inStr ;; OK (F64.leb q' F64.one)
      else OK false
    else OK false
  else if String.eqb type "Truest or Falsest" then
    rtrn <- (if IsStrValidInt inStr then
               n <- py_int inStr ;;
               if (n =? -1)%Z then OK (Some true)
               else n' <- py_int inStr ;;
                    OK (if (n' =? 1)%Z then Some true else None)
             else OK None) ;;
    if String.eqb inStr "-1" || String.eqb inStr "1" ||
       matches reTruest inStr || matches reFalsest inStr
    then OK true else OK false
  else illegal_type type.

Definition is_scalar_type (type : string) : bool :=
  mem type ["File Name"; "Field Name"; "Import Name"; "Function Name";
            "Field Type Description"; "Integer"; "Positive Integer"; "Float";
            "Positive Float"; "Boolean"; "Fuzzy Value"; "Truest or Falsest"].

(** The loop over the tokens of a list value, left at the first token
    that is not of the element type. *)
Fixpoint all_of_type (tokens : list string) (elt : string) : result bool :=
  match tokens with
  | [] => OK true
  | t :: tokens' =>
      b <- IsScalarParamType t elt ;;
      if negb b then OK false else all_of_type tokens' elt
  end.

Definition IsParamType (inStr type : string) : result bool :=
  if is_scalar_type type then IsScalarParamType inStr type
  else if mem type list_types then
    if negb (IsListParam inStr) then OK false
    else
      match ListFromListParam inStr, re_match reListType type with
      | Some tokens, Some (_, c) =>
          match group c 0 with
          | Some elt => all_of_type tokens elt
          | None => illegal_type type
          end
      | _, _ => Raise (TypeError "'NoneType' object is not iterable")
      end
  else illegal_type type.

(** [GetCmdHelp] *)
Definition help_params (indent : string) (d : dict string) : string :=
  match d with
  | [] => "      None" ++ NL
  | _ => String.concat ""
           (map (fun kv => indent ++ fst kv ++ " is a " ++ snd kv ++ NL) d)
  end.

Definition GetCmdHelp (d : cmdDescT) : string :=
  Name d ++ " Command" ++ NL ++ NL ++
  "  Usage:" ++ NL ++ NL ++
  match Result d with
  | Some r =>
      "    Result = " ++ Name d ++ "(ParameterName = ParameterValue,...)" ++ NL ++ NL ++
      "  where:" ++ NL ++ NL ++
      "    Result is a " ++ r ++ NL ++ NL
  | None =>
      "    " ++ Name d ++ "(ParameterName = ParameterValue,...)" ++ NL ++ NL
  end ++
  "    Required Parameters:" ++ NL ++ NL ++
  help_params "      " (RequiredParams d) ++
  NL ++ "    Optional Parameters:" ++ NL ++ NL ++
  help_params "        " (OptionalParams d).

Definition full_cmd_help (cmdStr : string) (d : cmdDescT) : string :=
  "Full erroneous command is:" ++ NL ++
  "  " ++ cmdStr ++ NL ++
  NL ++ NL ++ "Command Help:" ++ NL ++ NL ++
  GetCmdHelp d.

(** *** [__ParseEEMSCmd] *)

(** The statement shape: an optional result part "[^\s]+.*=" (group 1), the
    command "[^\s]+.*" (group 2), "\(", the parameter text ".*" (group 3)
    and "\)", with "\s*" before each of them. *)
Definition reCmd : regex :=
  Seq [Star Ws; Opt (Grp 0 (Seq [Plus NotWs; Star Dot; Chr "="]));
       Star Ws; Grp 1 (Seq [Plus NotWs; Star Dot]);
       Star Ws; Chr "("; Star Ws; Grp 2 (Star Dot); Star Ws; Chr ")"].

(** A pair whose value is a bracketed list: "\s*", the pair
    "[^=]*=\s*\[[^\[]*\]" (group 1), "\s*,*\s*" and the rest ".*" (group 2). *)
Definition reListPair : regex :=
  Seq [Star Ws;
       Grp 0 (Seq [Star (NoneOf "="); Chr "="; Star Ws;
                   Chr "["; Star (NoneOf "["); Chr "]"]);
       Star Ws; Star (Chr ","); Star Ws; Grp 1 (Star Dot)].

(** Any other pair: "\s*", the pair "[^=,]*=\s*[^,]*" (group 1),
    "\s*,*\s*" and the rest ".*" (group 2). *)
Definition rePair : regex :=
  Seq [Star Ws;
       Grp 0 (Seq [Star (NoneOf "=,"); Chr "="; Star Ws; Star (NoneOf ",")]);
       Star Ws; Star (Chr ","); Star Ws; Grp 1 (Star Dot)].

Definition reEquals : regex := Seq [Star Ws; Chr "="; Star Ws].
Definition reLBracket : regex := Seq [Star Ws; Chr "["; Star Ws].
Definition reRBracket : regex := Seq [Star Ws; Chr "]"; Star Ws].

Definition grp (c : caps) (n : nat) : string :=
  match group c n with Some g => g | None => "" end.

(** [while paramStr != '': ...], cutting one pair off the front of
    [paramStr] per iteration.  The pair holds at least its "=", so the
    rest is shorter each time and [fuel], one more than the length of the
    parameter text, is never used up. *)
Fixpoint param_pairs (fuel : nat) (cmdStr paramStr : string) (paramPairs : list string)
  : result (list string) :=
  match fuel with
  | O => OK paramPairs
  | S fuel' =>
      if String.eqb paramStr "" then OK paramPairs
      else
        match re_match reListPair paramStr with
        | Some (_, c) =>
            param_pairs fuel' cmdStr (grp c 1) (paramPairs ++ [grp c 0])%list
        | None =>
            match re_match rePair paramStr with
            | Some (_, c) =>
                param_pairs fuel' cmdStr (grp c 1) (paramPairs ++ [grp c 0])%list
            | None =>
                Raise (Exception
                  (banner ++
                   "Illegal parameter specification at section *" ++ paramStr ++ "*" ++ NL ++
                   "Full erroneous command is:" ++ NL ++
                   "  " ++ cmdStr ++ NL ++
                   proper_format))
            end
        end
  end.

(** The body of [for paramPair in paramPairs]. *)
Definition add_param (cmdStr cmdNm paramPair : string) (paramD : dict string)
  : result (dict string) :=
  match re_split reEquals paramPair with
  | t0 :: t1 :: rest =>
      let t0 := TrimEndSpace t0 in
      let t1 := TrimEndSpace t1 in
      let t1 := re_sub reLBracket "[" t1 in
      let t1 := re_sub reRBracket "]" t1 in
      let t1 := re_sub reComma "," t1 in
      if negb (List.length (t0 :: t1 :: rest) =? 2)%nat
         || String.eqb t0 "" || String.eqb t1 ""
      then
        Raise (Exception
          (banner ++
           "Parameter specification error in *" ++ paramPair ++ "*" ++ NL ++
           "Full erroneous command is:" ++ NL ++
           "  " ++ cmdStr ++ NL ++
           proper_format))
      else
        let t1 :=
          if String.eqb cmdNm "SELECTEDUNION" && String.eqb t0 "TruestOrFalsest" then
            if String.eqb t1 "1" || String.eqb t1 "+1" then "Truest"
            else if String.eqb t1 "-1" then "Falsest"
            else t1
          else t1 in
        OK (set paramD t0 t1)
  | _ => Raise (IndexError "list index out of range")
  end.

Definition ParseEEMSCmd (cmdStr : string) : result (parsedCmdT * cmdDescT) :=
  if String.eqb cmdStr "" then
    Raise (Exception (banner ++ "__ParseEEMSCmd called on empty command string."))
  else
    match re_match reCmd cmdStr with
    | None =>
        Raise (Exception
          (banner ++
           "Invalid command format." ++ NL ++
           "Full erroneous command is:" ++ NL ++
           "  " ++ cmdStr ++ NL ++
           proper_format))
    | Some (_, c) =>
        let rslt :=
          match group c 0 with
          | Some g => Some (re_sub reEquals "" (TrimEndSpace g))
          | None => None
          end in
        let cmdNm := TrimEndSpace (grp c 1) in
        desc <- InitCmdDesc cmdStr cmdNm ;;
        let paramStr := grp c 2 in
        paramPairs <- param_pairs (S (String.length paramStr)) cmdStr paramStr [] ;;
        paramD <- for_each paramPairs (add_param cmdStr cmdNm) [] ;;
        OK (mkParsed rslt cmdNm paramD, desc)
    end.

(** *** [__ValidateCmd] *)

Definition weighted_cmds : list string := ["WTDUNION"; "WTDMEAN"; "WTDSUM"; "WTDEMDSAND"].

Definition check_result (cmdStr : string) (pc : parsedCmdT) (d : cmdDescT) : result unit :=
  match Result d with
  | None =>
      match rslt pc with
      | Some _ =>
          Raise (Exception
            (banner ++ "Command does not use Result." ++ NL ++ full_cmd_help cmdStr d))
      | None => OK tt
      end
  | Some rtype =>
      match rslt pc with
      | None => Raise (KeyError "rslt")
      | Some r =>
          b <- IsParamType r rtype ;;
          if negb b then
            Raise (Exception
              (banner ++ "Invalid Result specification in command:" ++ NL ++
               "  *" ++ r ++ "* must be valid " ++ rtype ++ NL ++ ":" ++
               full_cmd_help cmdStr d))
          else OK tt
      end
  end.

Definition check_param_names (cmdStr : string) (pc : parsedCmdT) (d : cmdDescT)
  : result unit :=
  if negb (mem (cmd pc) ["CALLEXTERN"]) then
    for_each (keys (params pc))
      (fun paramName _ =>
         if negb (mem paramName (keys (RequiredParams d) ++ keys (OptionalParams d))%list)
         then
           Raise (Exception
             (banner ++ "Invalid parameter for this command: *" ++ paramName ++ "*" ++ NL ++
              full_cmd_help cmdStr d))
         else OK tt) tt
  else OK tt.

Definition check_required (cmdStr : string) (pc : parsedCmdT) (d : cmdDescT)
  : result unit :=
  for_each (keys (RequiredParams d))
    (fun paramName _ =>
       if negb (mem paramName (keys (params pc))) then
         Raise (Exception
           (banner ++ "Required parameter missing from command: *" ++ paramName ++ "*:" ++ NL ++
            full_cmd_help cmdStr d))
       else OK tt) tt.

(** The loop variable [paramType] keeps its value from one turn of the
    loop to the next; [None] stands for the name not being bound yet. *)
Definition check_values (cmdStr : string) (pc : parsedCmdT) (d : cmdDescT)
  : result (option string) :=
  for_each (keys (params pc))
    (fun paramName (paramType : option string) =>
       let paramType :=
         if mem paramName (keys (RequiredParams d)) then get (RequiredParams d) paramName
         else if mem paramName (keys (OptionalParams d)) then get (OptionalParams d) paramName
         else if mem (cmd pc) ["CALLEXTERN"] then Some "skip"
         else paramType in
       match paramType with
       | None => Raise (NameError "paramType")
       | Some ty =>
           if negb (String.eqb ty "skip") then
             v <- item (params pc) paramName ;;
             b <- IsParamType v ty ;;
             if negb b then
               Raise (Exception
                 (banner ++
                  "Invalid parameter value *" ++ paramName ++ " = " ++ v ++ "*:" ++ NL ++
                  "  *" ++ v ++ "* is not a valid value for parameter type: " ++ ty ++ NL ++
                  full_cmd_help cmdStr d))
             else OK (Some ty)
           else OK (Some ty)
       end) None.

Fixpoint floats_of (l : list string) : result (list F64.float) :=
  match l with
  | [] => OK []
  | x :: l' => q <- py_float x ;; qs <- floats_of l' ;; OK (q :: qs)
  end.

(** [for ndx in range(0,len(rawVals)-1): if rawVals[ndx] in rawVals[ndx+1:]] *)
Fixpoint first_repeated (rawVals : list F64.float) : option F64.float :=
  match rawVals with
  | [] => None
  | q :: rest =>
      if existsb (F64.eqb q) rest then Some q else first_repeated rest
  end.

Definition check_paired_lists (cmdStr : string) (pc : parsedCmdT) (d : cmdDescT)
  : result unit :=
  if mem (cmd pc) ["CVTTOFUZZYCURVE"; "CVTTOFUZZYCAT"] then
    raw <- item (params pc) "RawValues" ;;
    nraw <- len_list_param raw ;;
    fuz <- item (params pc) "FuzzyValues" ;;
    nfuz <- len_list_param fuz ;;
    (if negb (nraw =? nfuz)%nat then
       Raise (Exception
         (banner ++
          "Number of RawValues must be the same as the number of FuzzyValues." ++ NL ++
          "  Command has " ++ str_nat nraw ++ " RawValues and " ++ str_nat nfuz ++
          " FuzzyValues." ++ NL ++
          full_cmd_help cmdStr d))
     else OK tt) ;;;
    match ListFromListParam raw with
    | None => Raise (TypeError "'NoneType' object is not iterable")
    | Some toks =>
        rawVals <- floats_of toks ;;
        match first_repeated rawVals with
        | Some q =>
            Raise (Exception
              (banner ++ "All RawValues must be unique." ++ NL ++
               "  RawValue " ++ F64.fmt q ++ " appears more than once." ++ NL ++
               full_cmd_help cmdStr d))
        | None => OK tt
        end
    end
  else OK tt.

Definition check_weights (cmdStr : string) (pc : parsedCmdT) (d : cmdDescT)
  : result unit :=
  if mem (cmd pc) weighted_cmds then
    names <- item (params pc) "InFieldNames" ;;
    nnames <- len_list_param names ;;
    wts <- item (params pc) "Weights" ;;
    nwts <- len_list_param wts ;;
    if negb (nnames =? nwts)%nat then
      Raise (Exception
        (banner ++
         "Number of InFieldNames must be the same as the number of Weights." ++ NL ++
         "  Command has " ++ str_nat nnames ++ " InFieldNames and " ++ str_nat nwts ++
         " Weights." ++ NL ++
         full_cmd_help cmdStr d))
    else OK tt
  else OK tt.

Definition check_number_to_consider (cmdStr : string) (pc : parsedCmdT) (d : cmdDescT)
  : result unit :=
  if mem (cmd pc) ["SELECTEDUNION"] then
    ntxt <- item (params pc) "NumberToConsider" ;;
    n <- py_int ntxt ;;
    names <- item (params pc) "InFieldNames" ;;
    nnames <- len_list_param names ;;
    if (Z.of_nat nnames <? n)%Z then
      Raise (Exception
        (banner ++
         "NumberToConsider can not be greater than number of InFieldNames." ++ NL ++
         "  Number to consider is " ++ str_Z n ++ ", number of FieldNames is " ++
         str_nat nnames ++ "." ++ NL ++
         full_cmd_help cmdStr d))
    else OK tt
  else OK tt.

Definition check_five_values (cmdStr : string) (pc : parsedCmdT) (d : cmdDescT)
  : result unit :=
  if mem (cmd pc) ["MEANTOMID"] then
    fuz <- item (params pc) "FuzzyValues" ;;
    if negb (List.length (split_chr "," fuz "") =? 5)%nat then
      Raise (Exception
        (banner ++ "Exactly 5 fuzzy values required." ++ NL ++ full_cmd_help cmdStr d))
    else OK tt
  else OK tt.

Definition ValidateCmd (cmdStr : string) (pc : parsedCmdT) (d : cmdDescT) : result unit :=
  check_result cmdStr pc d ;;;
  check_param_names cmdStr pc d ;;;
  check_required cmdStr pc d ;;;
  check_values cmdStr pc d ;;;
  check_paired_lists cmdStr pc d ;;;
  check_weights cmdStr pc d ;;;
  check_number_to_consider cmdStr pc d ;;;
  check_five_values cmdStr pc d.

(** [EEMSCmd.__init__] *)
Definition EEMSCmd_init (cmdStr : string) : result EEMSCmd :=
  '(pc, d) <- ParseEEMSCmd cmdStr ;;
  ValidateCmd cmdStr pc d ;;;
  OK (mkCmd cmdStr pc d).

(** *** Public methods *)

(** The values [GetParam] hands out. *)
Inductive pyval : Type :=
| VNone
| VBool (b : bool)
| VInt (z : Z)
| VFloat (x : F64.float)
| VStr (s : string)
| VStrList (l : list string)
| VIntList (l : list Z)
| VFloatList (l : list F64.float).

Definition HasResultName (c : EEMSCmd) : bool :=
  match rslt (parsedCmd c) with Some _ => true | None => false end.

Definition GetResultName (c : EEMSCmd) : result string :=
  match rslt (parsedCmd c) with
  | Some r => OK r
  | None =>
      Raise (Exception
        (banner ++ "Requested ResultName from command with no ResultName" ++ NL ++
         "Command without ResultName is:" ++ NL ++
         "  " ++ cmdStr c ++ NL))
  end.

Definition GetCommandName (c : EEMSCmd) : string := cmd (parsedCmd c).

Definition IsReadCmd (c : EEMSCmd) : bool := mem (cmd (parsedCmd c)) ["READ"; "READMULTI"].

Definition HasParam (c : EEMSCmd) (paramNm : string) : bool :=
  mem paramNm (keys (params (parsedCmd c))).

Definition IsRequiredParam (c : EEMSCmd) (paramNm : string) : bool :=
  mem paramNm (keys (RequiredParams (cmdDesc c))).

Definition IsOptionalParam (c : EEMSCmd) (paramNm : string) : bool :=
  mem paramNm (keys (OptionalParams (cmdDesc c))).

Definition GetOptionalParamNames (c : EEMSCmd) : list string :=
  keys (OptionalParams (cmdDesc c)).

Definition GetRequiredParamNames (c : EEMSCmd) : list string :=
  keys (RequiredParams (cmdDesc c)).

Definition GetCommandString (c : EEMSCmd) : string := cmdStr c.

Definition GetParamNames (c : EEMSCmd) : list string := keys (params (parsedCmd c)).

Definition requested_from (c : EEMSCmd) : string :=
  "Full command from which parameter was requested:" ++ NL ++
  "  " ++ cmdStr c ++ NL ++
  NL ++ NL ++ "Command Help:" ++ NL ++ NL ++
  GetCmdHelp (cmdDesc c).

Definition GetParamType (c : EEMSCmd) (paramNm : string) : result string :=
  if IsRequiredParam c paramNm then item (RequiredParams (cmdDesc c)) paramNm
  else if IsOptionalParam c paramNm then item (OptionalParams (cmdDesc c)) paramNm
  else if String.eqb (GetCommandName c) "CALLEXTERN" then OK "Unknown Type"
  else
    Raise (Exception
      (banner ++ "Requested parameter *" ++ paramNm ++ "* invalid for this command." ++ NL ++
       "*" ++ requested_from c)).

Definition list_of_param (v : string) : result (list string) :=
  match ListFromListParam v with
  | Some l => OK l
  | None => Raise (TypeError "'NoneType' object is not iterable")
  end.

Fixpoint ints_of (l : list string) : result (list Z) :=
  match l with
  | [] => OK []
  | x :: l' => n <- py_int x ;; ns <- ints_of l' ;; OK (n :: ns)
  end.

(** [GetParam]: the parameter in the form its type asks for. *)
Definition GetParam (c : EEMSCmd) (paramNm : string) : result pyval :=
  paramType <- GetParamType c paramNm ;;
  match get (params (parsedCmd c)) paramNm with
  | None =>
      if IsOptionalParam c paramNm then OK VNone
      else
        Raise (Exception
          (banner ++ "Required parameter *" ++ paramNm ++ "* missing from command." ++ NL ++
           "*" ++ requested_from c))
  | Some paramVal =>
      if mem paramType ["File Name"; "Field Name"; "Truest or Falsest";
                        "Import Name"; "Function Name"; "Unknown Type"]
      then OK (VStr paramVal)
      else if mem paramType ["Integer"; "Positive Integer"] then
        n <- py_int paramVal ;; OK (VInt n)
      else if mem paramType ["Float"; "Positive Float"; "Fuzzy Value"] then
        q <- py_float paramVal ;; OK (VFloat q)
      else if mem paramType ["Boolean"] then
        if String.eqb paramVal "1" || matches reTrue paramVal then OK (VBool true)
        else if String.eqb paramVal "0" || String.eqb paramVal "-1" ||
                matches reFalse paramVal then OK (VBool false)
        else
          Raise (Exception
            (banner ++ "Required parameter *" ++ paramNm ++
             "* must be one of [" ++ DQ ++ "True" ++ DQ ++ "," ++ DQ ++ "False" ++ DQ ++
             "," ++ DQ ++ "0" ++ DQ ++ "," ++ DQ ++ "1" ++ DQ ++ "]." ++ NL ++
             "*" ++ "Full command in which parameter is incorrect:" ++ NL ++
             "  " ++ cmdStr c ++ NL ++
             NL ++ NL ++ "Command Help:" ++ NL ++ NL ++
             GetCmdHelp (cmdDesc c)))
      else if mem paramType ["Field Type Description"] then OK (VStr paramVal)
      else if mem paramType ["File Name List"; "Field Name List"] then
        l <- list_of_param paramVal ;; OK (VStrList l)
      else if mem paramType ["Integer List"; "Positive Integer List"] then
        l <- list_of_param paramVal ;; ns <- ints_of l ;; OK (VIntList ns)
      else if mem paramType ["Float List"; "Positive Float List"; "Fuzzy Value List"] then
        l <- list_of_param paramVal ;; qs <- floats_of l ;; OK (VFloatList qs)
      else
        Raise (Exception
          (banner ++ "Unknown parameter type *" ++ paramType ++ "* for this command." ++ NL ++
           "*" ++ requested_from c))
  end.

End Cmd.

(** ** class EEMSProgram *)

Module Prog.
Import PyStr PyRe PyDict Cmd.
Local Open Scope string_scope.

(** Field names are strings and lists of strings: in every command
    description the parameters read below have the types "Field Name"
    and "Field Name List".  A value of another kind is a [TypeError]. *)
Definition as_str (v : pyval) : result string :=
  match v with
  | VStr s => OK s
  | _ => Raise (TypeError "field name is not a string")
  end.

Definition as_str_list (v : pyval) : result (list string) :=
  match v with
  | VStrList l => OK l
  | _ => Raise (TypeError "field names are not a list of strings")
  end.

(** [__GetReadFieldNms] *)
Definition GetReadFieldNms (c : EEMSCmd) : result (list string) :=
  if mem (GetCommandName c) ["READ"] then
    if HasParam c "NewFieldName" then
      v <- GetParam c "NewFieldName" ;; s <- as_str v ;; OK [s]
    else
      v <- GetParam c "InFieldName" ;; s <- as_str v ;; OK [s]
  else if mem (GetCommandName c) ["READMULTI"] then
    if HasParam c "NewFieldNames" then
      v <- GetParam c "NewFieldNames" ;; as_str_list v
    else
      v <- GetParam c "InFieldNames" ;; as_str_list v
  else
    Raise (Exception
      ("Programming Error, __GetReadFieldNms() for READ type EEMSCmds only." ++ NL ++
       "  EEMSCmd string for command passed to this method:" ++
       "    " ++ GetCommandString c)).

(** [__GetDependFieldNms] *)
Definition GetDependFieldNms (c : EEMSCmd) : result (list string) :=
  if IsReadCmd c then OK []
  else if HasParam c "InFieldNames" then
    v <- GetParam c "InFieldNames" ;; as_str_list v
  else if HasParam c "InFieldName" then
    v <- GetParam c "InFieldName" ;; s <- as_str v ;; OK [s]
  else if String.eqb (GetCommandName c) "DIF" then
    v1 <- GetParam c "StartingFieldName" ;; s1 <- as_str v1 ;;
    v2 <- GetParam c "ToSubtractFieldName" ;; s2 <- as_str v2 ;;
    OK [s1; s2]
  else
    Raise (Exception
      ("Programming Error!" ++ NL ++
       "  Command has neither InFieldNames nor InFieldName." ++ NL ++
       "  Command string:" ++ NL ++
       "    " ++ GetCommandString c)).

(** The attributes of the object while the program is put together. *)
Record progSt : Type := mkProgSt {
  unorderedCmds : list EEMSCmd;
  allDefinedFieldNms : dict EEMSCmd
}.

Definition defined_twice (header cmdStr : string) (other : EEMSCmd) : exn :=
  Exception
    (banner ++ header ++ NL ++
     "  " ++ cmdStr ++ NL ++
     "  " ++ GetCommandString other ++ NL).

Definition define_field (header cmdStr : string) (c : EEMSCmd) (fldNm : string)
    (defs : dict EEMSCmd) : result (dict EEMSCmd) :=
  match get defs fldNm with
  | Some other => Raise (defined_twice header cmdStr other)
  | None => OK (set defs fldNm c)
  end.

(** [__AddCmd] *)
Definition AddCmd (cmdStr : string) (st : progSt) : result progSt :=
  c <- EEMSCmd_init cmdStr ;;
  defs <-
    (if HasResultName c then
       rsltNm <- GetResultName c ;;
       define_field
         ("A field is defined by two different commands." ++ NL ++
          "Commands with duplicate definitions:")
         cmdStr c rsltNm (allDefinedFieldNms st)
     else if IsReadCmd c then
       names <- GetReadFieldNms c ;;
       for_each names
         (define_field
            ("A field is defined more than once." ++ NL ++
             "Commands with repeated definitions:")
            cmdStr c)
         (allDefinedFieldNms st)
     else OK (allDefinedFieldNms st)) ;;
  OK (mkProgSt (unorderedCmds st ++ [c])%list defs).

(** *** [__OrderCmds] *)

Definition undefined_field (dependNm : string) (c : EEMSCmd) : exn :=
  Exception
    (banner ++
     "Command depends on undefined field *" ++ dependNm ++ "*" ++ NL ++
     "Full command with error:" ++ NL ++
     "  " ++ GetCommandString c ++ NL).

(** The check for a missing dependency, before any ordering. *)
Definition check_depends (defs : dict EEMSCmd) (c : EEMSCmd) (_ : unit) : result unit :=
  deps <- GetDependFieldNms c ;;
  for_each deps
    (fun dependNm _ =>
       if negb (mem dependNm (keys defs)) then Raise (undefined_field dependNm c)
       else OK tt) tt.

Definition check_missing (cmds : list EEMSCmd) (defs : dict EEMSCmd) : result unit :=
  for_each cmds (check_depends defs) tt.

Record orderSt : Type := mkOrderSt {
  toOrder : list EEMSCmd;            (* self.unorderedCmds *)
  orderedCmds : list EEMSCmd;        (* self.orderedCmds *)
  dpndsInOrderedCmds : list string
}.

(** [l.pop(ndx)] *)
Fixpoint pop {A : Type} (ndx : nat) (l : list A) : list A :=
  match ndx, l with
  | _, [] => []
  | O, _ :: l' => l'
  | S n, x :: l' => x :: pop n l'
  end.

(** The body of [for ndx in ndxs]. *)
Definition sweep_step (ndx : nat) (st : orderSt) : result orderSt :=
  match nth_error (toOrder st) ndx with
  | None => Raise (IndexError "list index out of range")
  | Some c =>
      if IsReadCmd c then
        names <- GetReadFieldNms c ;;
        OK (mkOrderSt (pop ndx (toOrder st))
                      (orderedCmds st ++ [c])%list
                      (dpndsInOrderedCmds st ++ names)%list)
      else
        deps <- GetDependFieldNms c ;;
        let cmdHasAllDepends :=
          forallb (fun dependFldNm => mem dependFldNm (dpndsInOrderedCmds st)) deps in
        if cmdHasAllDepends then
          rsltNm <- GetResultName c ;;
          OK (mkOrderSt (pop ndx (toOrder st))
                        (orderedCmds st ++ [c])%list
                        (dpndsInOrderedCmds st ++ [rsltNm])%list)
        else OK st
  end.

(** One sweep: the indices of the commands still to order, last first. *)
Definition sweep (st : orderSt) : result orderSt :=
  let ndxs := rev (seq 0 (List.length (toOrder st))) in
  for_each ndxs sweep_step st.

Definition circular_logic (remaining : list EEMSCmd) : exn :=
  let cmdStrings :=
    String.concat "" (map (fun c => "  " ++ GetCommandString c ++ NL) remaining) in
  Exception
    (banner ++
     "Circular logic in the dependencies for this subset of commands:" ++
     cmdStrings).

(** [while len(self.unorderedCmds) > 0: ...].  Every sweep that does not
    raise takes at least one command out of the list, so [fuel], the
    number of commands to order, reaches zero only with the list empty. *)
Fixpoint order_loop (fuel : nat) (st : orderSt) : result (list EEMSCmd) :=
  match fuel with
  | O => OK (orderedCmds st)
  | S fuel' =>
      if (0 <? List.length (toOrder st))%nat then
        let startingCmdsToBeOrderedLen := List.length (toOrder st) in
        st' <- sweep st ;;
        if (startingCmdsToBeOrderedLen =? List.length (toOrder st'))%nat then
          Raise (circular_logic (toOrder st'))
        else order_loop fuel' st'
      else OK (orderedCmds st)
  end.

Definition OrderCmds (st : progSt) : result (list EEMSCmd) :=
  check_missing (unorderedCmds st) (allDefinedFieldNms st) ;;;
  order_loop (List.length (unorderedCmds st))
    (mkOrderSt (unorderedCmds st) [] []).

(** *** [EEMSProgram.__init__] *)

Record readSt : Type := mkReadSt {
  prog : progSt;
  cmdLine : string;
  inParens : bool;
  parenCnt : Z;
  inLineCnt : nat;
  cmdStartLine : string;
  cmdStartLineNum : nat
}.

Definition at_line (fNm : string) (lineNum : nat) (line : string) : string :=
  "  file: " ++ fNm ++ ", line " ++ str_nat lineNum ++ ":" ++ NL ++
  "  " ++ line ++ NL.

(** [for charNdx in range(len(tmpLine))], on the characters still to come. *)
Fixpoint read_chars (fNm inLine : string) (tmpLine : string) (st : readSt)
  : result readSt :=
  match tmpLine with
  | EmptyString => OK st
  | String ch rest =>
      let cmdLine := cmdLine st ++ String ch EmptyString in
      let '(inParens, parenCnt) :=
        if Ascii.eqb ch "(" then (true, (parenCnt st + 1)%Z)
        else if Ascii.eqb ch ")" then (inParens st, (parenCnt st - 1)%Z)
        else (inParens st, parenCnt st) in
      if (parenCnt <? 0)%Z then
        Raise (Exception
          (banner ++ "Unmatched right paren *)*" ++ NL ++
           at_line fNm (inLineCnt st) inLine))
      else if inParens && (parenCnt =? 0)%Z then
        match rest with
        | String _ _ =>
            Raise (Exception
              (banner ++ "Extraneous characters beyond end of command" ++ NL ++
               at_line fNm (inLineCnt st) inLine))
        | EmptyString =>
            p <- AddCmd cmdLine (prog st) ;;
            read_chars fNm inLine rest
              (mkReadSt p "" false 0 (inLineCnt st) (cmdStartLine st) (cmdStartLineNum st))
        end
      else
        read_chars fNm inLine rest
          (mkReadSt (prog st) cmdLine inParens parenCnt
                    (inLineCnt st) (cmdStartLine st) (cmdStartLineNum st))
  end.

(** The comment pattern "#.*$" *)
Definition reComment : regex := Seq [Chr "#"; Star Dot; Eol].

(** The body of [for inLine in inFile]. *)
Definition read_line (fNm : string) (inLine : string) (st : readSt) : result readSt :=
  let inLineCnt := S (inLineCnt st) in
  let '(startLine, startNum) :=
    if String.eqb (cmdLine st) "" then (inLine, inLineCnt)
    else (cmdStartLine st, cmdStartLineNum st) in
  let tmpLine := strip (re_sub reComment "" inLine) in
  read_chars fNm inLine tmpLine
    (mkReadSt (prog st) (cmdLine st) (inParens st) (parenCnt st)
              inLineCnt startLine startNum).

(** The statements of the file, checked and registered. *)
Definition read_program (fNm : string) (lines : list string) : result progSt :=
  st <- for_each lines (read_line fNm) (mkReadSt (mkProgSt [] []) "" false 0 0 "" 0) ;;
  if (0 <? parenCnt st)%Z then
    Raise (Exception
      (banner ++ "Unmatched " ++ str_Z (parenCnt st) ++ " left parens *(*" ++ NL ++
       "  file: " ++ fNm ++ ", command starting on line " ++
       str_nat (cmdStartLineNum st) ++ ":" ++ NL ++
       "  " ++ cmdStartLine st ++ NL))
  else if (List.length (unorderedCmds (prog st)) =? 0)%nat then
    Raise (Exception
      (banner ++ "EEMS command file has no commands." ++ NL ++
       "  file: " ++ fNm ++ NL))
  else OK (prog st).

Record EEMSProgram : Type := mkProgram {
  progOrderedCmds : list EEMSCmd;
  progDefinedFieldNms : dict EEMSCmd;
  crntCmdNdx : option Z
}.

Definition EEMSProgram_init (fNm : string) (lines : list string) : result EEMSProgram :=
  st <- read_program fNm lines ;;
  ordered <- OrderCmds st ;;
  OK (mkProgram ordered (allDefinedFieldNms st) (Some 0%Z)).

End Prog.

(** ** class EEMSCmdRunnerBase *)

Module Runner.
Import PyStr PyRe PyDict Cmd.
Local Open Scope string_scope.

(** *** Masked arrays

    The fields are numpy masked arrays of [float64], as the CSV reader
    and [np.ma.zeros] make them.  Besides its cells an array records
    whether its mask is the constant [np.ma.nomask] or an array of
    booleans: the two behave alike but for the mean of an empty
    selection (see [ma_mean]). *)

Definition float : Type := F64.float.

(** A cell of a masked array: [None] when the cell is masked. *)
Definition cell : Type := option float.

Record marray : Type := mkArr {
  shape : list nat;
  nomask : bool;
  cells : list cell
}.

Definition is_unmasked (c : cell) : bool :=
  match c with Some _ => true | None => false end.

Definition no_masked (l : list cell) : bool := forallb is_unmasked l.

(** An array whose mask is shrunk to [nomask] when no cell is masked,
    as [np.ma.where] returns it. *)
Definition shrunk (sh : list nat) (l : list cell) : marray :=
  mkArr sh (no_masked l) l.

(** The result of an operator of the [a + b] kind on an array [a]: its
    mask is [nomask] when the operands' masks both are. *)
Definition derived (a : marray) (other_nomask : bool) (l : list cell) : marray :=
  mkArr (shape a) (nomask a && other_nomask) l.

(** The array [a] after an update in place: a mask that was [nomask]
    stays so unless the update masks a cell. *)
Definition updated (a : marray) (l : list cell) : marray :=
  mkArr (shape a) (nomask a && no_masked l) l.

Definition lift2 (f : float -> float -> float) (a b : cell) : cell :=
  match a, b with
  | Some x, Some y => Some (f x y)
  | _, _ => None
  end.

(** [a + b], [a - b], [a * b], and [a += b]: masked where an operand is. *)
Definition cadd : cell -> cell -> cell := lift2 F64.add.
Definition csub : cell -> cell -> cell := lift2 F64.sub.
Definition cmul : cell -> cell -> cell := lift2 F64.mul.

(** [np.finfo(float).tiny], two to the power -1022. *)
Definition tiny : float := S754_finite false 4503599627370496 (-1074).

(** The domain numpy keeps a division out of:
    [abs(a) * tiny >= abs(b)]. *)
Definition unsafe_div (a b : float) : bool :=
  F64.leb (F64.abs b) (F64.mul (F64.abs a) tiny).

(** [a / b]: masked where an operand is, where the division is out of
    the safe domain, and where the quotient is not finite. *)
Definition cdiv (a b : cell) : cell :=
  match a, b with
  | Some x, Some y =>
      let q := F64.div x y in
      if negb (F64.is_finite q) || unsafe_div x y then None else Some q
  | _, _ => None
  end.

(** [a /= b]: masked where an operand is and where the division is out
    of the safe domain. *)
Definition cidiv (a b : cell) : cell :=
  match a, b with
  | Some x, Some y => if unsafe_div x y then None else Some (F64.div x y)
  | _, _ => None
  end.

(** Comparisons give a masked truth value on a masked cell. *)
Definition ccmp (f : float -> float -> bool) (a b : cell) : option bool :=
  match a, b with
  | Some x, Some y => Some (f x y)
  | _, _ => None
  end.

Definition clt : cell -> cell -> option bool := ccmp F64.ltb.
Definition cle : cell -> cell -> option bool := ccmp F64.leb.
Definition ceq : cell -> cell -> option bool := ccmp F64.eqb.
Definition cne : cell -> cell -> option bool := ccmp F64.neb.

(** [np.ma.where(cond, x, y)] on one cell. *)
Definition cwhere (cond : option bool) (x y : cell) : cell :=
  match cond with
  | None => None
  | Some true => x
  | Some false => y
  end.

(** [np.ma.minimum(a, b)] is [where(less(a, b), a, b)] and
    [np.ma.maximum(a, b)] is [where(greater(a, b), a, b)]. *)
Definition cmin (a b : cell) : cell := cwhere (clt a b) a b.
Definition cmax (a b : cell) : cell := cwhere (clt b a) a b.

(** A masked truth value in [if]: the masked constant counts as false. *)
Definition truthy (b : option bool) : bool :=
  match b with Some true => true | _ => false end.

Fixpoint zip_with {A B C : Type} (f : A -> B -> C) (l1 : list A) (l2 : list B) : list C :=
  match l1, l2 with
  | x :: l1', y :: l2' => f x y :: zip_with f l1' l2'
  | _, _ => []
  end.

(** [np.ma.zeros(shape)] *)
Definition zeros (sh : list nat) : marray :=
  mkArr sh true (repeat (Some F64.zero) (fold_right Nat.mul 1%nat sh)).

Definition zero_size {A : Type} (op : string) : result A :=
  Raise (ValueError
    ("zero-size array to reduction operation " ++ op ++ " which has no identity")).

(** One step of the reductions [minimum] and [maximum] of numpy: a
    value that is not a number is kept. *)
Definition np_minimum (a b : float) : float :=
  if F64.leb a b || F64.is_nan a then a else b.
Definition np_maximum (a b : float) : float :=
  if F64.leb b a || F64.is_nan a then a else b.

Definition filled (v : float) (c : cell) : float :=
  match c with Some x => x | None => v end.

(** [a.min()], [a.max()], [np.amin(a)], [np.amax(a)]: the reduction of
    the array with its masked cells filled by the infinity that cannot
    win; the masked constant when every cell is masked. *)
Definition reduce (op : string) (f : float -> float -> float) (fill : float)
    (l : list cell) : result cell :=
  match l with
  | [] => zero_size op
  | c :: l' =>
      if existsb is_unmasked l then
        OK (Some (fold_left f (map (filled fill) l') (filled fill c)))
      else OK None
  end.

Definition amin (a : marray) : result cell :=
  reduce "minimum" np_minimum F64.pinf (cells a).

Definition amax (a : marray) : result cell :=
  reduce "maximum" np_maximum F64.ninf (cells a).

(** The clamp every fuzzy operator ends with:
    [np.ma.where(newData > 1.0, 1.0, newData)] and then
    [np.ma.where(newData < -1.0, -1.0, newData)]. *)
Definition clip_cell (c : cell) : cell :=
  let c1 := cwhere (clt (Some F64.one) c) (Some F64.one) c in
  cwhere (clt c1 (Some F64.minus_one)) (Some F64.minus_one) c1.

Definition clip (a : marray) : marray := shrunk (shape a) (map clip_cell (cells a)).

(** *** The field registry *)

Record field : Type := mkField {
  outFNm : string;
  data : marray
}.

Record runner : Type := mkRunner {
  EEMSFlds : dict field;
  arrayShape : option (list nat)
}.

(** [EEMSCmdRunnerBase.__init__] *)
Definition runner_init : runner := mkRunner [] None.

Definition MinForFuzzyLimit : float := F64.of_Z (-9999).
Definition MaxForFuzzyLimit : float := F64.of_Z 9999.

Definition shape_eqb (s1 s2 : list nat) : bool :=
  (List.length s1 =? List.length s2)%nat && forallb (fun p => (fst p =? snd p)%nat) (combine s1 s2).

(** [str] of a shape tuple. *)
Definition str_shape (sh : list nat) : string :=
  match sh with
  | [n] => "(" ++ str_nat n ++ ",)"
  | _ => "(" ++ join ", " (map str_nat sh) ++ ")"
  end.

(** [self.EEMSFlds[name]['data']] *)
Definition fld_data (r : runner) (name : string) : result marray :=
  f <- item (EEMSFlds r) name ;; OK (data f).

(** [_AddFieldToEEMSFlds].  The message of the duplicate case has no
    conversion for its argument, so formatting it is what raises. *)
Definition AddFieldToEEMSFlds (r : runner) (outFNm fldNm : string) (fldArray : marray)
  : result runner :=
  if mem fldNm (keys (EEMSFlds r)) then
    Raise (TypeError "not all arguments converted during string formatting")
  else
    sh <-
      match arrayShape r with
      | None => OK (shape fldArray)
      | Some sh =>
          if negb (shape_eqb (shape fldArray) sh) then
            Raise (Exception
              (banner ++ "Data Shape mismatch:" ++ NL ++
               "  Field *" ++ fldNm ++ "* has shape " ++ str_shape (shape fldArray) ++
               ", does not match " ++ str_shape sh ++ "." ++ NL))
          else OK sh
      end ;;
    OK (mkRunner (set (EEMSFlds r) fldNm (mkField outFNm fldArray)) (Some sh)).

(** ['%f' % c] for a numpy scalar or the masked constant. *)
Definition fmt_cell (c : cell) : string :=
  match c with Some x => F64.fmt x | None => "nan" end.

(** [_VerifyFuzzyField].  The least and the greatest value are not a
    number as soon as one unmasked cell is not, and no comparison with
    such a value holds; neither does one with the masked constant. *)
Definition VerifyFuzzyField (r : runner) (inFldNm : string) : result unit :=
  d <- fld_data r inFldNm ;;
  lo <- amin d ;;
  hi <- amax d ;;
  if truthy (clt lo (Some F64.minus_one)) || truthy (clt (Some F64.one) hi) then
    Raise (Exception
      (banner ++
       "Field in fuzzy operation has range outside of fuzzy limits (-1,+1):" ++ NL ++
       "  Field *" ++ inFldNm ++ "* has range (" ++ fmt_cell lo ++ "," ++ fmt_cell hi ++
       ")." ++ NL))
  else OK tt.

Definition verify_all (r : runner) (inFieldNames : list string) : result unit :=
  for_each inFieldNames (fun inFldNm _ => VerifyFuzzyField r inFldNm) tt.

(** [l[0]], [l[ndx]] *)
Definition index {A : Type} (l : list A) (ndx : nat) : result A :=
  match nth_error l ndx with
  | Some x => OK x
  | None => Raise (IndexError "list index out of range")
  end.

(** *** Scalars

    A number the operators compute with outside the arrays is a Python
    [float], a numpy scalar (what a reduction of an array returns), or
    the masked constant.  The difference shows in a division by zero,
    which raises for Python floats only. *)

Inductive scalar : Type :=
| PyFloat (x : float)
| NpFloat (x : float)
| Masked.

Definition scalar_cell (s : scalar) : cell :=
  match s with
  | PyFloat x | NpFloat x => Some x
  | Masked => None
  end.

Definition of_reduction (c : cell) : scalar :=
  match c with Some x => NpFloat x | None => Masked end.

Definition scalar2 (f : float -> float -> float) (a b : scalar) : scalar :=
  match a, b with
  | PyFloat x, PyFloat y => PyFloat (f x y)
  | Masked, _ | _, Masked => Masked
  | PyFloat x, NpFloat y | NpFloat x, PyFloat y | NpFloat x, NpFloat y => NpFloat (f x y)
  end.

Definition ssub : scalar -> scalar -> scalar := scalar2 F64.sub.
Definition smul : scalar -> scalar -> scalar := scalar2 F64.mul.

(** [a / b] *)
Definition sdiv (a b : scalar) : result scalar :=
  match a, b with
  | PyFloat x, PyFloat y =>
      if F64.is_zero y then Raise (ZeroDivisionError "float division by zero")
      else OK (PyFloat (F64.div x y))
  | _, _ => OK (scalar2 F64.div a b)
  end.

(** *** Conversions to fuzzy *)

(** A threshold, or the field's own minimum or maximum for the two
    limit values. *)
Definition resolve_thresh (r : runner) (inFieldName : string) (thr : float) : result scalar :=
  if F64.eqb thr MinForFuzzyLimit then
    d <- fld_data r inFieldName ;; c <- amin d ;; OK (of_reduction c)
  else if F64.eqb thr MaxForFuzzyLimit then
    d <- fld_data r inFieldName ;; c <- amax d ;; OK (of_reduction c)
  else OK (PyFloat thr).

(** [data * m + b] for two scalars. *)
Definition linear (m b : scalar) (d : marray) : marray :=
  derived d (is_unmasked (scalar_cell m) && is_unmasked (scalar_cell b))
    (map (fun x => cadd (cmul x (scalar_cell m)) (scalar_cell b)) (cells d)).

Definition CvtToFuzzy (r : runner) (inFieldName : string) (trueThreshold falseThreshold : float)
    (outFileName rsltName : string) : result runner :=
  falseThresh <- resolve_thresh r inFieldName falseThreshold ;;
  trueThresh <- resolve_thresh r inFieldName trueThreshold ;;
  if truthy (ceq (scalar_cell trueThresh) (scalar_cell falseThresh)) then
    Raise (Exception
      (banner ++
       "CvtToFuzzy(): trueThresh cannot equal falseThresh." ++ NL ++
       "  trueThresh == falshThresh == *" ++ fmt_cell (scalar_cell trueThresh) ++ "*" ++
       "Arguments to this method call were:" ++ NL ++
       "  inFieldName:    " ++ inFieldName ++ NL ++
       "  trueThreshold:  " ++ F64.fmt trueThreshold ++ NL ++
       "  falseThreshold: " ++ F64.fmt falseThreshold ++ NL ++
       "  outFileName:    " ++ outFileName ++ NL ++
       "  rsltName:       " ++ rsltName ++ NL ++ NL ++
       "Note that this can happen when using default values for" ++ NL ++
       "for true and false thresholds with an field that has a " ++ NL ++
       "uniform value" ++ NL))
  else
    m <- sdiv (PyFloat (F64.of_Z (-1 - 1))) (ssub falseThresh trueThresh) ;;
    let b := ssub (PyFloat F64.one) (smul m trueThresh) in
    d <- fld_data r inFieldName ;;
    AddFieldToEEMSFlds r outFileName rsltName (clip (linear m b d)).

(** [l[-1]] *)
Definition last_item {A : Type} (l : list A) : result A :=
  match rev l with
  | x :: _ => OK x
  | [] => Raise (IndexError "list index out of range")
  end.

(** The raw values of a curve are Python floats, or numpy scalars when
    they are the statistics of [MeanToMid] ([np_scalars]). *)
Definition anchor (np_scalars : bool) (x : float) : scalar :=
  if np_scalars then NpFloat x else PyFloat x.

(** The slope and the offset of one segment of the curve. *)
Definition segment (np_scalars : bool) (x0 x1 y0 y1 : float) : result (scalar * scalar) :=
  m <- sdiv (PyFloat (F64.sub y1 y0))
            (ssub (anchor np_scalars x1) (anchor np_scalars x0)) ;;
  OK (m, ssub (PyFloat y0) (smul m (anchor np_scalars x0))).

(** [for ndx in range(1,len(rawValues))], with the pair of anchors before
    [ndx] carried along. *)
Fixpoint curve_segments (np_scalars : bool) (d : list cell) (x0 y0 : float)
    (rawValues fuzzyValues : list float) (newData : list cell)
  : result (list cell) :=
  match rawValues with
  | [] => OK newData
  | x1 :: rawValues' =>
      match fuzzyValues with
      | [] => Raise (IndexError "list index out of range")
      | y1 :: fuzzyValues' =>
          '(m, b) <- segment np_scalars x0 x1 y0 y1 ;;
          let newData :=
            zip_with
              (fun x old =>
                 cwhere (cle x (Some x0)) old
                   (cwhere (cle x (Some x1))
                      (cadd (cmul x (scalar_cell m)) (scalar_cell b)) old))
              d newData in
          curve_segments np_scalars d x1 y1 rawValues' fuzzyValues' newData
      end
  end.

(** [np.ma.where(data != data, float('nan'), v)]: the cells that are
    not a number stay so, every other unmasked cell starts at [v]. *)
Definition nan_or (v : float) (x : cell) : cell :=
  cwhere (cne x x) (Some F64.nan) (Some v).

Definition curve_cells (np_scalars : bool) (d : list cell) (rawValues fuzzyValues : list float)
  : result (list cell) :=
  let newData := map (nan_or (F64.of_Z (-9999))) d in
  x0 <- index rawValues 0 ;;
  y0 <- index fuzzyValues 0 ;;
  let newData := zip_with (fun x old => cwhere (cle x (Some x0)) (Some y0) old) d newData in
  newData <- curve_segments np_scalars d x0 y0 (tl rawValues) (tl fuzzyValues) newData ;;
  xn <- last_item rawValues ;;
  yn <- last_item fuzzyValues ;;
  let newData :=
    zip_with (fun x old => cwhere (clt (Some xn) x) (Some yn) old) d newData in
  OK (map clip_cell newData).

Definition CvtToFuzzyCurveCells (np_scalars : bool) (r : runner) (inFieldName : string)
    (rawValues fuzzyValues : list float) (outFileName rsltName : string)
  : result runner :=
  d <- fld_data r inFieldName ;;
  newCells <- curve_cells np_scalars (cells d) rawValues fuzzyValues ;;
  AddFieldToEEMSFlds r outFileName rsltName (shrunk (shape d) newCells).

Definition CvtToFuzzyCurve (r : runner) (inFieldName : string)
    (rawValues fuzzyValues : list float) (outFileName rsltName : string) : result runner :=
  CvtToFuzzyCurveCells false r inFieldName rawValues fuzzyValues outFileName rsltName.

Fixpoint cat_lookup (d : list cell) (rawValues fuzzyValues : list float) (newData : list cell)
  : result (list cell) :=
  match rawValues with
  | [] => OK newData
  | x :: rawValues' =>
      match fuzzyValues with
      | [] => Raise (IndexError "list index out of range")
      | y :: fuzzyValues' =>
          cat_lookup d rawValues' fuzzyValues'
            (zip_with (fun c old => cwhere (ceq c (Some x)) (Some y) old) d newData)
      end
  end.

Definition CvtToFuzzyCat (r : runner) (inFieldName : string)
    (rawValues fuzzyValues : list float) (defaultFuzzyValue : float)
    (outFileName rsltName : string) : result runner :=
  d <- fld_data r inFieldName ;;
  let newData := map (nan_or defaultFuzzyValue) (cells d) in
  newData <- cat_lookup (cells d) rawValues fuzzyValues newData ;;
  AddFieldToEEMSFlds r outFileName rsltName (shrunk (shape d) newData).

(** *** Numeric operators *)

Definition CopyField (r : runner) (inFieldName outFileName rsltName : string)
  : result runner :=
  d <- fld_data r inFieldName ;;
  AddFieldToEEMSFlds r outFileName rsltName d.

Definition DifFlds (r : runner) (startingFieldName toSubtractFieldName : string)
    (outFileName rsltName : string) : result runner :=
  a <- fld_data r startingFieldName ;;
  b <- fld_data r toSubtractFieldName ;;
  AddFieldToEEMSFlds r outFileName rsltName
    (derived a (nomask b) (zip_with csub (cells a) (cells b))).

(** [np.ma.minimum(a, b)], [np.ma.maximum(a, b)] on arrays. *)
Definition extremum (f : cell -> cell -> cell) (a b : marray) : marray :=
  shrunk (shape a) (zip_with f (cells a) (cells b)).

(** [newData = first.copy(); for ndx in range(1,len(names)): newData = f(newData, ...)] *)
Definition fold_fields (r : runner) (f : cell -> cell -> cell)
    (inFieldNames : list string) : result marray :=
  first <- index inFieldNames 0 ;;
  d0 <- fld_data r first ;;
  for_each (tl inFieldNames)
    (fun nm acc => d <- fld_data r nm ;; OK (extremum f acc d)) d0.

Definition MinFlds (r : runner) (inFieldNames : list string) (outFileName rsltName : string)
  : result runner :=
  newData <- fold_fields r cmin inFieldNames ;;
  AddFieldToEEMSFlds r outFileName rsltName newData.

Definition MaxFlds (r : runner) (inFieldNames : list string) (outFileName rsltName : string)
  : result runner :=
  newData <- fold_fields r cmax inFieldNames ;;
  AddFieldToEEMSFlds r outFileName rsltName newData.

(** [np.ma.zeros(self.arrayShape)] *)
Definition zeros_like_fields (r : runner) : result marray :=
  match arrayShape r with
  | Some sh => OK (zeros sh)
  | None => Raise (TypeError "expected sequence object with len >= 0 or a single integer")
  end.

(** [acc += d] *)
Definition iadd (acc d : marray) : marray :=
  updated acc (zip_with cadd (cells acc) (cells d)).

(** [a /= x] for a Python number [x]. *)
Definition idiv_scalar (a : marray) (x : float) : marray :=
  updated a (map (fun c => cidiv c (Some x)) (cells a)).

(** [d * w] for a Python number [w]. *)
Definition scale (d : marray) (w : float) : marray :=
  derived d true (map (fun c => cmul c (Some w)) (cells d)).

(** [newData = zeros; for name in names: newData += data] *)
Definition sum_fields (r : runner) (inFieldNames : list string) : result marray :=
  z <- zeros_like_fields r ;;
  for_each inFieldNames
    (fun nm acc => d <- fld_data r nm ;; OK (iadd acc d)) z.

(** [len(l)] and [float(len(l))], the same number in a division. *)
Definition len_F {A : Type} (l : list A) : float := F64.of_nat (List.length l).

(** [sum(weights)]: the additions from the left, from the integer 0. *)
Definition py_sum (l : list float) : float := fold_left F64.add l F64.zero.

Definition SumFlds (r : runner) (inFieldNames : list string) (outFileName rsltName : string)
  : result runner :=
  newData <- sum_fields r inFieldNames ;;
  AddFieldToEEMSFlds r outFileName rsltName newData.

Definition MeanFlds (r : runner) (inFieldNames : list string) (outFileName rsltName : string)
  : result runner :=
  newData <- sum_fields r inFieldNames ;;
  AddFieldToEEMSFlds r outFileName rsltName (idiv_scalar newData (len_F inFieldNames)).

(** [newData = zeros; for ndx in range(len(names)): newData += data * weights[ndx]] *)
Fixpoint weighted_sum_from (r : runner) (inFieldNames : list string) (weights : list float)
    (ndx : nat) (acc : marray) : result marray :=
  match inFieldNames with
  | [] => OK acc
  | nm :: inFieldNames' =>
      d <- fld_data r nm ;;
      w <- index weights ndx ;;
      weighted_sum_from r inFieldNames' weights (S ndx) (iadd acc (scale d w))
  end.

Definition weighted_sum (r : runner) (inFieldNames : list string) (weights : list float)
  : result marray :=
  z <- zeros_like_fields r ;;
  weighted_sum_from r inFieldNames weights 0 z.

Definition WeightedMean (r : runner) (inFieldNames : list string) (weights : list float)
    (outFileName rsltName : string) : result runner :=
  newData <- weighted_sum r inFieldNames weights ;;
  AddFieldToEEMSFlds r outFileName rsltName (idiv_scalar newData (py_sum weights)).

Definition WeightedSum (r : runner) (inFieldNames : list string) (weights : list float)
    (outFileName rsltName : string) : result runner :=
  newData <- weighted_sum r inFieldNames weights ;;
  AddFieldToEEMSFlds r outFileName rsltName newData.

(** *** Fuzzy logic operators *)

Definition FuzzyNot (r : runner) (inFieldName outFileName rsltName : string)
  : result runner :=
  VerifyFuzzyField r inFieldName ;;;
  d <- fld_data r inFieldName ;;
  let newData :=
    derived d true (map (fun x => cmul (Some F64.minus_one) x) (cells d)) in
  AddFieldToEEMSFlds r outFileName rsltName (clip newData).

Definition FuzzyUnion (r : runner) (inFieldNames : list string)
    (outFileName rsltName : string) : result runner :=
  verify_all r inFieldNames ;;;
  newData <- sum_fields r inFieldNames ;;
  let newData := idiv_scalar newData (len_F inFieldNames) in
  AddFieldToEEMSFlds r outFileName rsltName (clip newData).

Definition FuzzyOr (r : runner) (inFieldNames : list string)
    (outFileName rsltName : string) : result runner :=
  verify_all r inFieldNames ;;;
  newData <- fold_fields r cmax inFieldNames ;;
  AddFieldToEEMSFlds r outFileName rsltName (clip newData).

Definition FuzzyAnd (r : runner) (inFieldNames : list string)
    (outFileName rsltName : string) : result runner :=
  verify_all r inFieldNames ;;;
  newData <- fold_fields r cmin inFieldNames ;;
  AddFieldToEEMSFlds r outFileName rsltName (clip newData).

(** [minVals + (meanVals - minVals) * (minVals + 1) / 2] *)
Definition emds_and_cell (minVal meanVal : cell) : cell :=
  cadd minVal
    (cdiv (cmul (csub meanVal minVal) (cadd minVal (Some F64.one))) (Some (F64.of_Z 2))).

(** The array of the formula: the quotient in it has a mask of its own. *)
Definition emds_and (minVals meanVals : marray) : marray :=
  mkArr (shape minVals) false (zip_with emds_and_cell (cells minVals) (cells meanVals)).

Definition FuzzyEMDSAnd (r : runner) (inFieldNames : list string)
    (outFileName rsltName : string) : result runner :=
  verify_all r inFieldNames ;;;
  first <- index inFieldNames 0 ;;
  minVals <- fld_data r first ;;
  let meanVals := minVals in
  '(minVals, meanVals) <-
    for_each (tl inFieldNames)
      (fun nm acc =>
         d <- fld_data r nm ;;
         OK (extremum cmin (fst acc) d, iadd (snd acc) d))
      (minVals, meanVals) ;;
  let meanVals := idiv_scalar meanVals (len_F inFieldNames) in
  AddFieldToEEMSFlds r outFileName rsltName (clip (emds_and minVals meanVals)).

(** Prints that it is deprecated and calls [FuzzyAnd]. *)
Definition FuzzyOrNeg (r : runner) (inFieldNames : list string)
    (outFileName rsltName : string) : result runner :=
  FuzzyAnd r inFieldNames outFileName rsltName.

Definition FuzzyWeightedUnion (r : runner) (inFieldNames : list string) (weights : list float)
    (outFileName rsltName : string) : result runner :=
  verify_all r inFieldNames ;;;
  newData <- weighted_sum r inFieldNames weights ;;
  let newData := idiv_scalar newData (py_sum weights) in
  AddFieldToEEMSFlds r outFileName rsltName (clip newData).

(** [for ndx in range(1,len(inFieldNames))] of the weighted EMDS and. *)
Fixpoint wtd_emds_from (r : runner) (inFieldNames : list string) (weights : list float)
    (ndx : nat) (acc : marray * marray) : result (marray * marray) :=
  match inFieldNames with
  | [] => OK acc
  | nm :: inFieldNames' =>
      d <- fld_data r nm ;;
      w <- index weights ndx ;;
      wtd_emds_from r inFieldNames' weights (S ndx)
        (extremum cmin (fst acc) d, iadd (snd acc) (scale d w))
  end.

(** The method is spelt with a doubled d in the class. *)
Definition FuzzyEMDSWeighteddAnd (r : runner) (inFieldNames : list string)
    (weights : list float) (outFileName rsltName : string) : result runner :=
  verify_all r inFieldNames ;;;
  first <- index inFieldNames 0 ;;
  minVals <- fld_data r first ;;
  w0 <- index weights 0 ;;
  let meanVals := scale minVals w0 in
  '(minVals, meanVals) <-
    wtd_emds_from r (tl inFieldNames) weights 1 (minVals, meanVals) ;;
  let meanVals := idiv_scalar meanVals (py_sum weights) in
  AddFieldToEEMSFlds r outFileName rsltName (clip (emds_and minVals meanVals)).

(** *** Operators on the stack of fields

    Both operators build the stack of the fields' arrays with
    [exec('stackedArrs = np.ma.concatenate(...)')] and go on with
    [stackedArrs.sort(...)].  The name [stackedArrs] is a local
    variable of the method, since the method deletes it further down;
    the assignment [exec] runs binds the name in a dictionary of its
    own and leaves the local variable unbound, so the line after
    [exec] raises [UnboundLocalError] and nothing below it runs. *)

(** The arrays of the named fields, in the order of the names. *)
Fixpoint field_arrays (r : runner) (inFieldNames : list string) : result (list marray) :=
  match inFieldNames with
  | [] => OK []
  | nm :: inFieldNames' =>
      d <- fld_data r nm ;;
      ds <- field_arrays r inFieldNames' ;;
      OK (d :: ds)
  end.

(** The statement put together for [exec] names one field per entry of
    [inFieldNames]; with no entry at all it names the field of the empty
    name. *)
Definition stacked (r : runner) (inFieldNames : list string) : result (list marray) :=
  match inFieldNames with
  | [] => field_arrays r [EmptyString]
  | _ => field_arrays r inFieldNames
  end.

(** [np.ma.concatenate] wants arrays of one shape. *)
Definition same_shapes (arrs : list marray) : bool :=
  match arrs with
  | [] => true
  | a :: rest => forallb (fun d => shape_eqb (shape d) (shape a)) rest
  end.

(** What running the statement does: it looks the fields up and
    concatenates them; the array it makes is dropped with the
    dictionary [exec] worked in. *)
Definition exec_stack (r : runner) (inFieldNames : list string) : result unit :=
  arrs <- stacked r inFieldNames ;;
  if same_shapes arrs then OK tt
  else
    Raise (ValueError
      "all the input array dimensions except for the concatenation axis must match exactly").

(** [stackedArrs.sort(axis=0, kind='heapsort')] *)
Definition use_stackedArrs {A : Type} : result A :=
  Raise (UnboundLocalError "stackedArrs").

Definition FuzzySelectedUnion (r : runner) (inFieldNames : list string)
    (truestOrFalsest : string) (numberToConsider : Z)
    (outFileName rsltName : string) : result runner :=
  verify_all r inFieldNames ;;;
  if (List.length inFieldNames =? 1)%nat then
    first <- index inFieldNames 0 ;;
    CopyField r first outFileName rsltName
  else
    exec_stack r inFieldNames ;;;
    use_stackedArrs.

Definition FuzzyXOr (r : runner) (inFieldNames : list string)
    (outFileName rsltName : string) : result runner :=
  if (List.length inFieldNames <? 2)%nat then
    first <- index inFieldNames 0 ;;
    Raise (Exception
      (banner ++
       "FuzzyXOr takes a minimum of 2 inFieldNames." ++ NL ++
       "  rsltName: *" ++ rsltName ++ "*, inFieldNames: *" ++ first ++ "*" ++ NL))
  else
    verify_all r inFieldNames ;;;
    exec_stack r inFieldNames ;;;
    use_stackedArrs.

(** *** Score range and mean to mid *)

(** [(data - lo) / (hi - lo)] and [(hi - data) / (hi - lo)]: the
    quotient of an array by a numpy scalar. *)
Definition ScoreRangeBenefit (r : runner) (inFieldName outFileName rsltName : string)
  : result runner :=
  d <- fld_data r inFieldName ;;
  minValue <- amin d ;;
  d <- fld_data r inFieldName ;;
  maxValue <- amax d ;;
  d <- fld_data r inFieldName ;;
  let newData :=
    mkArr (shape d) false
      (map (fun x => cdiv (csub x minValue) (csub maxValue minValue)) (cells d)) in
  AddFieldToEEMSFlds r outFileName rsltName newData.

Definition ScoreRangeCost (r : runner) (inFieldName outFileName rsltName : string)
  : result runner :=
  d <- fld_data r inFieldName ;;
  minValue <- amin d ;;
  d <- fld_data r inFieldName ;;
  maxValue <- amax d ;;
  d <- fld_data r inFieldName ;;
  let newData :=
    mkArr (shape d) false
      (map (fun x => cdiv (csub maxValue x) (csub maxValue minValue)) (cells d)) in
  AddFieldToEEMSFlds r outFileName rsltName newData.

(** The names bound at the top of the module: the two imports and the
    classes.  [cp] is not among them, and is no builtin either. *)
Definition module_globals : list string :=
  ["re"; "np"; "EEMSCmd"; "EEMSProgram"; "EEMSCmdRunnerBase"; "EEMSInterpreter"; "EEMSUtils"].

Definition global_name (name : string) : result unit :=
  if mem name module_globals then OK tt else Raise (NameError name).

(** A one-dimensional selection of cells, with the kind of mask of the
    array it is taken from. *)
Definition selection : Type := (bool * list cell)%type.

(** [arr[cond]] for the cells a comparison with a number holds for.
    Whether a masked cell is selected is decided by the value numpy
    keeps under the mask; the model takes it to be selected.  A
    masked cell adds nothing to the statistics below. *)
Definition select (f : float -> float -> bool) (valArr : selection) (bound : float)
  : selection :=
  (fst valArr,
   filter (fun c => match c with Some x => f x bound | None => true end) (snd valArr)).

Section Mean.

(** The sum numpy makes of a sequence of floats.  The order in which
    numpy adds is its own matter; the model takes the sum as given. *)
Variable np_sum : list float -> float.

(** [arr.mean()].  With the constant [nomask] for a mask it is the mean
    of the plain array, not a number when the array is empty; with an
    array for a mask it is the sum over the count of the unmasked
    cells, and the masked constant when there is none. *)
Definition ma_mean (a : selection) : cell :=
  let '(nm, l) := a in
  if nm then
    match l with
    | [] => Some F64.nan
    | _ => Some (F64.div (np_sum (map (filled F64.zero) l)) (len_F l))
    end
  else
    match filter is_unmasked l with
    | [] => None
    | vals =>
        Some (F64.div (F64.mul (np_sum (map (filled F64.zero) l)) F64.one) (len_F vals))
    end.

(** [if isinstance(v, np.ndarray): v = v[0]]: the masked constant is an
    array without dimension, and has no item 0. *)
Definition as_float (c : cell) : result float :=
  match c with
  | Some x => OK x
  | None =>
      Raise (IndexError
        "too many indices for array: array is 0-dimensional, but 1 were indexed")
  end.

Definition MeanToMid (r : runner) (inFieldName : string) (ignoreZeros : bool)
    (fuzzyValues : list float) (outFileName rsltName : string) : result runner :=
  valArr <-
    (if ignoreZeros then
       d <- fld_data r inFieldName ;;
       (* data[data != 0]: on a masked cell the comparison holds *)
       OK (select F64.neb (nomask d, cells d) F64.zero)
     else
       (* cp.deepcopy(...): the name cp is looked up first *)
       global_name "cp" ;;;
       d <- fld_data r inFieldName ;;
       OK (nomask d, cells d)) ;;
  meanVal <- as_float (ma_mean valArr) ;;
  lowVal <- reduce "minimum" np_minimum F64.pinf (snd valArr) ;;
  lowVal <- as_float lowVal ;;
  lowMeanVal <- as_float (ma_mean (select F64.ltb valArr meanVal)) ;;
  hiVal <- reduce "maximum" np_maximum F64.ninf (snd valArr) ;;
  hiVal <- as_float hiVal ;;
  hiMeanVal <- as_float (ma_mean (select (fun x y => F64.ltb y x) valArr meanVal)) ;;
  CvtToFuzzyCurveCells true r inFieldName
    [lowVal; lowMeanVal; meanVal; hiMeanVal; hiVal]
    fuzzyValues outFileName rsltName.

End Mean.

Definition CallExtern {A : Type} : result A :=
  Raise (Exception (banner ++ "CALLEXTERN is not implemented!" ++ NL)).

(** The methods an object of the class has, as the class spells them. *)
Definition runner_methods : list string :=
  ["__init__"; "__enter__"; "__exit__"; "_WriteFldsToFiles"; "_CreateOutFileMap"; "_AddFieldToEEMSFlds";
   "_VerifyFuzzyField"; "_LinearCvtArray"; "Read"; "ReadMulti"; "CvtToFuzzy";
   "CvtToFuzzyCurve"; "CvtToFuzzyCat"; "CopyField"; "DifFlds"; "MinFlds";
   "MaxFlds"; "SumFlds"; "MeanFlds"; "FuzzyNot"; "FuzzyUnion"; "FuzzyOr";
   "FuzzyAnd"; "FuzzyEMDSAnd"; "FuzzyOrNeg"; "FuzzyWeightedUnion";
   "FuzzyEMDSWeighteddAnd"; "WeightedMean"; "WeightedSum";
   "FuzzySelectedUnion"; "FuzzyXOr"; "ScoreRangeBenefit"; "ScoreRangeCost";
   "MeanToMid"; "CallExtern"; "Finish"].

(** [self.myCmdRunner.<name>] *)
Definition method (name : string) : result unit :=
  if mem name runner_methods then OK tt else Raise (AttributeError name).

End Runner.

(** ** class EEMSInterpreter *)

Module Interp.
Import PyStr PyRe PyDict Cmd Prog Runner.
Local Open Scope string_scope.

(** The arguments handed to the runner are what [GetParam] gave, or
    what an override or a default put in their place; the runner's
    operators use them as values of the kind the command description
    names, and a value of another kind is a [TypeError]. *)
Definition wrong_kind {A : Type} : result A :=
  Raise (TypeError "argument of the wrong kind").

Definition arg_str (v : pyval) : result string :=
  match v with VStr s => OK s | _ => wrong_kind end.
Definition arg_float (v : pyval) : result F64.float :=
  match v with
  | VFloat x => OK x
  | VInt z => OK (F64.of_Z z)
  | _ => wrong_kind
  end.
Definition arg_int (v : pyval) : result Z :=
  match v with VInt z => OK z | _ => wrong_kind end.
Definition arg_bool (v : pyval) : result bool :=
  match v with VBool b => OK b | _ => wrong_kind end.
Definition arg_strs (v : pyval) : result (list string) :=
  match v with VStrList l => OK l | _ => wrong_kind end.
Definition arg_floats (v : pyval) : result (list F64.float) :=
  match v with
  | VFloatList l => OK l
  | VIntList l => OK (map F64.of_Z l)
  | _ => wrong_kind
  end.

Section RunProgram.

(** The two methods a concrete runner overrides: the reading of fields
    from a file, called with four arguments, and the final flush. *)
Variable ReadMulti : runner -> pyval -> pyval -> pyval -> pyval -> result runner.
Variable Finish : runner -> result runner.

Variable dfltOptnlParamVals : dict pyval.
Variable paramOverrideVals : dict pyval.

(** The sum numpy makes of a sequence of floats (see [ma_mean]). *)
Variable np_sum : list F64.float -> F64.float.

(** The parameters the command is run with. *)
Definition optional_params (c : EEMSCmd) : result (dict pyval) :=
  for_each (GetOptionalParamNames c)
    (fun paramNm cmdParams =>
       if HasParam c paramNm then
         v <- GetParam c paramNm ;; OK (set cmdParams paramNm v)
       else
         match get dfltOptnlParamVals paramNm with
         | Some v => OK (set cmdParams paramNm v)
         | None => OK (set cmdParams paramNm (VStr "NONE"))
         end) [].

Definition all_params (c : EEMSCmd) : result (dict pyval) :=
  cmdParams <- optional_params c ;;
  for_each (GetParamNames c)
    (fun paramNm cmdParams =>
       match get paramOverrideVals paramNm with
       | Some v => OK (set cmdParams paramNm v)
       | None => v <- GetParam c paramNm ;; OK (set cmdParams paramNm v)
       end) cmdParams.

(** One turn of the work loop: the dispatch on the command name.  In a
    call the method is looked up on the runner before the arguments are
    evaluated. *)
Definition run_cmd (c : EEMSCmd) (r : runner) : result runner :=
  let cmdNm := GetCommandName c in
  cmdParams <- all_params c ;;
  let P := fun k => item cmdParams k in
  let isCmd := String.eqb cmdNm in
  if isCmd "READ" then
    method "Read" ;;;
    a1 <- P "InFileName" ;; a2 <- P "InFieldName" ;;
    a3 <- P "OutFileName" ;; a4 <- P "NewFieldName" ;;
    (* Read passes the single field name on as a list *)
    let newFieldName :=
      match a4 with
      | VStr "NONE" => a4
      | VStr s => VStrList [s]
      | _ => a4
      end in
    let inFieldNames := match a2 with VStr s => VStrList [s] | _ => a2 end in
    ReadMulti r a1 inFieldNames a3 newFieldName
  else if isCmd "READMULTI" then
    method "ReadMulti" ;;;
    a1 <- P "InFileName" ;; a2 <- P "InFieldNames" ;;
    a3 <- P "OutFileName" ;; a4 <- P "NewFieldNames" ;;
    ReadMulti r a1 a2 a3 a4
  else if isCmd "CVTTOFUZZY" then
    method "CvtToFuzzy" ;;;
    a1 <- P "InFieldName" ;; a2 <- P "TrueThreshold" ;;
    a3 <- P "FalseThreshold" ;; a4 <- P "OutFileName" ;;
    rsltNm <- GetResultName c ;;
    inFld <- arg_str a1 ;; t <- arg_float a2 ;; f <- arg_float a3 ;; out <- arg_str a4 ;;
    CvtToFuzzy r inFld t f out rsltNm
  else if isCmd "CVTTOFUZZYCURVE" then
    method "CvtToFuzzyCurve" ;;;
    a1 <- P "InFieldName" ;; a2 <- P "RawValues" ;;
    a3 <- P "FuzzyValues" ;; a4 <- P "OutFileName" ;;
    rsltNm <- GetResultName c ;;
    inFld <- arg_str a1 ;; raw <- arg_floats a2 ;; fuz <- arg_floats a3 ;; out <- arg_str a4 ;;
    CvtToFuzzyCurve r inFld raw fuz out rsltNm
  else if isCmd "CVTTOFUZZYCAT" then
    method "CvtToFuzzyCat" ;;;
    a1 <- P "InFieldName" ;; a2 <- P "RawValues" ;; a3 <- P "FuzzyValues" ;;
    a4 <- P "DefaultFuzzyValue" ;; a5 <- P "OutFileName" ;;
    rsltNm <- GetResultName c ;;
    inFld <- arg_str a1 ;; raw <- arg_floats a2 ;; fuz <- arg_floats a3 ;;
    dflt <- arg_float a4 ;; out <- arg_str a5 ;;
    CvtToFuzzyCat r inFld raw fuz dflt out rsltNm
  else if isCmd "MEANTOMID" then
    method "MeanToMid" ;;;
    a1 <- P "InFieldName" ;; a2 <- P "IgnoreZeros" ;;
    a3 <- P "FuzzyValues" ;; a4 <- P "OutFileName" ;;
    rsltNm <- GetResultName c ;;
    inFld <- arg_str a1 ;; iz <- arg_bool a2 ;; fuz <- arg_floats a3 ;; out <- arg_str a4 ;;
    MeanToMid np_sum r inFld iz fuz out rsltNm
  else if isCmd "COPYFIELD" then
    method "CopyField" ;;;
    a1 <- P "InFieldName" ;; a2 <- P "OutFileName" ;;
    rsltNm <- GetResultName c ;;
    inFld <- arg_str a1 ;; out <- arg_str a2 ;;
    CopyField r inFld out rsltNm
  else if isCmd "NOT" then
    method "FuzzyNot" ;;;
    a1 <- P "InFieldName" ;; a2 <- P "OutFileName" ;;
    rsltNm <- GetResultName c ;;
    inFld <- arg_str a1 ;; out <- arg_str a2 ;;
    FuzzyNot r inFld out rsltNm
  else if mem cmdNm ["OR"; "AND"; "EMDSAND"; "ORNEG"; "XOR"; "SUM"; "MIN"; "MAX";
                     "MEAN"; "UNION"] then
    let '(name, op) :=
      if isCmd "OR" then ("FuzzyOr", FuzzyOr)
      else if isCmd "AND" then ("FuzzyAnd", FuzzyAnd)
      else if isCmd "EMDSAND" then ("FuzzyEMDSAnd", FuzzyEMDSAnd)
      else if isCmd "ORNEG" then ("FuzzyOrNeg", FuzzyOrNeg)
      else if isCmd "XOR" then ("FuzzyXOr", FuzzyXOr)
      else if isCmd "SUM" then ("SumFlds", SumFlds)
      else if isCmd "MIN" then ("MinFlds", MinFlds)
      else if isCmd "MAX" then ("MaxFlds", MaxFlds)
      else if isCmd "MEAN" then ("MeanFlds", MeanFlds)
      else ("FuzzyUnion", FuzzyUnion) in
    method name ;;;
    a1 <- P "InFieldNames" ;; a2 <- P "OutFileName" ;;
    rsltNm <- GetResultName c ;;
    inFlds <- arg_strs a1 ;; out <- arg_str a2 ;;
    op r inFlds out rsltNm
  else if isCmd "DIF" then
    method "DifFlds" ;;;
    a1 <- P "StartingFieldName" ;; a2 <- P "ToSubtractFieldName" ;; a3 <- P "OutFileName" ;;
    rsltNm <- GetResultName c ;;
    s1 <- arg_str a1 ;; s2 <- arg_str a2 ;; out <- arg_str a3 ;;
    DifFlds r s1 s2 out rsltNm
  else if isCmd "SELECTEDUNION" then
    method "FuzzySelectedUnion" ;;;
    a1 <- P "InFieldNames" ;; a2 <- P "TruestOrFalsest" ;;
    a3 <- P "NumberToConsider" ;; a4 <- P "OutFileName" ;;
    rsltNm <- GetResultName c ;;
    inFlds <- arg_strs a1 ;; tf <- arg_str a2 ;; n <- arg_int a3 ;; out <- arg_str a4 ;;
    FuzzySelectedUnion r inFlds tf n out rsltNm
  else if mem cmdNm ["WTDUNION"; "WTDEMDSAND"; "WTDMEAN"; "WTDSUM"] then
    let '(name, op) :=
      if isCmd "WTDUNION" then ("FuzzyWeightedUnion", FuzzyWeightedUnion)
      else if isCmd "WTDEMDSAND" then ("FuzzyEMDSWeightedAnd", FuzzyEMDSWeighteddAnd)
      else if isCmd "WTDMEAN" then ("WeightedMean", WeightedMean)
      else ("WeightedSum", WeightedSum) in
    method name ;;;
    a1 <- P "InFieldNames" ;; a2 <- P "Weights" ;; a3 <- P "OutFileName" ;;
    rsltNm <- GetResultName c ;;
    inFlds <- arg_strs a1 ;; wts <- arg_floats a2 ;; out <- arg_str a3 ;;
    op r inFlds wts out rsltNm
  else if isCmd "CALLEXTERN" then
    method "CallExtern" ;;;
    rsltNm <- GetResultName c ;;
    (* CallExtern takes no argument and is called with one *)
    Raise (TypeError "CallExtern() takes 1 positional argument but 2 were given")
  else if isCmd "SCORERANGEBENEFIT" then
    method "ScoreRangeBenefit" ;;;
    a1 <- P "InFieldName" ;; a2 <- P "OutFileName" ;;
    rsltNm <- GetResultName c ;;
    inFld <- arg_str a1 ;; out <- arg_str a2 ;;
    ScoreRangeBenefit r inFld out rsltNm
  else if isCmd "SCORERANGECOST" then
    method "ScoreRangeCost" ;;;
    a1 <- P "InFieldName" ;; a2 <- P "OutFileName" ;;
    rsltNm <- GetResultName c ;;
    inFld <- arg_str a1 ;; out <- arg_str a2 ;;
    ScoreRangeCost r inFld out rsltNm
  else
    Raise (Exception
      ("ERROR: Unable to interpret command:" ++ NL ++ "  " ++ GetCommandString c)).

(** [RunProgram]: the commands in execution order, from the first one,
    then [Finish]. *)
Definition RunProgram (p : EEMSProgram) (r : runner) : result runner :=
  match progOrderedCmds p with
  | [] => Raise (IndexError "list index out of range")
  | cmds => r' <- for_each cmds run_cmd r ;; Finish r'
  end.

End RunProgram.

End Interp.

(** * Further parts of the package

    - [Nav]: the cursor of [EEMSProgram] ([NextCmd], [PrevCmd],
      [GetCrntCmd] and the methods that go through it) and the work
      loop of [RunProgram] as the code writes it, a loop on the cursor;
    - [Tree]: [GetCmdTree] with [__ParseDict];
    - [Util]: [_LinearCvtArray] and [_CreateOutFileMap] of the runner.

    A loop or a recursion whose end the code does not make plain takes
    fuel and gives [None] when the fuel runs out before the end. *)

Module Nav.
Import PyStr PyDict Cmd Prog Runner Interp.
Local Open Scope string_scope.

Definition set_cursor (p : EEMSProgram) (ndx : option Z) : EEMSProgram :=
  mkProgram (progOrderedCmds p) (progDefinedFieldNms p) ndx.

(** Arithmetic on a cursor that is [None]. *)
Definition no_cursor {A : Type} (op : string) : result A :=
  Raise (TypeError
    ("unsupported operand type(s) for " ++ op ++ ": 'NoneType' and 'int'")).

(** [NextCmd] *)
Definition NextCmd (p : EEMSProgram) : result (EEMSProgram * bool) :=
  match crntCmdNdx p with
  | None => no_cursor "+="
  | Some ndx =>
      let ndx := (ndx + 1)%Z in
      if (Z.of_nat (List.length (progOrderedCmds p)) <=? ndx)%Z
      then OK (set_cursor p None, false)
      else OK (set_cursor p (Some ndx), true)
  end.

(** [PrevCmd] *)
Definition PrevCmd (p : EEMSProgram) : result (EEMSProgram * bool) :=
  match crntCmdNdx p with
  | None => no_cursor "-="
  | Some ndx =>
      let ndx := (ndx - 1)%Z in
      if (ndx <? 0)%Z
      then OK (set_cursor p None, false)
      else OK (set_cursor p (Some ndx), true)
  end.

(** [self.orderedCmds[self.crntCmdNdx]]: a negative index counts from
    the end of the list. *)
Definition GetCrntCmd (p : EEMSProgram) : result EEMSCmd :=
  match crntCmdNdx p with
  | None => Raise (TypeError "list indices must be integers or slices, not NoneType")
  | Some ndx =>
      let n := Z.of_nat (List.length (progOrderedCmds p)) in
      let j := if (ndx <? 0)%Z then (ndx + n)%Z else ndx in
      if (j <? 0)%Z || (n <=? j)%Z then Raise (IndexError "list index out of range")
      else index (progOrderedCmds p) (Z.to_nat j)
  end.

(** [SetCrntCmdToFirst] *)
Definition SetCrntCmdToFirst (p : EEMSProgram) : EEMSProgram := set_cursor p (Some 0%Z).

Definition GetCrntCmdName (p : EEMSProgram) : result string :=
  c <- GetCrntCmd p ;; OK (GetCommandName c).

Definition GetCrntCmdString (p : EEMSProgram) : result string :=
  c <- GetCrntCmd p ;; OK (GetCommandString c).

Definition GetCrntResultName (p : EEMSProgram) : result string :=
  c <- GetCrntCmd p ;; GetResultName c.

Definition CrntHasParam (p : EEMSProgram) (paramNm : string) : result bool :=
  c <- GetCrntCmd p ;; OK (HasParam c paramNm).

Definition GetParamFromCrntCmd (p : EEMSProgram) (paramNm : string) : result pyval :=
  c <- GetCrntCmd p ;; GetParam c paramNm.

Section WorkLoop.

Variable ReadMulti : runner -> pyval -> pyval -> pyval -> pyval -> result runner.
Variable Finish : runner -> result runner.
Variable dfltOptnlParamVals : dict pyval.
Variable paramOverrideVals : dict pyval.
Variable np_sum : list F64.float -> F64.float.

(** [while True: ...; if not self.myProg.NextCmd(): break].  Every turn
    reads the command under the cursor, which does not move before the
    call of [NextCmd] that ends the turn. *)
Fixpoint work_loop (fuel : nat) (p : EEMSProgram) (r : runner)
  : option (result (EEMSProgram * runner)) :=
  match fuel with
  | O => None
  | S fuel' =>
      match (c <- GetCrntCmd p ;;
             run_cmd ReadMulti dfltOptnlParamVals paramOverrideVals np_sum c r) with
      | Raise e => Some (Raise e)
      | OK r' =>
          match NextCmd p with
          | Raise e => Some (Raise e)
          | OK (p', true) => work_loop fuel' p' r'
          | OK (p', false) => Some (OK (p', r'))
          end
      end
  end.

(** [RunProgram], on the program and the runner of the interpreter. *)
Definition RunProgram_loop (fuel : nat) (p : EEMSProgram) (r : runner)
  : option (result (EEMSProgram * runner)) :=
  match work_loop fuel p r with
  | None => None
  | Some (Raise e) => Some (Raise e)
  | Some (OK (p', r')) => Some (r'' <- Finish r' ;; OK (p', r''))
  end.

End WorkLoop.

End Nav.

Module Tree.
Import PyStr PyDict Cmd Prog.
Local Open Scope string_scope.

(** [__ParseDict]: the node, then the trees of the fields its command
    depends on, one level down. *)
Fixpoint ParseDict (fuel : nat) (defs : dict EEMSCmd) (nodeFld : string)
    (treeImage : list (string * nat)) (lvl : nat)
  : option (result (list (string * nat))) :=
  match fuel with
  | O => None
  | S fuel' =>
      let treeImage := (treeImage ++ [(nodeFld, lvl)])%list in
      let lvl := S lvl in
      match item defs nodeFld with
      | Raise e => Some (Raise e)
      | OK c =>
          if negb (IsReadCmd c) then
            match GetDependFieldNms c with
            | Raise e => Some (Raise e)
            | OK deps =>
                fold_left
                  (fun acc subFld =>
                     match acc with
                     | Some (OK t) => ParseDict fuel' defs subFld t lvl
                     | _ => acc
                     end)
                  deps (Some (OK treeImage))
            end
          else Some (OK treeImage)
      end
  end.

(** The first loop of [GetCmdTree]: the fields some command depends on. *)
Definition all_depends (cmds : list EEMSCmd) : result (list string) :=
  for_each cmds
    (fun c depends =>
       if negb (IsReadCmd c) then
         deps <- GetDependFieldNms c ;; OK (depends ++ deps)%list
       else OK depends) [].

(** The second loop: the results no command depends on. *)
Definition top_nodes (cmds : list EEMSCmd) (depends : list string) : result (list string) :=
  for_each cmds
    (fun c topNodeFlds =>
       if negb (IsReadCmd c) then
         rsltNm <- GetResultName c ;;
         if negb (mem rsltNm depends) then OK (topNodeFlds ++ [rsltNm])%list
         else OK topNodeFlds
       else OK topNodeFlds) [].

(** [GetCmdTree] *)
Definition GetCmdTree (fuel : nat) (p : EEMSProgram)
  : option (result (list (string * nat))) :=
  match all_depends (progOrderedCmds p) with
  | Raise e => Some (Raise e)
  | OK depends =>
      match top_nodes (progOrderedCmds p) depends with
      | Raise e => Some (Raise e)
      | OK topNodeFlds =>
          fold_left
            (fun acc topNodeFld =>
               match acc with
               | Some (OK t) => ParseDict fuel (progDefinedFieldNms p) topNodeFld t 0
               | _ => acc
               end)
            topNodeFlds (Some (OK []))
      end
  end.

End Tree.

Module Util.
Import PyStr PyDict Cmd Runner.
Local Open Scope string_scope.

(** [list.sort()] on strings: the order of the characters' codes. *)
Fixpoint insert_str (s : string) (l : list string) : list string :=
  match l with
  | [] => [s]
  | x :: l' => if String.leb s x then s :: l else x :: insert_str s l'
  end.

Definition sort_str (l : list string) : list string := fold_right insert_str [] l.

(** [_CreateOutFileMap]: the names of the fields of every output file,
    the names in sorted order. *)
Definition CreateOutFileMap (r : runner) : result (dict (list string)) :=
  for_each (sort_str (keys (EEMSFlds r)))
    (fun EEMSFldNm outFileMap =>
       f <- item (EEMSFlds r) EEMSFldNm ;;
       let crntOutFNm := outFNm f in
       if mem crntOutFNm (keys outFileMap) then
         l <- item outFileMap crntOutFNm ;;
         OK (set outFileMap crntOutFNm (l ++ [EEMSFldNm])%list)
       else OK (set outFileMap crntOutFNm [EEMSFldNm])) [].

End Util.

(** * What the specification says, and examples to run

    The definitions of this part follow the words of the specification
    or fix concrete inputs; the program itself is embedded above. *)

Module Spec.
Import PyStr PyDict Cmd Prog Runner.
Local Open Scope string_scope.

(** A one-dimensional field array with the given cells, its mask an
    array, as for a field a reader has added. *)
Definition arr (l : list cell) : marray := mkArr [List.length l] false l.

(** A registry with the given fields, all of [n] cells. *)
Definition registry (n : nat) (flds : list (string * list cell)) : runner :=
  mkRunner (map (fun f => (fst f, mkField "NONE" (arr (snd f)))) flds) (Some [n]).

(** The cells of a field of a registry. *)
Definition cells_of (r : runner) (name : string) : option (list cell) :=
  match get (EEMSFlds r) name with
  | Some f => Some (cells (data f))
  | None => None
  end.

(** The float of an integer, and of a decimal numeral: [lit n k] is the
    float nearest to n / 10^k. *)
Definition num (z : Z) : cell := Some (F64.of_Z z).
Definition lit (n : Z) (k : nat) : cell := Some (F64.dec n k).

(** A float in the closed interval from -1 to 1. *)
Definition in_fuzzy_range (x : float) : bool :=
  F64.leb F64.minus_one x && F64.leb x F64.one.

(** A cell that is masked, or not a number, or lies in the fuzzy
    range. *)
Definition fuzzy_cell (c : cell) : Prop :=
  match c with
  | Some x => F64.is_nan x = true \/ in_fuzzy_range x = true
  | None => True
  end.

(** A cell that is masked or lies in the fuzzy range. *)
Definition strict_fuzzy_cell (c : cell) : Prop :=
  match c with
  | Some x => in_fuzzy_range x = true
  | None => True
  end.

(** A cell that holds a value that is not a number. *)
Definition nan_cell (c : cell) : bool :=
  match c with Some x => F64.is_nan x | None => false end.

(** A cell that is masked or holds a float of the format. *)
Definition valid_cell (c : cell) : Prop :=
  match c with Some x => F64.valid x = true | None => True end.

(** An array with no cell that is not a number. *)
Definition nan_free (d : marray) : Prop := forallb (fun c => negb (nan_cell c)) (cells d) = true.

(** An array whose unmasked cells are all in the fuzzy range. *)
Definition fuzzy_array (d : marray) : Prop := Forall strict_fuzzy_cell (cells d).

(** The straight line through the points (x1, y1) and (x2, y2), at [x],
    over the rationals. *)
Definition line_through (x1 y1 x2 y2 x : Q) : Q :=
  (y1 + (x - x1) * (y2 - y1) / (x2 - x1))%Q.

(** The expression [CvtToFuzzy] evaluates for a cell [x] and the
    thresholds [f] (false) and [t] (true), over any arithmetic:
    [x * m + b] with [m = (-1 - 1) / (f - t)] and [b = 1 - m * t]. *)
Definition cvt_expr {A : Type} (add sub mul div : A -> A -> A) (minus_two one : A)
    (f t x : A) : A :=
  let m := div minus_two (sub f t) in
  let b := sub one (mul m t) in
  add (mul x m) b.

(** The expression in double precision, every operation rounded. *)
Definition cvt_float : float -> float -> float -> float :=
  cvt_expr F64.add F64.sub F64.mul F64.div (F64.of_Z (-2)) F64.one.

(** The expression over the rationals. *)
Definition cvt_exact : Q -> Q -> Q -> Q :=
  cvt_expr Qplus Qminus Qmult Qdiv (-2)%Q 1%Q.

(** What [CvtToFuzzy] makes of a cell. *)
Definition cvt_cell (f t : float) (c : cell) : cell :=
  clip_cell (match c with Some x => Some (cvt_float f t x) | None => None end).

(** The raw field of the end-to-end example. *)
Definition raw_example : runner :=
  registry 3 [("A", [num 0; num 50; num 100])].

(** A field of one cell, the value 0.2. *)
Definition rounding_example : runner := registry 1 [("A", [lit 2 1])].

(** Two fields of one cell. *)
Definition xor_example : runner :=
  registry 1 [("X", [num 1]); ("Y", [num 0])].


(** An operator that gives no result. *)
Definition no_result (res : result runner) : Prop := forall r', res <> OK r'.

(** Three fuzzy fields of four cells, one cell of the first masked. *)
Definition fuzzy_example : runner :=
  registry 4
    [("X", [num 1; lit 5 1; num (-1); None]);
     ("Y", [num 0; lit 25 2; num (-1); num 1]);
     ("Z", [lit (-5) 1; num 1; num (-1); num 0])].


(** The two statements of the cardinality examples, the weighted mean
    with and without a result name. *)
Definition wtdmean_stmt : string := "R = WTDMEAN(InFieldNames=[X,Y], Weights=[1])".
Definition wtdmean_bare_stmt : string := "WTDMEAN(InFieldNames=[X,Y], Weights=[1])".
Definition selunion_stmt : string :=
  "R = SELECTEDUNION(InFieldNames=[X,Y], NumberToConsider=3, TruestOrFalsest=Truest)".

(** The description of a command of the catalog. *)
Definition desc_of (cmdNm : string) : cmdDescT :=
  match find (fun d => String.eqb (Name d) cmdNm) cmdDescTable with
  | Some d => d
  | None => mkDesc "" None [] [] "" "" "" ""
  end.

(** The sum of a sequence of floats from the left, which is how numpy
    adds up fewer than eight of them. *)
Definition sum_in_order (l : list float) : float := fold_left F64.add l F64.zero.

(** The fuzzy values of the mean to mid example: -1, -0.5, 0, 0.5, 1. *)
Definition five_fuzzy_values : list float :=
  [F64.of_Z (-1); F64.dec (-5) 1; F64.of_Z 0; F64.dec 5 1; F64.of_Z 1].

Definition mean_to_mid_registry : runner :=
  registry 5 [("A", [num 1; num 2; num 9; num 10; num 0])].

(** A run of mean to mid that ignores the zeros. *)
Definition mean_to_mid_example : result runner :=
  MeanToMid sum_in_order mean_to_mid_registry "A" true five_fuzzy_values "NONE" "R".

(** The command a statement stands for, for statements that are valid. *)
Definition cmd_of (stmt : string) : EEMSCmd :=
  match EEMSCmd_init stmt with
  | OK c => c
  | Raise _ => mkCmd stmt (mkParsed None "" []) (mkDesc "" None [] [] "" "" "" "")
  end.

(** An I/O collaborator that reads nothing and has nothing to flush. *)
Definition no_read (r : runner) (_ _ _ _ : pyval) : result runner := OK r.

(** A reader for the examples: it adds the named columns of a table
    to the registry, under the output file it is given. *)
Definition table_reader (tbl : dict (list cell)) (r : runner)
    (inFileName inFieldNames outFileName newFieldNames : pyval) : result runner :=
  match inFieldNames, outFileName with
  | VStrList names, VStr out =>
      for_each names
        (fun nm r' => l <- item tbl nm ;; AddFieldToEEMSFlds r' out nm (arr l)) r
  | _, _ => Raise (TypeError "argument of the wrong kind")
  end.

(** The file of the end-to-end example: one column of three values. *)
Definition raw_table : dict (list cell) := [("A", [num 0; num 50; num 100])].

(** The order of the floats that are numbers: the key of a float is a
    triple of integers, and floats compare as their keys do, the first
    components first. *)
Definition key (x : float) : Z * Z * Z :=
  match x with
  | S754_infinity true => (-2, 0, 0)%Z
  | S754_finite true m e => (-1, - e, Zneg m)%Z
  | S754_zero _ | S754_nan => (0, 0, 0)%Z
  | S754_finite false m e => (1, e, Zpos m)%Z
  | S754_infinity false => (2, 0, 0)%Z
  end.

Definition key_lt (a b : Z * Z * Z) : Prop :=
  let '(a1, a2, a3) := a in
  let '(b1, b2, b3) := b in
  (a1 < b1 \/ (a1 = b1 /\ (a2 < b2 \/ (a2 = b2 /\ a3 < b3))))%Z.

Definition key_le (a b : Z * Z * Z) : Prop := key_lt a b \/ a = b.

End Spec.

(** * The scheduler, restated for the proofs

    [sweep_rec] is the sweep of [__OrderCmds] by recursion on the list of
    commands, last command first; [sweep_rec_eq] below shows it is what
    the loop over the indices computes.  The other definitions name what
    the theorems speak of. *)

Module Sched.
Import PyStr PyDict Cmd Prog.
Local Open Scope string_scope.

(** What the sweep does with one command: [Some] of the new ordered list
    and the new list of defined names when the command is moved. *)
Definition try_order (c : EEMSCmd) (ord : list EEMSCmd) (dp : list string)
  : result (option (list EEMSCmd * list string)) :=
  if IsReadCmd c then
    names <- GetReadFieldNms c ;;
    OK (Some ((ord ++ [c])%list, (dp ++ names)%list))
  else
    deps <- GetDependFieldNms c ;;
    if forallb (fun dependFldNm => mem dependFldNm dp) deps then
      rsltNm <- GetResultName c ;;
      OK (Some ((ord ++ [c])%list, (dp ++ [rsltNm])%list))
    else OK None.

Fixpoint sweep_rec (l : list EEMSCmd) (ord : list EEMSCmd) (dp : list string)
  : result orderSt :=
  match l with
  | [] => OK (mkOrderSt [] ord dp)
  | c :: tl =>
      st <- sweep_rec tl ord dp ;;
      o <- try_order c (orderedCmds st) (dpndsInOrderedCmds st) ;;
      match o with
      | Some (ord', dp') => OK (mkOrderSt (toOrder st) ord' dp')
      | None => OK (mkOrderSt (c :: toOrder st) (orderedCmds st) (dpndsInOrderedCmds st))
      end
  end.

(** A state with one more command at the front of the list to order. *)
Definition prep (c : EEMSCmd) (st : orderSt) : orderSt :=
  mkOrderSt (c :: toOrder st) (orderedCmds st) (dpndsInOrderedCmds st).

(** The names a command registers in [allDefinedFieldNms], as [__AddCmd]
    finds them. *)
Definition registered_names (c : EEMSCmd) : result (list string) :=
  if HasResultName c then rsltNm <- GetResultName c ;; OK [rsltNm]
  else if IsReadCmd c then GetReadFieldNms c
  else OK [].

Definition names_of (c : EEMSCmd) : list string :=
  match registered_names c with
  | OK names => names
  | Raise _ => []
  end.

(** The command defines the field; the command references the field. *)
Definition defines (c : EEMSCmd) (f : string) : Prop := In f (names_of c).

Definition references (c : EEMSCmd) (f : string) : Prop :=
  exists deps, GetDependFieldNms c = OK deps /\ In f deps.


(** The reading and checking of a command a statement stands for. *)
Definition constructed (c : EEMSCmd) : Prop :=
  exists stmt, EEMSCmd_init stmt = OK c.

(** The command is eligible: the names it depends on are all among [dp],
    the names the ordered commands define.  A read command depends on no
    name. *)
Definition eligible (c : EEMSCmd) (dp : list string) : Prop :=
  exists deps, GetDependFieldNms c = OK deps /\ Forall (fun f => In f dp) deps.

(** The ordered list and the names of the sweep are closed: every name
    is defined by an ordered command, and every name an ordered command
    references is defined by a command before it. *)
Definition closed (ord : list EEMSCmd) (dp : list string) : Prop :=
  (forall f, In f dp -> exists i c1, nth_error ord i = Some c1 /\ defines c1 f)
  /\ (forall j c2 f, nth_error ord j = Some c2 -> references c2 f ->
        exists i c1, (i < j)%nat /\ nth_error ord i = Some c1 /\ defines c1 f).

(** What the table of command descriptions gives the scheduler: a read
    command takes no result name; any other command has the parameter
    InFieldNames, a list of field names, or else InFieldName, a field
    name, or else is DIF with its two field names. *)
Definition opt_is (o : option string) (s : string) : bool :=
  match o with
  | Some t => String.eqb t s
  | None => false
  end.

Definition declares (d : cmdDescT) (paramNm : string) : bool :=
  mem paramNm (keys (RequiredParams d) ++ keys (OptionalParams d))%list.

Definition desc_ok (d : cmdDescT) : bool :=
  if mem (Name d) ["READ"; "READMULTI"] then
    match Result d with None => true | Some _ => false end
  else
    opt_is (get (RequiredParams d) "InFieldNames") "Field Name List"
    || (negb (declares d "InFieldNames") && negb (String.eqb (Name d) "CALLEXTERN")
        && opt_is (get (RequiredParams d) "InFieldName") "Field Name")
    || (negb (declares d "InFieldNames") && negb (declares d "InFieldName")
        && negb (String.eqb (Name d) "CALLEXTERN") && String.eqb (Name d) "DIF"
        && opt_is (get (RequiredParams d) "StartingFieldName") "Field Name"
        && opt_is (get (RequiredParams d) "ToSubtractFieldName") "Field Name").

(** What [read_program] keeps true of the commands it has registered. *)
Definition registered (p : progSt) : Prop :=
  Forall constructed (unorderedCmds p)
  /\ keys (allDefinedFieldNms p) = flat_map names_of (unorderedCmds p)
  /\ NoDup (keys (allDefinedFieldNms p))
  /\ (forall f c, get (allDefinedFieldNms p) f = Some c ->
        In c (unorderedCmds p) /\ defines c f).

(** The states the ordering loop goes through: from a state, sweeps that
    each move at least one command. *)
Inductive reaches : orderSt -> orderSt -> Prop :=
| reaches_here (st : orderSt) : reaches st st
| reaches_sweep (st st1 st2 : orderSt) :
    sweep st = OK st1 ->
    List.length (toOrder st1) <> List.length (toOrder st) ->
    reaches st1 st2 -> reaches st st2.

(** The state the loop of [__OrderCmds] starts from. *)
Definition start_state (p : progSt) : orderSt := mkOrderSt (unorderedCmds p) [] [].

(** [sub] occurs in [s]. *)
Definition occurs_in (sub s : string) : Prop :=
  exists pre post, s = pre ++ sub ++ post.

Definition message (e : exn) : string :=
  match e with
  | Exception msg => msg
  | KeyError k => k
  | TypeError msg => msg
  | ValueError msg => msg
  | NameError n => n
  | UnboundLocalError n => n
  | AttributeError a => a
  | IndexError msg => msg
  | ZeroDivisionError msg => msg
  end.

(** [l1] is [l2] with some elements left out, the order kept. *)
Inductive subseq {A : Type} : list A -> list A -> Prop :=
| subseq_nil : subseq [] []
| subseq_skip (x : A) (l1 l2 : list A) : subseq l1 l2 -> subseq l1 (x :: l2)
| subseq_take (x : A) (l1 l2 : list A) : subseq l1 l2 -> subseq (x :: l1) (x :: l2).

(** A line of a program file. *)
Definition ln (s : string) : string := s ++ NL.

(** The program of the cycle example, and of the two reads. *)
Definition cycle_program : list string :=
  [ln "D = OR(InFieldNames=[E])"; ln "E = OR(InFieldNames=[D])"].

Definition two_reads : list string :=
  [ln "READ(InFileName=in,InFieldName=A)"; ln "READ(InFileName=in,InFieldName=B)"].

(** A chain declared last command first. *)
Definition chain_program : list string :=
  [ln "C = NOT(InFieldName=B)";
   ln "B = CVTTOFUZZY(InFieldName=A,TrueThreshold=100,FalseThreshold=0)";
   ln "READ(InFileName=in,InFieldName=A)"].

(** A program that refers to a field no command defines. *)
Definition undefined_program : list string :=
  [ln "READ(InFileName=in,InFieldName=A)"; ln "B = NOT(InFieldName=Z)"].

(** The chain, loaded. *)
Definition chain_loaded : EEMSProgram :=
  match EEMSProgram_init "chain.eem" chain_program with
  | OK p => p
  | Raise _ => mkProgram [] [] None
  end.

End Sched.

(** * Observations on the registry of a runner *)

Module Obs.
Import PyStr PyDict Cmd Prog Runner Spec.
Local Open Scope string_scope.

(** A run that succeeds adds the field [n] at the end of the registry and
    leaves every other field as it was. *)
Definition adds_only (r : runner) (n : string) (res : result runner) : Prop :=
  forall r', res = OK r' ->
    ~ In n (keys (EEMSFlds r))
    /\ keys (EEMSFlds r') = (keys (EEMSFlds r) ++ [n])%list
    /\ (forall k, k <> n -> get (EEMSFlds r') k = get (EEMSFlds r) k).

(** One cell of the loop of [CvtToFuzzyCat]: the value [old] the cell
    has so far is replaced at every raw value the cell [c] equals. *)
Fixpoint cat_cell (rawValues fuzzyValues : list float) (c old : cell) : cell :=
  match rawValues, fuzzyValues with
  | x :: rawValues', y :: fuzzyValues' =>
      cat_cell rawValues' fuzzyValues' c (cwhere (ceq c (Some x)) (Some y) old)
  | _, _ => old
  end.

(** The number of cells of an array of the given shape. *)
Definition size (sh : list nat) : nat := fold_right Nat.mul 1%nat sh.

(** Every field of the registry has the shape of the registry and as
    many cells as the shape says. *)
Definition well_formed (r : runner) : Prop :=
  exists sh,
    arrayShape r = Some sh
    /\ forall n f, get (EEMSFlds r) n = Some f ->
         shape (data f) = sh /\ List.length (cells (data f)) = size sh.

End Obs.

(** * Observations on constructed commands *)

Module CmdObs.
Import PyStr PyDict Cmd Prog Sched.
Local Open Scope string_scope.

(** The type the description of a command gives a parameter: the one
    among the required parameters if the name is there, else the one
    among the optional parameters. *)
Definition declared_type (d : cmdDescT) (k : string) : option string :=
  if mem k (keys (RequiredParams d)) then get (RequiredParams d) k
  else if mem k (keys (OptionalParams d)) then get (OptionalParams d) k
  else None.

(** What the table gives the two read commands, and the others: READ
    has the field name InFieldName and may rename it with NewFieldName;
    READMULTI has the list InFieldNames and may rename with
    NewFieldNames; every other command has a result. *)
Definition read_desc_ok (d : cmdDescT) : bool :=
  if String.eqb (Name d) "READ" then
    opt_is (get (RequiredParams d) "InFieldName") "Field Name"
    && negb (mem "NewFieldName" (keys (RequiredParams d)))
    && opt_is (get (OptionalParams d) "NewFieldName") "Field Name"
  else if String.eqb (Name d) "READMULTI" then
    opt_is (get (RequiredParams d) "InFieldNames") "Field Name List"
    && negb (mem "NewFieldNames" (keys (RequiredParams d)))
    && opt_is (get (OptionalParams d) "NewFieldNames") "Field Name List"
  else
    match Result d with Some _ => true | None => false end.

(** No type of the table is the word [check_values] uses to skip a
    parameter. *)
Definition no_skip_type (d : cmdDescT) : bool :=
  forallb (fun kv => negb (String.eqb (snd kv) "skip"))
    (RequiredParams d ++ OptionalParams d)%list.

End CmdObs.
(** * Properties *)

(** ** General facts *)

Lemma bind_OK {A B : Type} (c : result A) (k : A -> result B) (b : B) :
  bind c k = OK b -> exists a, c = OK a /\ k a = OK b.
Proof.
  destruct c as [a|e]; simpl; intro H; [exists a; auto | discriminate].
Qed.

Ltac inv_bind H :=
  let a := fresh "v" in
  let Ha := fresh "Hv" in
  apply bind_OK in H; destruct H as [a [Ha H]].

Lemma mem_In (x : string) (l : list string) : PyStr.mem x l = true <-> In x l.
Proof.
  unfold PyStr.mem. rewrite existsb_exists. split.
  - intros [y [Hy He]]. apply String.eqb_eq in He. subst. exact Hy.
  - intro H. exists x. split; [exact H | apply String.eqb_refl].
Qed.

Lemma has_get {V : Type} (d : PyDict.dict V) (k : string) :
  PyDict.has d k = true <-> exists v, PyDict.get d k = Some v.
Proof.
  unfold PyDict.has, PyDict.keys, PyStr.mem. induction d as [|[k' v'] d IH]; simpl.
  - split; [discriminate | intros [v H]; discriminate].
  - rewrite String.eqb_sym. destruct (String.eqb k' k).
    + split; [intros _; exists v'; reflexivity | reflexivity].
    + simpl. exact IH.
Qed.

Lemma keys_set {V : Type} (d : PyDict.dict V) (k : string) (v : V) :
  PyDict.keys (PyDict.set d k v) =
  if PyDict.has d k then PyDict.keys d else (PyDict.keys d ++ [k])%list.
Proof.
  unfold PyDict.has, PyDict.keys, PyStr.mem. induction d as [|[k' v'] d IH]; simpl.
  - reflexivity.
  - rewrite (String.eqb_sym k k'). destruct (String.eqb k' k); simpl.
    + reflexivity.
    + rewrite IH. destruct (existsb (String.eqb k) (map fst d)); reflexivity.
Qed.

Lemma get_set_same {V : Type} (d : PyDict.dict V) (k : string) (v : V) :
  PyDict.get (PyDict.set d k v) k = Some v.
Proof.
  induction d as [|[k' v'] d IH]; simpl.
  - rewrite String.eqb_refl. reflexivity.
  - destruct (String.eqb k' k) eqn:E; simpl; rewrite E; [reflexivity | exact IH].
Qed.

Lemma get_set_other {V : Type} (d : PyDict.dict V) (k k0 : string) (v : V) :
  k0 <> k -> PyDict.get (PyDict.set d k v) k0 = PyDict.get d k0.
Proof.
  intro Hne. induction d as [|[k' v'] d IH]; simpl.
  - destruct (String.eqb k k0) eqn:E; [apply String.eqb_eq in E; congruence | reflexivity].
  - destruct (String.eqb k' k) eqn:E; simpl.
    + apply String.eqb_eq in E. subst k'.
      destruct (String.eqb k k0) eqn:E'; [apply String.eqb_eq in E'; congruence | reflexivity].
    + destruct (String.eqb k' k0); [reflexivity | exact IH].
Qed.

Lemma item_get {V : Type} (d : PyDict.dict V) (k : string) (v : V) :
  PyDict.get d k = Some v -> PyDict.item d k = OK v.
Proof. unfold PyDict.item. intros ->. reflexivity. Qed.

(** ** The order of the floats *)

Section FloatFacts.
Import Runner Spec.

Lemma compare_cont_Eq (m n : positive) : Pos.compare_cont Eq m n = Pos.compare m n.
Proof. reflexivity. Qed.

(** Two floats that are numbers compare as their keys do. *)
Lemma ltb_key (x y : float) :
  F64.is_nan x = false -> F64.is_nan y = false ->
  (F64.ltb x y = true <-> key_lt (key x) (key y)).
Proof.
  intros Hx Hy. unfold F64.ltb, SFltb, SFcompare, key_lt.
  destruct x as [sx|sx| |sx mx ex]; try discriminate;
    destruct y as [sy|sy| |sy my ey]; try discriminate;
    try destruct sx; try destruct sy; simpl;
    try rewrite compare_cont_Eq;
    try (destruct (Z.compare_spec ex ey) as [E|E|E]);
    try (destruct (Pos.compare_spec mx my) as [E'|E'|E']);
    simpl; split; intro G; try discriminate; try reflexivity; try lia.
Qed.

Lemma leb_key (x y : float) :
  F64.is_nan x = false -> F64.is_nan y = false ->
  (F64.leb x y = true <-> key_le (key x) (key y)).
Proof.
  intros Hx Hy. unfold F64.leb, SFleb, SFcompare, key_le, key_lt.
  destruct x as [sx|sx| |sx mx ex]; try discriminate;
    destruct y as [sy|sy| |sy my ey]; try discriminate;
    try destruct sx; try destruct sy; simpl;
    try rewrite compare_cont_Eq;
    try (destruct (Z.compare_spec ex ey) as [E|E|E]);
    try (destruct (Pos.compare_spec mx my) as [E'|E'|E']);
    simpl; split; intro G; try discriminate; try reflexivity;
    try (subst; right; reflexivity);
    try (left; lia);
    try (destruct G as [G|G]; [lia | injection G; intros; lia]).
Qed.

Lemma key_lt_trans (a b c : Z * Z * Z) : key_lt a b -> key_lt b c -> key_lt a c.
Proof.
  destruct a as [[a1 a2] a3], b as [[b1 b2] b3], c as [[c1 c2] c3]. unfold key_lt. lia.
Qed.

Lemma key_lt_irrefl (a : Z * Z * Z) : ~ key_lt a a.
Proof. destruct a as [[a1 a2] a3]. unfold key_lt. lia. Qed.

Lemma key_total (a b : Z * Z * Z) : key_lt a b \/ a = b \/ key_lt b a.
Proof.
  destruct a as [[a1 a2] a3], b as [[b1 b2] b3]. unfold key_lt.
  destruct (Z.eq_dec a1 b1) as [E1|N1]; [|lia].
  destruct (Z.eq_dec a2 b2) as [E2|N2]; [|lia].
  destruct (Z.eq_dec a3 b3) as [E3|N3]; [|lia].
  right. left. congruence.
Qed.

Lemma key_le_trans (a b c : Z * Z * Z) : key_le a b -> key_le b c -> key_le a c.
Proof.
  unfold key_le. intros [H1|H1] [H2|H2]; subst; auto.
  left. exact (key_lt_trans _ _ _ H1 H2).
Qed.

Lemma key_lt_le_trans (a b c : Z * Z * Z) : key_lt a b -> key_le b c -> key_lt a c.
Proof. intros H1 [H2|H2]; [exact (key_lt_trans _ _ _ H1 H2) | subst; exact H1]. Qed.

Lemma key_le_lt_trans (a b c : Z * Z * Z) : key_le a b -> key_lt b c -> key_lt a c.
Proof. intros [H1|H1] H2; [exact (key_lt_trans _ _ _ H1 H2) | subst; exact H2]. Qed.

Lemma key_not_lt (a b : Z * Z * Z) : ~ key_lt a b <-> key_le b a.
Proof.
  unfold key_le. split.
  - intro H. destruct (key_total a b) as [H1|[H1|H1]]; [contradiction|auto|auto].
  - intros [H|H] H'; [exact (key_lt_irrefl _ (key_lt_trans _ _ _ H H')) | subst].
    exact (key_lt_irrefl _ H').
Qed.

(** A comparison that does not hold between two numbers: the other
    way round holds. *)
Lemma ltb_false_leb (x y : float) :
  F64.is_nan x = false -> F64.is_nan y = false ->
  (F64.ltb x y = false <-> F64.leb y x = true).
Proof.
  intros Hx Hy. rewrite (leb_key y x Hy Hx), <- key_not_lt, <- (ltb_key x y Hx Hy).
  destruct (F64.ltb x y); split; intro H; try reflexivity; try discriminate; try congruence.
Qed.

Lemma leb_false_ltb (x y : float) :
  F64.is_nan x = false -> F64.is_nan y = false ->
  (F64.leb x y = false <-> F64.ltb y x = true).
Proof.
  intros Hx Hy. pose proof (ltb_false_leb y x Hy Hx) as H.
  destruct (F64.leb x y), (F64.ltb y x); split; intro E; try reflexivity; try discriminate.
  - destruct H as [_ H]. specialize (H eq_refl). discriminate.
  - destruct H as [H _]. specialize (H eq_refl). discriminate.
Qed.

Lemma leb_trans (x y z : float) :
  F64.is_nan x = false -> F64.is_nan y = false -> F64.is_nan z = false ->
  F64.leb x y = true -> F64.leb y z = true -> F64.leb x z = true.
Proof.
  intros Hx Hy Hz. rewrite (leb_key x y Hx Hy), (leb_key y z Hy Hz), (leb_key x z Hx Hz).
  apply key_le_trans.
Qed.

Lemma leb_refl (x : float) : F64.is_nan x = false -> F64.leb x x = true.
Proof. intro Hx. apply (leb_key x x Hx Hx). right. reflexivity. Qed.

(** No comparison holds with a value that is not a number. *)
Lemma ltb_nan_l (y : float) : F64.ltb F64.nan y = false.
Proof. reflexivity. Qed.

Lemma ltb_nan_r (x : float) : F64.ltb x F64.nan = false.
Proof. destruct x; reflexivity. Qed.

Lemma leb_nan_r (x : float) : F64.leb x F64.nan = false.
Proof. destruct x; reflexivity. Qed.

Lemma is_nan_eq (x : float) : F64.is_nan x = true <-> x = F64.nan.
Proof. destruct x; simpl; split; intro H; try discriminate; reflexivity. Qed.

Lemma ltb_not_nan (x y : float) :
  F64.ltb x y = true -> F64.is_nan x = false /\ F64.is_nan y = false.
Proof.
  destruct x, y; simpl; intro H; try discriminate; split; reflexivity.
Qed.

Lemma leb_not_nan (x y : float) :
  F64.leb x y = true -> F64.is_nan x = false /\ F64.is_nan y = false.
Proof.
  destruct x, y; simpl; intro H; try discriminate; split; reflexivity.
Qed.

Lemma in_fuzzy_range_iff (x : float) :
  in_fuzzy_range x = true <-> F64.leb F64.minus_one x = true /\ F64.leb x F64.one = true.
Proof. unfold in_fuzzy_range. apply andb_true_iff. Qed.

Lemma in_fuzzy_range_not_nan (x : float) : in_fuzzy_range x = true -> F64.is_nan x = false.
Proof.
  intro H. apply in_fuzzy_range_iff in H. destruct H as [_ H].
  apply (leb_not_nan _ _ H).
Qed.

(** *** Negation *)

Lemma digits_shift (m : positive) :
  Zpos (digits2_pos (Pos.mul 4503599627370496 m)) = (Zpos (digits2_pos m) + 52)%Z.
Proof.
  cbn [Pos.mul digits2_pos]. rewrite !Pos2Z.inj_succ. ring.
Qed.

Lemma shift_52 (m : positive) :
  iter_pos shr_1 52 (Build_shr_record (Zpos (Pos.mul 4503599627370496 m)) false false)
  = Build_shr_record (Zpos m) false false.
Proof. cbn [Pos.mul iter_pos shr_1 orb]. reflexivity. Qed.

(** The product of -1 and a float of the format is the float with the
    other sign: no rounding takes place. *)
Lemma mul_minus_one (x : float) :
  F64.valid x = true -> F64.mul F64.minus_one x = F64.opp x.
Proof.
  destruct x as [s|s| |s m e]; try reflexivity. intro H.
  unfold F64.valid, valid_binary in H.
  unfold bounded in H. apply andb_prop in H. destruct H as [Hc He].
  unfold canonical_mantissa in Hc. apply Z.eqb_eq in Hc.
  change (F64.mul F64.minus_one (S754_finite s m e))
    with (binary_round_aux F64.prec F64.emax (negb s)
            (Zpos (Pos.mul 4503599627370496 m)) (-52 + e) loc_Exact).
  assert (E : (fexp F64.prec F64.emax
                 (Zdigits2 (Z.pos (4503599627370496 * m)) + (-52 + e)) - (-52 + e) = 52)%Z).
  { unfold Zdigits2. rewrite digits_shift.
    replace (Z.pos (digits2_pos m) + 52 + (-52 + e))%Z
      with (Z.pos (digits2_pos m) + e)%Z by ring.
    rewrite Hc. ring. }
  unfold binary_round_aux at 1. unfold shr_fexp at 1. rewrite E.
  unfold shr at 1. cbn [shr_record_of_loc]. rewrite !shift_52.
  replace (-52 + e + 52)%Z with e by ring.
  cbv beta iota. cbn [loc_of_shr_record shr_m round_nearest_even].
  unfold shr_fexp, Zdigits2. rewrite Hc, Z.sub_diag.
  cbn [shr_record_of_loc shr shr_m]. cbv beta iota. rewrite He. reflexivity.
Qed.

Lemma opp_involutive (x : float) : F64.opp (F64.opp x) = x.
Proof. destruct x as [[]|[]| |[] m e]; reflexivity. Qed.

Lemma opp_valid (x : float) : F64.valid (F64.opp x) = F64.valid x.
Proof. destruct x; reflexivity. Qed.

Lemma opp_fuzzy (x : float) : in_fuzzy_range (F64.opp x) = in_fuzzy_range x.
Proof.
  unfold in_fuzzy_range, F64.leb, SFleb, F64.opp, F64.minus_one, F64.one.
  change (F64.of_Z (-1)) with (S754_finite true 4503599627370496 (-52)).
  change (F64.of_Z 1) with (S754_finite false 4503599627370496 (-52)).
  destruct x as [[]|[]| |[] m e]; try reflexivity; unfold SFopp, SFcompare; cbn [negb];
    rewrite andb_comm; destruct (Z.compare_spec (-52) e), (Z.compare_spec e (-52));
    try lia; try reflexivity; subst;
    rewrite (Pos.compare_cont_antisym 4503599627370496 m Eq); cbn [CompOpp];
    destruct (Pos.compare_cont Eq m 4503599627370496); reflexivity.
Qed.

End FloatFacts.

(** ** Cells, clamping and the registry *)

Section CellFacts.
Import PyStr PyDict Cmd Runner Spec.

Lemma clip_cell_None : clip_cell None = None.
Proof. reflexivity. Qed.

Lemma clip_cell_nan : clip_cell (Some F64.nan) = Some F64.nan.
Proof. reflexivity. Qed.

(** The clamp keeps the mask of a cell. *)
Lemma clip_cell_Some (x : float) : exists y, clip_cell (Some x) = Some y.
Proof.
  unfold clip_cell, clt, ccmp. simpl.
  destruct (F64.ltb F64.one x); simpl.
  - eexists. reflexivity.
  - destruct (F64.ltb x F64.minus_one); eexists; reflexivity.
Qed.

Lemma clip_cell_masked (c : cell) : clip_cell c = None <-> c = None.
Proof.
  destruct c as [x|]; [|split; reflexivity].
  destruct (clip_cell_Some x) as [y Hy]. rewrite Hy. split; discriminate.
Qed.

(** The clamp leaves a value that is not a number, or a value from -1
    to 1. *)
Lemma clip_cell_fuzzy (c : cell) : fuzzy_cell (clip_cell c).
Proof.
  destruct c as [x|]; [|exact I].
  destruct (F64.is_nan x) eqn:En.
  - apply is_nan_eq in En. subst x. left. reflexivity.
  - unfold clip_cell, clt, ccmp. simpl.
    destruct (F64.ltb F64.one x) eqn:E1; simpl.
    + right. reflexivity.
    + destruct (F64.ltb x F64.minus_one) eqn:E2; simpl.
      * right. reflexivity.
      * right. apply in_fuzzy_range_iff. split.
        -- apply (ltb_false_leb x F64.minus_one En eq_refl). exact E2.
        -- apply (ltb_false_leb F64.one x eq_refl En). exact E1.
Qed.

(** The clamp does nothing to a value from -1 to 1. *)
Lemma clip_cell_id (x : float) : in_fuzzy_range x = true -> clip_cell (Some x) = Some x.
Proof.
  intro H. pose proof (in_fuzzy_range_not_nan x H) as En.
  apply in_fuzzy_range_iff in H. destruct H as [H1 H2].
  unfold clip_cell, clt, ccmp. simpl.
  apply (ltb_false_leb F64.one x eq_refl En) in H2. rewrite H2. simpl.
  apply (ltb_false_leb x F64.minus_one En eq_refl) in H1. rewrite H1. reflexivity.
Qed.


(** What a successful insertion leaves in the registry. *)
Lemma AddField_OK (r r' : runner) (o n : string) (a : marray) :
  AddFieldToEEMSFlds r o n a = OK r' ->
  cells_of r' n = Some (cells a)
  /\ get (EEMSFlds r') n = Some (mkField o a)
  /\ (forall k, k <> n -> get (EEMSFlds r') k = get (EEMSFlds r) k).
Proof.
  unfold AddFieldToEEMSFlds. destruct (mem n (keys (EEMSFlds r))); [discriminate|].
  intro H. inv_bind H. injection H as <-. unfold cells_of. simpl.
  rewrite get_set_same. repeat split. intros k Hk. apply get_set_other. exact Hk.
Qed.

Lemma Forall2_map_r {A B : Type} (P : A -> B -> Prop) (h : A -> B) (l : list A) :
  (forall x, In x l -> P x (h x)) -> Forall2 P l (map h l).
Proof.
  induction l as [|x l IH]; simpl; intro H; constructor.
  - apply H. left. reflexivity.
  - apply IH. intros y Hy. apply H. right. exact Hy.
Qed.

End CellFacts.

(** ** The least and the greatest value of a field, and the guard *)

Section GuardFacts.
Import PyStr PyDict Cmd Runner Spec.

(** A reduction keeps a value that is not a number. *)
Lemma fold_minimum_nan (l : list float) : fold_left np_minimum l F64.nan = F64.nan.
Proof. induction l as [|x l IH]; simpl; [reflexivity | exact IH]. Qed.

Lemma fold_maximum_nan (l : list float) : fold_left np_maximum l F64.nan = F64.nan.
Proof.
  induction l as [|x l IH]; simpl; [reflexivity|].
  replace (np_maximum F64.nan x) with F64.nan
    by (unfold np_maximum; rewrite leb_nan_r; reflexivity).
  exact IH.
Qed.

Lemma fold_minimum_has_nan (l : list float) (a : float) :
  In F64.nan (a :: l) -> fold_left np_minimum l a = F64.nan.
Proof.
  revert a. induction l as [|x l IH]; simpl; intros a H.
  - destruct H as [H|[]]. congruence.
  - destruct H as [->|[->|H]].
    + apply fold_minimum_nan.
    + unfold np_minimum. rewrite leb_nan_r. simpl.
      destruct (F64.is_nan a) eqn:E; [apply is_nan_eq in E; subst|]; apply fold_minimum_nan.
    + apply IH. right. exact H.
Qed.

Lemma fold_maximum_has_nan (l : list float) (a : float) :
  In F64.nan (a :: l) -> fold_left np_maximum l a = F64.nan.
Proof.
  revert a. induction l as [|x l IH]; simpl; intros a H.
  - destruct H as [H|[]]. congruence.
  - destruct H as [->|[->|H]].
    + replace (np_maximum F64.nan x) with F64.nan
        by (unfold np_maximum; rewrite leb_nan_r; reflexivity).
      apply fold_maximum_nan.
    + unfold np_maximum at 2.
      destruct (F64.is_nan a) eqn:E.
      * apply is_nan_eq in E. subst. simpl. apply fold_maximum_nan.
      * assert (El : F64.leb F64.nan a = false) by reflexivity.
        rewrite El. simpl. apply fold_maximum_nan.
    + apply IH. right. exact H.
Qed.

(** The reduction of numbers is one of them, and not above (not below)
    any of them. *)
Lemma fold_minimum_least (l : list float) (a : float) :
  (forall x, In x (a :: l) -> F64.is_nan x = false) ->
  In (fold_left np_minimum l a) (a :: l)
  /\ forall x, In x (a :: l) -> F64.leb (fold_left np_minimum l a) x = true.
Proof.
  revert a. induction l as [|y l IH]; intros a Hn.
  - simpl. split; [left; reflexivity|]. intros x [<-|[]]. apply leb_refl. apply Hn. left. reflexivity.
  - assert (Ha : F64.is_nan a = false) by (apply Hn; left; reflexivity).
    assert (Hy : F64.is_nan y = false) by (apply Hn; right; left; reflexivity).
    simpl fold_left. unfold np_minimum at 2 4. rewrite Ha, orb_false_r.
    destruct (F64.leb a y) eqn:E.
    + destruct (IH a) as [I1 I2].
      { intros x [<-|H]; [exact Ha | apply Hn; right; right; exact H]. }
      split.
      * destruct I1 as [I1|I1]; [left; exact I1 | right; right; exact I1].
      * intros x [<-|[<-|H]].
        -- apply I2. left. reflexivity.
        -- apply leb_trans with a; try assumption.
           ++ destruct I1 as [<-|I1]; [exact Ha | apply Hn; right; right; exact I1].
           ++ apply I2. left. reflexivity.
        -- apply I2. right. exact H.
    + destruct (IH y) as [I1 I2].
      { intros x [<-|H]; [exact Hy | apply Hn; right; right; exact H]. }
      split.
      * right. exact I1.
      * intros x [<-|[<-|H]].
        -- apply leb_trans with y; try assumption.
           ++ destruct I1 as [<-|I1]; [exact Hy | apply Hn; right; right; exact I1].
           ++ apply I2. left. reflexivity.
           ++ apply (leb_false_ltb a y Ha Hy) in E.
              apply (leb_key y a Hy Ha). left. apply (ltb_key y a Hy Ha). exact E.
        -- apply I2. left. reflexivity.
        -- apply I2. right. exact H.
Qed.

Lemma fold_maximum_greatest (l : list float) (a : float) :
  (forall x, In x (a :: l) -> F64.is_nan x = false) ->
  In (fold_left np_maximum l a) (a :: l)
  /\ forall x, In x (a :: l) -> F64.leb x (fold_left np_maximum l a) = true.
Proof.
  revert a. induction l as [|y l IH]; intros a Hn.
  - simpl. split; [left; reflexivity|]. intros x [<-|[]]. apply leb_refl. apply Hn. left. reflexivity.
  - assert (Ha : F64.is_nan a = false) by (apply Hn; left; reflexivity).
    assert (Hy : F64.is_nan y = false) by (apply Hn; right; left; reflexivity).
    simpl fold_left. unfold np_maximum at 2 4. rewrite Ha, orb_false_r.
    destruct (F64.leb y a) eqn:E.
    + destruct (IH a) as [I1 I2].
      { intros x [<-|H]; [exact Ha | apply Hn; right; right; exact H]. }
      split.
      * destruct I1 as [I1|I1]; [left; exact I1 | right; right; exact I1].
      * intros x [<-|[<-|H]].
        -- apply I2. left. reflexivity.
        -- apply leb_trans with a; try assumption.
           ++ destruct I1 as [<-|I1]; [exact Ha | apply Hn; right; right; exact I1].
           ++ apply I2. left. reflexivity.
        -- apply I2. right. exact H.
    + destruct (IH y) as [I1 I2].
      { intros x [<-|H]; [exact Hy | apply Hn; right; right; exact H]. }
      split.
      * right. exact I1.
      * intros x [<-|[<-|H]].
        -- apply leb_trans with y; try assumption.
           ++ destruct I1 as [<-|I1]; [exact Hy | apply Hn; right; right; exact I1].
           ++ apply (leb_false_ltb y a Hy Ha) in E.
              apply (leb_key a y Ha Hy). left. apply (ltb_key a y Ha Hy). exact E.
           ++ apply I2. left. reflexivity.
        -- apply I2. left. reflexivity.
        -- apply I2. right. exact H.
Qed.

Lemma filled_In (v : float) (l : list cell) (x : float) :
  In x (map (filled v) l) -> x = v \/ In (Some x) l.
Proof.
  intro H. apply in_map_iff in H. destruct H as [c [Hc Hin]].
  destruct c as [y|]; simpl in Hc; subst; [right; exact Hin | left; reflexivity].
Qed.

Lemma In_filled (v : float) (l : list cell) (x : float) :
  In (Some x) l -> In x (map (filled v) l).
Proof. intro H. apply in_map_iff. exists (Some x). split; [reflexivity | exact H]. Qed.

Lemma existsb_unmasked (l : list cell) :
  existsb is_unmasked l = false -> forall x, ~ In (Some x) l.
Proof.
  intros H x Hin. rewrite <- not_true_iff_false in H. apply H.
  apply existsb_exists. exists (Some x). split; [exact Hin | reflexivity].
Qed.

Lemma nan_cell_In (l : list cell) :
  existsb nan_cell l = true <-> In (Some F64.nan) l.
Proof.
  rewrite existsb_exists. split.
  - intros [c [Hin Hc]]. destruct c as [x|]; [|discriminate].
    simpl in Hc. apply is_nan_eq in Hc. subst. exact Hin.
  - intro H. exists (Some F64.nan). split; [exact H | reflexivity].
Qed.

Lemma no_nan_cell (l : list cell) (x : float) :
  existsb nan_cell l = false -> In (Some x) l -> F64.is_nan x = false.
Proof.
  intros H Hin. destruct (F64.is_nan x) eqn:E; [|reflexivity].
  rewrite <- not_true_iff_false in H. exfalso. apply H.
  apply existsb_exists. exists (Some x). split; [exact Hin | exact E].
Qed.

(** The reduction of the filled cells of an array with no cell that is
    not a number. *)
Lemma filled_not_nan (v : float) (l : list cell) :
  F64.is_nan v = false -> existsb nan_cell l = false ->
  forall x, In x (map (filled v) l) -> F64.is_nan x = false.
Proof.
  intros Hv Hn x Hx. apply filled_In in Hx. destruct Hx as [->|Hx]; [exact Hv|].
  apply (no_nan_cell l x Hn Hx).
Qed.

(** When the guard passes: the field is there and has a cell, and one
    of its cells is not a number or all its unmasked cells are in the
    fuzzy range. *)
Lemma VerifyFuzzyField_cases (r : runner) (n : string) :
  VerifyFuzzyField r n = OK tt <->
  exists d, fld_data r n = OK d /\ cells d <> []
            /\ (In (Some F64.nan) (cells d) \/ fuzzy_array d).
Proof.
  unfold VerifyFuzzyField, amin, amax, reduce, fuzzy_array. split.
  - intro H. inv_bind H. rename v into d. exists d. split; [exact Hv|].
    destruct (cells d) as [|c l] eqn:Ec; [discriminate|].
    split; [discriminate|].
    destruct (existsb nan_cell (c :: l)) eqn:En; [left; apply nan_cell_In; exact En|].
    right. apply Forall_forall. intros [x|] Hx; [|exact I]. simpl.
    destruct (existsb is_unmasked (c :: l)) eqn:Eu.
    2:{ exfalso. apply (existsb_unmasked _ Eu x Hx). }
    simpl in H.
    set (lo := fold_left np_minimum (map (filled F64.pinf) l) (filled F64.pinf c)) in H.
    set (hi := fold_left np_maximum (map (filled F64.ninf) l) (filled F64.ninf c)) in H.
    destruct (F64.ltb lo F64.minus_one) eqn:E1; [discriminate|].
    destruct (F64.ltb F64.one hi) eqn:E2; [discriminate|].
    pose proof (no_nan_cell _ x En Hx) as Hnx.
    destruct (fold_minimum_least (map (filled F64.pinf) l) (filled F64.pinf c)) as [L1 L2].
    { apply (filled_not_nan F64.pinf (c :: l) eq_refl En). }
    destruct (fold_maximum_greatest (map (filled F64.ninf) l) (filled F64.ninf c)) as [G1 G2].
    { apply (filled_not_nan F64.ninf (c :: l) eq_refl En). }
    fold lo in L1, L2. fold hi in G1, G2.
    assert (Hlo : F64.is_nan lo = false)
      by (apply (filled_not_nan F64.pinf (c :: l) eq_refl En); exact L1).
    assert (Hhi : F64.is_nan hi = false)
      by (apply (filled_not_nan F64.ninf (c :: l) eq_refl En); exact G1).
    apply in_fuzzy_range_iff. split.
    + apply leb_trans with lo; try assumption; try reflexivity.
      * apply (ltb_false_leb lo F64.minus_one Hlo eq_refl). exact E1.
      * apply L2. apply (In_filled F64.pinf (c :: l) x Hx).
    + apply leb_trans with hi; try assumption; try reflexivity.
      * apply G2. apply (In_filled F64.ninf (c :: l) x Hx).
      * apply (ltb_false_leb F64.one hi eq_refl Hhi). exact E2.
  - intros [d [Hd [Hne Hc]]]. rewrite Hd. cbv beta iota delta [bind].
    destruct (cells d) as [|c l] eqn:Ec; [contradiction|]. cbv beta iota.
    destruct (existsb is_unmasked (c :: l)) eqn:Eu; [|reflexivity].
    cbv beta iota.
    set (lo := fold_left np_minimum (map (filled F64.pinf) l) (filled F64.pinf c)).
    set (hi := fold_left np_maximum (map (filled F64.ninf) l) (filled F64.ninf c)).
    destruct (existsb nan_cell (c :: l)) eqn:En.
    + apply nan_cell_In in En.
      assert (Hlo : lo = F64.nan)
        by (apply fold_minimum_has_nan; apply (In_filled F64.pinf (c :: l) _ En)).
      assert (Hhi : hi = F64.nan)
        by (apply fold_maximum_has_nan; apply (In_filled F64.ninf (c :: l) _ En)).
      rewrite Hlo, Hhi. reflexivity.
    + destruct Hc as [Hc|Hc]; [apply nan_cell_In in Hc; congruence|].
      rewrite Forall_forall in Hc.
      destruct (fold_minimum_least (map (filled F64.pinf) l) (filled F64.pinf c)) as [L1 _].
      { apply (filled_not_nan F64.pinf (c :: l) eq_refl En). }
      destruct (fold_maximum_greatest (map (filled F64.ninf) l) (filled F64.ninf c)) as [G1 _].
      { apply (filled_not_nan F64.ninf (c :: l) eq_refl En). }
      fold lo in L1. fold hi in G1.
      assert (E1 : F64.ltb lo F64.minus_one = false).
      { apply (filled_In F64.pinf (c :: l)) in L1. destruct L1 as [->|L1]; [reflexivity|].
        specialize (Hc _ L1). simpl in Hc.
        pose proof (in_fuzzy_range_not_nan _ Hc) as Hn.
        apply in_fuzzy_range_iff in Hc. destruct Hc as [Hc _].
        apply (ltb_false_leb lo F64.minus_one Hn eq_refl). exact Hc. }
      assert (E2 : F64.ltb F64.one hi = false).
      { apply (filled_In F64.ninf (c :: l)) in G1. destruct G1 as [->|G1]; [reflexivity|].
        specialize (Hc _ G1). simpl in Hc.
        pose proof (in_fuzzy_range_not_nan _ Hc) as Hn.
        apply in_fuzzy_range_iff in Hc. destruct Hc as [_ Hc].
        apply (ltb_false_leb F64.one hi eq_refl Hn). exact Hc. }
      unfold clt, ccmp, truthy. rewrite E1, E2. reflexivity.
Qed.



Lemma field_arrays_Forall (r : runner) (P : marray -> Prop) (names : list string)
    (arrs : list marray) :
  (forall n, In n names -> exists d, fld_data r n = OK d /\ P d) ->
  field_arrays r names = OK arrs -> Forall P arrs /\ List.length arrs = List.length names.
Proof.
  revert arrs. induction names as [|n names IH]; simpl; intros arrs HP H.
  - injection H as <-. split; [constructor | reflexivity].
  - inv_bind H. inv_bind H. injection H as <-.
    destruct (HP n (or_introl eq_refl)) as [d [Hd Pd]].
    rewrite Hd in Hv. injection Hv as <-.
    destruct (IH v0 (fun m Hm => HP m (or_intror Hm)) Hv0) as [HF HL].
    split; [constructor; assumption | simpl; congruence].
Qed.

End GuardFacts.

(** ** The sweep of the ordering loop *)

Section SweepFacts.
Import PyStr PyDict Cmd Prog Sched.

Lemma for_each_app {A S : Type} (l1 l2 : list A) (body : A -> S -> result S) (s : S) :
  for_each (l1 ++ l2) body s = bind (for_each l1 body s) (for_each l2 body).
Proof.
  revert s. induction l1 as [|x l1 IH]; simpl; intro s; [reflexivity|].
  destruct (body x s) as [s'|e]; simpl; [apply IH | reflexivity].
Qed.

Lemma sweep_step_try (i : nat) (st : orderSt) (c : EEMSCmd) :
  nth_error (toOrder st) i = Some c ->
  sweep_step i st =
  bind (try_order c (orderedCmds st) (dpndsInOrderedCmds st))
       (fun o => match o with
                 | Some (ord', dp') => OK (mkOrderSt (pop i (toOrder st)) ord' dp')
                 | None => OK st
                 end).
Proof.
  intro H. unfold sweep_step, try_order. rewrite H.
  destruct (IsReadCmd c).
  - destruct (GetReadFieldNms c); reflexivity.
  - destruct (GetDependFieldNms c) as [deps|e]; simpl; [|reflexivity].
    destruct (forallb _ deps); [|reflexivity].
    destruct (GetResultName c); reflexivity.
Qed.

Lemma sweep_step_prep (i : nat) (c : EEMSCmd) (st : orderSt) :
  sweep_step (S i) (prep c st) = bind (sweep_step i st) (fun st' => OK (prep c st')).
Proof.
  destruct (nth_error (toOrder st) i) as [x|] eqn:E.
  - rewrite (sweep_step_try (S i) (prep c st) x) by exact E.
    rewrite (sweep_step_try i st x) by exact E. simpl.
    destruct (try_order x (orderedCmds st) (dpndsInOrderedCmds st)) as [[[ord' dp']|]|e];
      reflexivity.
  - unfold sweep_step. simpl. rewrite E. reflexivity.
Qed.

Lemma for_each_prep (idxs : list nat) (c : EEMSCmd) (st : orderSt) :
  for_each (map S idxs) sweep_step (prep c st)
  = bind (for_each idxs sweep_step st) (fun st' => OK (prep c st')).
Proof.
  revert st. induction idxs as [|i idxs IH]; intro st; simpl; [reflexivity|].
  rewrite sweep_step_prep. destruct (sweep_step i st) as [st'|e]; simpl; [apply IH | reflexivity].
Qed.

(** The loop over the indices, last index first, is the recursion on the
    list. *)
Lemma sweep_rec_eq (l : list EEMSCmd) (ord : list EEMSCmd) (dp : list string) :
  sweep (mkOrderSt l ord dp) = sweep_rec l ord dp.
Proof.
  induction l as [|c tl IH].
  - reflexivity.
  - unfold sweep in *. simpl toOrder in *. simpl List.length.
    rewrite <- cons_seq, <- seq_shift. simpl rev. rewrite <- map_rev, for_each_app.
    change (mkOrderSt (c :: tl) ord dp) with (prep c (mkOrderSt tl ord dp)).
    rewrite for_each_prep, IH. simpl sweep_rec.
    destruct (sweep_rec tl ord dp) as [st|e]; simpl; [|reflexivity].
    rewrite (sweep_step_try 0 (prep c st) c) by reflexivity. simpl.
    destruct (try_order c (orderedCmds st) (dpndsInOrderedCmds st)) as [[[ord' dp']|]|e];
      reflexivity.
Qed.

Lemma sweep_eq (st : orderSt) :
  sweep st = sweep_rec (toOrder st) (orderedCmds st) (dpndsInOrderedCmds st).
Proof. destruct st as [l ord dp]. apply sweep_rec_eq. Qed.

Lemma try_order_Some (c : EEMSCmd) (ord ord' : list EEMSCmd) (dp dp' : list string) :
  try_order c ord dp = OK (Some (ord', dp')) -> ord' = (ord ++ [c])%list.
Proof.
  unfold try_order. destruct (IsReadCmd c).
  - intro H. inv_bind H. injection H as <- _. reflexivity.
  - intro H. inv_bind H. destruct (forallb _ v); [|discriminate].
    inv_bind H. injection H as <- _. reflexivity.
Qed.

Lemma subseq_refl {A : Type} (l : list A) : subseq l l.
Proof. induction l; constructor; assumption. Qed.

Lemma try_order_names (c : EEMSCmd) (ord ord' : list EEMSCmd) (dp dp' : list string) :
  try_order c ord dp = OK (Some (ord', dp')) -> incl dp dp'.
Proof.
  unfold try_order. destruct (IsReadCmd c).
  - intro H. inv_bind H. injection H as _ <-. apply incl_appl, incl_refl.
  - intro H. inv_bind H. destruct (forallb _ v); [|discriminate].
    inv_bind H. injection H as _ <-. apply incl_appl, incl_refl.
Qed.

(** A command the sweep leaves in its place is not eligible. *)
Lemma try_order_None (c : EEMSCmd) (ord : list EEMSCmd) (dp dp0 : list string) :
  try_order c ord dp = OK None -> incl dp0 dp -> ~ eligible c dp0.
Proof.
  unfold try_order, eligible. intros H Hi [deps [Hd Ha]].
  destruct (IsReadCmd c).
  - inv_bind H. discriminate.
  - rewrite Hd in H. simpl in H.
    destruct (forallb (fun dependFldNm => mem dependFldNm dp) deps) eqn:E.
    + inv_bind H. discriminate.
    + assert (E' : forallb (fun dependFldNm => mem dependFldNm dp) deps = true).
      { apply forallb_forall. intros f Hf. apply mem_In. apply Hi.
        rewrite Forall_forall in Ha. apply Ha. exact Hf. }
      congruence.
Qed.

(** What one sweep does: the commands it moves are appended last
    declared first, the others stay in their order, no name is lost, and
    a command that is eligible when the sweep starts is moved. *)
Lemma sweep_rec_moves (l : list EEMSCmd) (ord : list EEMSCmd) (dp : list string)
    (st : orderSt) :
  sweep_rec l ord dp = OK st ->
  exists moved,
    orderedCmds st = (ord ++ rev moved)%list
    /\ subseq moved l
    /\ subseq (toOrder st) l
    /\ Permutation l (toOrder st ++ moved)
    /\ (List.length moved + List.length (toOrder st) = List.length l)%nat
    /\ incl dp (dpndsInOrderedCmds st)
    /\ (forall c, In c l -> eligible c dp -> In c moved).
Proof.
  revert st. induction l as [|c tl IH]; simpl; intros st H.
  - injection H as <-. exists []. simpl. rewrite app_nil_r.
    split; [reflexivity|]. split; [constructor|]. split; [constructor|].
    split; [constructor|]. split; [reflexivity|]. split; [apply incl_refl|].
    intros c [].
  - inv_bind H. rename v into st0. inv_bind H. rename v into o.
    destruct (IH st0 Hv) as [m [Ho [Hm [Hr [Hp [Hl [Hi He]]]]]]].
    destruct o as [[ord' dp']|].
    + injection H as <-. simpl.
      pose proof (try_order_names _ _ _ _ _ Hv0) as Hn.
      apply try_order_Some in Hv0. subst ord'.
      exists (c :: m). simpl. rewrite Ho, <- app_assoc.
      split; [reflexivity|]. split; [apply subseq_take; exact Hm|].
      split; [apply subseq_skip; exact Hr|].
      split; [apply Permutation_cons_app; exact Hp|]. split; [lia|].
      split; [intros f Hf; apply Hn, Hi, Hf|].
      intros c' [->|Hc'] Hel; [left; reflexivity | right; apply He; assumption].
    + injection H as <-. simpl. exists m.
      split; [exact Ho|]. split; [apply subseq_skip; exact Hm|].
      split; [apply subseq_take; exact Hr|].
      split; [constructor; exact Hp|]. split; [lia|]. split; [exact Hi|].
      intros c' [->|Hc'] Hel; [|apply He; assumption].
      exfalso. exact (try_order_None _ _ _ _ Hv0 Hi Hel).
Qed.

Lemma subseq_length_eq {A : Type} (l1 l2 : list A) :
  subseq l1 l2 -> List.length l1 = List.length l2 -> l1 = l2.
Proof.
  assert (Hle : forall (a b : list A), subseq a b -> (List.length a <= List.length b)%nat).
  { induction 1; simpl; lia. }
  induction 1 as [|x l1 l2 Hs IH|x l1 l2 Hs IH]; simpl; intro H.
  - reflexivity.
  - apply Hle in Hs. lia.
  - f_equal. apply IH. lia.
Qed.

Lemma sweep_moves (st st' : orderSt) :
  sweep st = OK st' ->
  exists moved,
    orderedCmds st' = (orderedCmds st ++ rev moved)%list
    /\ subseq moved (toOrder st)
    /\ subseq (toOrder st') (toOrder st)
    /\ Permutation (toOrder st) (toOrder st' ++ moved)
    /\ (List.length moved + List.length (toOrder st') = List.length (toOrder st))%nat
    /\ incl (dpndsInOrderedCmds st) (dpndsInOrderedCmds st')
    /\ (forall c, In c (toOrder st) -> eligible c (dpndsInOrderedCmds st) -> In c moved).
Proof.
  rewrite sweep_eq. apply sweep_rec_moves.
Qed.

Lemma sweep_length_le (st st' : orderSt) :
  sweep st = OK st' -> (List.length (toOrder st') <= List.length (toOrder st))%nat.
Proof.
  intro H. destruct (sweep_moves st st' H) as [m [_ [_ [_ [_ [Hl _]]]]]]. lia.
Qed.

Lemma subseq_trans {A : Type} (l1 l2 l3 : list A) :
  subseq l1 l2 -> subseq l2 l3 -> subseq l1 l3.
Proof.
  intros H12 H23. revert l1 H12.
  induction H23 as [|x l2 l3 H IH|x l2 l3 H IH]; intros l1 H12.
  - exact H12.
  - apply subseq_skip. apply IH. exact H12.
  - inversion H12 as [|y a b Hab|y a b Hab]; subst.
    + apply subseq_skip. apply IH. exact Hab.
    + apply subseq_take. apply IH. exact Hab.
Qed.

(** The commands still to order are in the order of their declaration. *)
Lemma reaches_subseq (st0 st : orderSt) :
  reaches st0 st -> subseq (toOrder st) (toOrder st0).
Proof.
  induction 1 as [st|st st1 st2 Hs Hne Hr IH].
  - apply subseq_refl.
  - destruct (sweep_moves st st1 Hs) as [m [_ [_ [Hsub _]]]].
    exact (subseq_trans _ _ _ IH Hsub).
Qed.

(** A sweep that moves no command leaves the list as it was. *)
Lemma sweep_no_progress (st st' : orderSt) :
  sweep st = OK st' ->
  List.length (toOrder st') = List.length (toOrder st) ->
  toOrder st' = toOrder st.
Proof.
  intros H Hl. destruct (sweep_moves st st' H) as [m [_ [_ [Hs _]]]].
  apply subseq_length_eq; assumption.
Qed.

(** The fuel of the loop is enough: with at least as much fuel as there
    are commands to order, more fuel changes nothing. *)
Lemma order_loop_fuel (n m : nat) (st : orderSt) :
  (List.length (toOrder st) <= n)%nat -> (List.length (toOrder st) <= m)%nat ->
  order_loop n st = order_loop m st.
Proof.
  revert m st. induction n as [|n IH]; intros m st Hn Hm.
  - destruct (toOrder st) eqn:E; [|simpl in Hn; lia].
    destruct m; simpl; [reflexivity|]. rewrite E. reflexivity.
  - destruct m as [|m].
    + destruct (toOrder st) eqn:E; [|simpl in Hm; lia].
      simpl. rewrite E. reflexivity.
    + simpl. destruct (0 <? List.length (toOrder st))%nat eqn:E0; [|reflexivity].
      destruct (sweep st) as [st'|e] eqn:Es; simpl; [|reflexivity].
      destruct (List.length (toOrder st) =? List.length (toOrder st'))%nat eqn:E1;
        [reflexivity|].
      apply Nat.eqb_neq in E1. pose proof (sweep_length_le st st' Es).
      apply IH; lia.
Qed.

End SweepFacts.

(** ** What construction gives the scheduler *)

Section LoadFacts.
Import PyStr PyRe PyDict Cmd Prog Spec Sched.
Local Open Scope string_scope.

Lemma cmdDescTable_ok : forallb desc_ok cmdDescTable = true.
Proof. vm_compute. reflexivity. Qed.

Lemma InitCmdDesc_OK (s n : string) (d : cmdDescT) :
  InitCmdDesc s n = OK d -> In d cmdDescTable /\ Name d = n.
Proof.
  unfold InitCmdDesc.
  destruct (find (fun d => String.eqb (Name d) n) cmdDescTable) as [d'|] eqn:E;
    [|discriminate].
  intro H. injection H as <-. apply find_some in E. destruct E as [Hin He].
  apply String.eqb_eq in He. split; assumption.
Qed.

Lemma ParseEEMSCmd_OK (stmt : string) (pc : parsedCmdT) (d : cmdDescT) :
  ParseEEMSCmd stmt = OK (pc, d) -> In d cmdDescTable /\ Name d = cmd pc.
Proof.
  unfold ParseEEMSCmd. destruct (String.eqb stmt ""); [discriminate|].
  destruct (re_match reCmd stmt) as [[n c]|]; [|discriminate].
  intro H. inv_bind H. inv_bind H. inv_bind H. injection H as <- <-. simpl.
  apply InitCmdDesc_OK in Hv. exact Hv.
Qed.

Lemma EEMSCmd_init_OK (stmt : string) (c : EEMSCmd) :
  EEMSCmd_init stmt = OK c ->
  exists pc d, c = mkCmd stmt pc d /\ ParseEEMSCmd stmt = OK (pc, d)
               /\ ValidateCmd stmt pc d = OK tt.
Proof.
  unfold EEMSCmd_init. intro H. inv_bind H. destruct v as [pc d]. inv_bind H.
  destruct v. injection H as <-. exists pc, d. auto.
Qed.

Lemma ValidateCmd_OK (stmt : string) (pc : parsedCmdT) (d : cmdDescT) :
  ValidateCmd stmt pc d = OK tt ->
  check_result stmt pc d = OK tt
  /\ check_param_names stmt pc d = OK tt
  /\ check_required stmt pc d = OK tt
  /\ exists o, check_values stmt pc d = OK o.
Proof.
  unfold ValidateCmd. intro H.
  inv_bind H. destruct v. inv_bind H. destruct v. inv_bind H. destruct v. inv_bind H.
  split; [assumption|]. split; [assumption|]. split; [assumption|]. eauto.
Qed.

Lemma for_each_In {A S : Type} (l : list A) (body : A -> S -> result S) (s s' : S) :
  for_each l body s = OK s' ->
  forall x, In x l -> exists s1 s2, body x s1 = OK s2.
Proof.
  revert s. induction l as [|y l IH]; simpl; intros s H x Hx; [contradiction|].
  inv_bind H. destruct Hx as [->|Hx]; [eauto | eapply IH; eauto].
Qed.

Lemma for_each_inv {A S : Type} (P : S -> Prop) (l : list A)
    (body : A -> S -> result S) :
  (forall x s s', P s -> body x s = OK s' -> P s') ->
  forall s s', P s -> for_each l body s = OK s' -> P s'.
Proof.
  intro Hb. induction l as [|y l IH]; simpl; intros s s' Hs H.
  - injection H as <-. exact Hs.
  - inv_bind H. eapply IH; [|exact H]. eapply Hb; eauto.
Qed.

Lemma mem_false (x : string) (l : list string) : mem x l = false <-> ~ In x l.
Proof.
  rewrite <- mem_In. destruct (mem x l); split; intro H; congruence.
Qed.

Lemma mem_keys_get {V : Type} (d : dict V) (k : string) :
  mem k (keys d) = true <-> exists v, get d k = Some v.
Proof. exact (has_get d k). Qed.

(** The parts of a constructed command the scheduler relies on. *)
Lemma constructed_parts (c : EEMSCmd) :
  constructed c ->
  In (cmdDesc c) cmdDescTable
  /\ Name (cmdDesc c) = cmd (parsedCmd c)
  /\ check_result (cmdStr c) (parsedCmd c) (cmdDesc c) = OK tt
  /\ check_param_names (cmdStr c) (parsedCmd c) (cmdDesc c) = OK tt
  /\ check_required (cmdStr c) (parsedCmd c) (cmdDesc c) = OK tt
  /\ exists o, check_values (cmdStr c) (parsedCmd c) (cmdDesc c) = OK o.
Proof.
  intros [stmt H]. apply EEMSCmd_init_OK in H. destruct H as [pc [d [-> [Hp Hv]]]].
  simpl. apply ParseEEMSCmd_OK in Hp. destruct Hp as [Hin Hn].
  apply ValidateCmd_OK in Hv. destruct Hv as [H1 [H2 [H3 H4]]].
  split; [assumption|]. split; [assumption|]. split; [assumption|].
  split; [assumption|]. split; assumption.
Qed.

Lemma constructed_desc_ok (c : EEMSCmd) : constructed c -> desc_ok (cmdDesc c) = true.
Proof.
  intro H. destruct (constructed_parts c H) as [Hin _].
  pose proof cmdDescTable_ok as Ht. rewrite forallb_forall in Ht. apply Ht. exact Hin.
Qed.

(** A read command has no result name. *)
Lemma read_cmd_no_result (c : EEMSCmd) :
  constructed c -> IsReadCmd c = true -> rslt (parsedCmd c) = None.
Proof.
  intros H Hr. pose proof (constructed_desc_ok c H) as Hd.
  destruct (constructed_parts c H) as [_ [Hn [Hres _]]].
  unfold desc_ok in Hd. unfold IsReadCmd in Hr. rewrite Hn, Hr in Hd.
  unfold check_result in Hres.
  destruct (Result (cmdDesc c)); [discriminate|].
  destruct (rslt (parsedCmd c)); [discriminate | reflexivity].
Qed.

Lemma required_present (c : EEMSCmd) (k ty : string) :
  constructed c -> get (RequiredParams (cmdDesc c)) k = Some ty ->
  exists v, get (params (parsedCmd c)) k = Some v.
Proof.
  intros H Hk. destruct (constructed_parts c H) as [_ [_ [_ [_ [Hreq _]]]]].
  unfold check_required in Hreq.
  assert (Hin : In k (keys (RequiredParams (cmdDesc c)))).
  { apply mem_In. apply mem_keys_get. eauto. }
  destruct (for_each_In _ _ _ _ Hreq k Hin) as [s1 [s2 Hb]].
  apply mem_keys_get.
  destruct (mem k (keys (params (parsedCmd c)))); [reflexivity | discriminate].
Qed.

Lemma undeclared_absent (c : EEMSCmd) (k : string) :
  constructed c -> String.eqb (Name (cmdDesc c)) "CALLEXTERN" = false ->
  declares (cmdDesc c) k = false ->
  HasParam c k = false.
Proof.
  intros H Hx Hk. destruct (constructed_parts c H) as [_ [Hn [_ [Hnames _]]]].
  unfold check_param_names in Hnames. rewrite <- Hn in Hnames.
  unfold mem at 1 in Hnames. simpl existsb in Hnames. rewrite Hx in Hnames.
  simpl in Hnames. unfold HasParam.
  destruct (mem k (keys (params (parsedCmd c)))) eqn:E; [|reflexivity].
  apply mem_In in E. destruct (for_each_In _ _ _ _ Hnames k E) as [s1 [s2 Hb]].
  unfold declares in Hk. rewrite Hk in Hb. discriminate.
Qed.

Lemma IsParamType_field_list (v : string) :
  IsParamType v "Field Name List" = OK true -> exists l, ListFromListParam v = Some l.
Proof.
  unfold IsParamType.
  assert (E1 : is_scalar_type "Field Name List" = false) by (vm_compute; reflexivity).
  assert (E2 : mem "Field Name List" list_types = true) by (vm_compute; reflexivity).
  rewrite E1, E2. destruct (IsListParam v); simpl; [|discriminate].
  destruct (ListFromListParam v) as [l|]; [eauto|].
  destruct (re_match reListType "Field Name List") as [[? ?]|]; discriminate.
Qed.

Lemma checked_field_list (c : EEMSCmd) (k v : string) :
  constructed c ->
  get (RequiredParams (cmdDesc c)) k = Some "Field Name List" ->
  get (params (parsedCmd c)) k = Some v ->
  exists l, ListFromListParam v = Some l.
Proof.
  intros H Hk Hv. destruct (constructed_parts c H) as [_ [_ [_ [_ [_ [o Hval]]]]]].
  unfold check_values in Hval.
  assert (Hin : In k (keys (params (parsedCmd c)))).
  { apply mem_In. apply mem_keys_get. eauto. }
  destruct (for_each_In _ _ _ _ Hval k Hin) as [s1 [s2 Hb]].
  assert (Hm : mem k (keys (RequiredParams (cmdDesc c))) = true).
  { apply mem_keys_get. eauto. }
  rewrite Hm, Hk in Hb. simpl in Hb.
  rewrite (item_get _ _ _ Hv) in Hb. simpl in Hb.
  destruct (IsParamType v "Field Name List") as [[|]|e] eqn:Et; simpl in Hb;
    try discriminate.
  apply IsParamType_field_list. exact Et.
Qed.

Lemma GetParam_field_name (c : EEMSCmd) (k v : string) :
  get (RequiredParams (cmdDesc c)) k = Some "Field Name" ->
  get (params (parsedCmd c)) k = Some v ->
  GetParam c k = OK (VStr v).
Proof.
  intros Hk Hv. unfold GetParam, GetParamType, IsRequiredParam.
  assert (Hm : mem k (keys (RequiredParams (cmdDesc c))) = true).
  { apply mem_keys_get. eauto. }
  rewrite Hm, (item_get _ _ _ Hk). simpl. rewrite Hv. reflexivity.
Qed.

Lemma GetParam_field_list (c : EEMSCmd) (k v : string) (l : list string) :
  get (RequiredParams (cmdDesc c)) k = Some "Field Name List" ->
  get (params (parsedCmd c)) k = Some v ->
  ListFromListParam v = Some l ->
  GetParam c k = OK (VStrList l).
Proof.
  intros Hk Hv Hl. unfold GetParam, GetParamType, IsRequiredParam.
  assert (Hm : mem k (keys (RequiredParams (cmdDesc c))) = true).
  { apply mem_keys_get. eauto. }
  rewrite Hm, (item_get _ _ _ Hk). simpl. rewrite Hv.
  unfold list_of_param. rewrite Hl. reflexivity.
Qed.

Lemma opt_is_eq (o : option string) (s : string) : opt_is o s = true -> o = Some s.
Proof.
  destruct o as [t|]; simpl; [|discriminate]. intro H. apply String.eqb_eq in H.
  subst. reflexivity.
Qed.

(** [__GetDependFieldNms] never fails on a constructed command. *)
Lemma constructed_depends (c : EEMSCmd) :
  constructed c -> exists deps, GetDependFieldNms c = OK deps.
Proof.
  intro H. pose proof (constructed_desc_ok c H) as Hd.
  destruct (constructed_parts c H) as [_ [Hn _]].
  unfold GetDependFieldNms. destruct (IsReadCmd c) eqn:Hr; [eauto|].
  unfold desc_ok in Hd. unfold IsReadCmd in Hr. rewrite <- Hn in Hr. rewrite Hr in Hd.
  apply orb_prop in Hd. destruct Hd as [Hd|Hd]; [apply orb_prop in Hd; destruct Hd as [Hd|Hd]|].
  - apply opt_is_eq in Hd.
    destruct (required_present c _ _ H Hd) as [v Hv].
    destruct (checked_field_list c _ v H Hd Hv) as [l Hl].
    assert (Hp : HasParam c "InFieldNames" = true).
    { unfold HasParam. apply mem_keys_get. eauto. }
    rewrite Hp, (GetParam_field_list c _ v l Hd Hv Hl). simpl. eauto.
  - apply andb_prop in Hd. destruct Hd as [Hd H3]. apply andb_prop in Hd.
    destruct Hd as [H1 H2]. apply negb_true_iff in H1, H2. apply opt_is_eq in H3.
    rewrite (undeclared_absent c _ H H2 H1).
    destruct (required_present c _ _ H H3) as [v Hv].
    assert (Hp : HasParam c "InFieldName" = true).
    { unfold HasParam. apply mem_keys_get. eauto. }
    rewrite Hp, (GetParam_field_name c _ v H3 Hv). simpl. eauto.
  - repeat (apply andb_prop in Hd; let H' := fresh "Hc" in destruct Hd as [Hd H']).
    apply negb_true_iff in Hd, Hc3, Hc2. apply opt_is_eq in Hc, Hc0.
    apply String.eqb_eq in Hc1.
    rewrite (undeclared_absent c _ H Hc2 Hd), (undeclared_absent c _ H Hc2 Hc3).
    unfold GetCommandName. rewrite <- Hn, Hc1. simpl.
    destruct (required_present c _ _ H Hc0) as [v1 Hv1].
    destruct (required_present c _ _ H Hc) as [v2 Hv2].
    rewrite (GetParam_field_name c _ v1 Hc0 Hv1). simpl.
    rewrite (GetParam_field_name c _ v2 Hc Hv2). simpl. eauto.
Qed.

End LoadFacts.

(** ** What loading keeps true *)

Section RegisterFacts.
Import PyStr PyRe PyDict Cmd Prog Spec Sched.
Local Open Scope string_scope.

Lemma get_None_keys {V : Type} (d : dict V) (k : string) :
  get d k = None <-> ~ In k (keys d).
Proof.
  rewrite <- mem_In, mem_keys_get. split.
  - intros H [v Hv]. congruence.
  - intro H. destruct (get d k) as [v|]; [exfalso; apply H; eauto | reflexivity].
Qed.

Lemma keys_set_new {V : Type} (d : dict V) (k : string) (v : V) :
  get d k = None -> keys (set d k v) = (keys d ++ [k])%list.
Proof.
  intro H. rewrite keys_set. unfold has.
  destruct (mem k (keys d)) eqn:E; [|reflexivity].
  apply mem_keys_get in E. destruct E as [x Hx]. congruence.
Qed.

Lemma NoDup_snoc {A : Type} (l : list A) (x : A) :
  NoDup l -> ~ In x l -> NoDup (l ++ [x]).
Proof.
  intros Hl Hx. induction Hl as [|y l Hy Hl IH]; simpl.
  - constructor; [intros [] | constructor].
  - constructor.
    + rewrite in_app_iff. intros [H|[H|[]]]; [contradiction|].
      subst. apply Hx. left. reflexivity.
    + apply IH. intro H. apply Hx. right. exact H.
Qed.

Lemma NoDup_app_disjoint {A : Type} (a b : list A) (x : A) :
  NoDup (a ++ b) -> In x a -> In x b -> False.
Proof.
  induction a as [|y a IH]; simpl; intros Hn Ha Hb; [contradiction|].
  inversion Hn as [|? ? Hy Hn']; subst. destruct Ha as [->|Ha].
  - apply Hy. apply in_or_app. right. exact Hb.
  - exact (IH Hn' Ha Hb).
Qed.

Lemma NoDup_app_r {A : Type} (a b : list A) : NoDup (a ++ b) -> NoDup b.
Proof.
  induction a as [|y a IH]; simpl; intro H; [exact H|].
  inversion H; subst. apply IH. assumption.
Qed.

Lemma names_of_result (c : EEMSCmd) (r : string) :
  HasResultName c = true -> GetResultName c = OK r -> names_of c = [r].
Proof.
  intros H1 H2. unfold names_of, registered_names. rewrite H1, H2. reflexivity.
Qed.

Lemma names_of_read (c : EEMSCmd) (names : list string) :
  HasResultName c = false -> IsReadCmd c = true -> GetReadFieldNms c = OK names ->
  names_of c = names.
Proof.
  intros H1 H2 H3. unfold names_of, registered_names. rewrite H1, H2, H3. reflexivity.
Qed.

Lemma names_of_none (c : EEMSCmd) :
  HasResultName c = false -> IsReadCmd c = false -> names_of c = [].
Proof.
  intros H1 H2. unfold names_of, registered_names. rewrite H1, H2. reflexivity.
Qed.

(** One [define_field]: a new key at the end, bound to the command. *)
Lemma define_field_OK (h s : string) (c : EEMSCmd) (f : string) (defs defs' : dict EEMSCmd) :
  define_field h s c f defs = OK defs' ->
  ~ In f (keys defs) /\ keys defs' = (keys defs ++ [f])%list /\ defs' = set defs f c.
Proof.
  unfold define_field. destruct (get defs f) as [o|] eqn:E; [discriminate|].
  intro H. injection H as <-. split; [apply get_None_keys; exact E|].
  split; [apply keys_set_new; exact E | reflexivity].
Qed.

(** The loop of [__AddCmd] over the names a read command defines. *)
Lemma define_fields_OK (h s : string) (c : EEMSCmd) (names : list string)
    (defs defs' : dict EEMSCmd) :
  for_each names (define_field h s c) defs = OK defs' ->
  keys defs' = (keys defs ++ names)%list
  /\ (NoDup (keys defs) -> NoDup (keys defs'))
  /\ (forall f, get defs' f = if mem f names then Some c else get defs f).
Proof.
  revert defs. induction names as [|n names IH]; simpl; intros defs H.
  - injection H as <-. rewrite app_nil_r. split; [reflexivity|]. split; auto.
  - inv_bind H. rename v into d1. apply define_field_OK in Hv.
    destruct Hv as [Hn [Hk ->]]. destruct (IH _ H) as [Hk' [Hnd Hget]].
    split; [rewrite Hk', Hk, <- app_assoc; reflexivity|]. split.
    + intro Hd. apply Hnd. rewrite Hk. apply NoDup_snoc; assumption.
    + intro f. rewrite Hget. destruct (String.eqb f n) eqn:E; simpl.
      * apply String.eqb_eq in E. subst f.
        destruct (mem n names); [reflexivity | apply get_set_same].
      * destruct (mem f names); [reflexivity|]. apply get_set_other.
        intro He. subst. rewrite String.eqb_refl in E. discriminate.
Qed.

Lemma registered_empty : registered (mkProgSt [] []).
Proof.
  unfold registered. simpl. split; [constructor|]. split; [reflexivity|].
  split; [constructor|]. intros f c H. discriminate.
Qed.

(** [__AddCmd] keeps the registry of the defined names in step with the
    list of the commands. *)
Lemma AddCmd_registered (stmt : string) (st st' : progSt) :
  registered st -> AddCmd stmt st = OK st' ->
  registered st'
  /\ exists c, EEMSCmd_init stmt = OK c /\ unorderedCmds st' = (unorderedCmds st ++ [c])%list.
Proof.
  intros [Hc [Hk [Hn Hg]]] H. unfold AddCmd in H. inv_bind H. rename v into c.
  inv_bind H. rename v into defs. injection H as <-.
  split; [|exists c; split; [exact Hv | reflexivity]].
  assert (Hcc : constructed c) by (exists stmt; exact Hv).
  unfold registered. simpl.
  split; [apply Forall_app; split; [exact Hc | constructor; [exact Hcc | constructor]]|].
  rewrite flat_map_app. simpl flat_map. rewrite app_nil_r.
  destruct (HasResultName c) eqn:Hres.
  - inv_bind Hv0. rename v into r. apply define_field_OK in Hv0.
    destruct Hv0 as [Hnew [Hk' ->]].
    rewrite (names_of_result c r Hres Hv1).
    split; [rewrite Hk', Hk; reflexivity|].
    split; [rewrite Hk'; apply NoDup_snoc; assumption|].
    intros f c0 Hf. destruct (String.eqb r f) eqn:E.
    + apply String.eqb_eq in E. subst f. rewrite get_set_same in Hf.
      injection Hf as <-. split; [apply in_or_app; right; left; reflexivity|].
      unfold defines. rewrite (names_of_result c r Hres Hv1). left. reflexivity.
    + rewrite get_set_other in Hf
        by (intro He; subst; rewrite String.eqb_refl in E; discriminate).
      destruct (Hg f c0 Hf) as [Hin Hd]. split; [apply in_or_app; left; exact Hin | exact Hd].
  - destruct (IsReadCmd c) eqn:Hread.
    + inv_bind Hv0. rename v into names.
      destruct (define_fields_OK _ _ _ _ _ _ Hv0) as [Hk' [Hnd Hget]].
      rewrite (names_of_read c names Hres Hread Hv1).
      split; [rewrite Hk', Hk; reflexivity|]. split; [apply Hnd; exact Hn|].
      intros f c0 Hf. rewrite Hget in Hf. destruct (mem f names) eqn:E.
      * injection Hf as <-. split; [apply in_or_app; right; left; reflexivity|].
        unfold defines. rewrite (names_of_read c names Hres Hread Hv1).
        apply mem_In. exact E.
      * destruct (Hg f c0 Hf) as [Hin Hd].
        split; [apply in_or_app; left; exact Hin | exact Hd].
    + injection Hv0 as <-. rewrite (names_of_none c Hres Hread), app_nil_r.
      split; [exact Hk|]. split; [exact Hn|].
      intros f c0 Hf. destruct (Hg f c0 Hf) as [Hin Hd].
      split; [apply in_or_app; left; exact Hin | exact Hd].
Qed.

Lemma read_chars_registered (fNm inLine tmpLine : string) (st st' : readSt) :
  registered (prog st) -> read_chars fNm inLine tmpLine st = OK st' ->
  registered (prog st').
Proof.
  revert st. induction tmpLine as [|ch rest IH]; intros st Hr H.
  - simpl in H. injection H as <-. exact Hr.
  - simpl in H.
    destruct (if Ascii.eqb ch "(" then (true, (parenCnt st + 1)%Z)
              else if Ascii.eqb ch ")" then (inParens st, (parenCnt st - 1)%Z)
              else (inParens st, parenCnt st)) as [ip pcnt].
    destruct (pcnt <? 0)%Z; [discriminate|].
    destruct (ip && (pcnt =? 0)%Z).
    + destruct rest; [|discriminate]. inv_bind H.
      refine (IH _ _ H). simpl. exact (proj1 (AddCmd_registered _ _ _ Hr Hv)).
    + refine (IH _ _ H). simpl. exact Hr.
Qed.

Lemma read_line_registered (fNm inLine : string) (st st' : readSt) :
  registered (prog st) -> read_line fNm inLine st = OK st' -> registered (prog st').
Proof.
  unfold read_line. intros Hr H.
  destruct (if String.eqb (cmdLine st) "" then (inLine, S (inLineCnt st))
            else (cmdStartLine st, cmdStartLineNum st)) as [a b].
  refine (read_chars_registered _ _ _ _ _ _ H). simpl. exact Hr.
Qed.

Lemma read_program_registered (fNm : string) (lines : list string) (p : progSt) :
  read_program fNm lines = OK p -> registered p /\ unorderedCmds p <> [].
Proof.
  unfold read_program. intro H. inv_bind H. rename v into st.
  destruct (0 <? parenCnt st)%Z; [discriminate|].
  destruct (List.length (unorderedCmds (prog st)) =? 0)%nat eqn:E; [discriminate|].
  injection H as <-. split.
  - refine (for_each_inv (fun s => registered (prog s)) lines (read_line fNm)
              (fun x s s' Hs Hb => read_line_registered fNm x s s' Hs Hb) _ _ _ Hv).
    exact registered_empty.
  - intro He. rewrite He in E. discriminate.
Qed.

End RegisterFacts.

(** ** The ordered list *)

Section OrderFacts.
Import PyStr PyRe PyDict Cmd Prog Spec Sched.
Local Open Scope string_scope.

Lemma closed_nil : closed [] [].
Proof.
  split.
  - intros f [].
  - intros j c2 f H. destruct j; discriminate.
Qed.

Lemma read_cmd_no_depends (c : EEMSCmd) (f : string) :
  IsReadCmd c = true -> ~ references c f.
Proof.
  intros Hr [deps [Hd Hin]]. unfold GetDependFieldNms in Hd. rewrite Hr in Hd.
  injection Hd as <-. contradiction.
Qed.

(** Appending a command whose names are [names] and whose references
    are all defined keeps the lists closed. *)
Lemma closed_snoc (ord : list EEMSCmd) (dp : list string) (c : EEMSCmd)
    (names : list string) :
  closed ord dp ->
  (forall f, In f names -> defines c f) ->
  (forall f, references c f -> In f dp) ->
  closed (ord ++ [c]) (dp ++ names).
Proof.
  intros [H1 H2] Hn Hr. split.
  - intros f Hf. apply in_app_or in Hf. destruct Hf as [Hf|Hf].
    + destruct (H1 f Hf) as [i [c1 [Hi Hd]]]. exists i, c1. split; [|exact Hd].
      rewrite nth_error_app1; [exact Hi|]. apply nth_error_Some. congruence.
    + exists (List.length ord), c. split; [|apply Hn; exact Hf].
      rewrite nth_error_app2, Nat.sub_diag by lia. reflexivity.
  - intros j c2 f Hj Hf.
    destruct (Nat.lt_ge_cases j (List.length ord)) as [Hlt|Hge].
    + rewrite nth_error_app1 in Hj by exact Hlt.
      destruct (H2 j c2 f Hj Hf) as [i [c1 [Hij [Hi Hd]]]].
      exists i, c1. split; [exact Hij|]. split; [|exact Hd].
      rewrite nth_error_app1; [exact Hi | lia].
    + rewrite nth_error_app2 in Hj by exact Hge.
      destruct (j - List.length ord)%nat as [|k] eqn:E; simpl in Hj.
      * injection Hj as <-. destruct (H1 f (Hr f Hf)) as [i [c1 [Hi Hd]]].
        assert (Hlt : (i < List.length ord)%nat) by (apply nth_error_Some; congruence).
        exists i, c1. split; [lia|]. split; [|exact Hd].
        rewrite nth_error_app1; [exact Hi | exact Hlt].
      * destruct k; discriminate.
Qed.

Lemma try_order_closed (c : EEMSCmd) (ord ord' : list EEMSCmd) (dp dp' : list string) :
  (IsReadCmd c = true -> rslt (parsedCmd c) = None) ->
  closed ord dp ->
  try_order c ord dp = OK (Some (ord', dp')) ->
  closed ord' dp'.
Proof.
  intros Hgood Hc H. unfold try_order in H. destruct (IsReadCmd c) eqn:Hr.
  - inv_bind H. rename v into names. injection H as <- <-.
    apply closed_snoc; [exact Hc| |].
    + intros f Hf. unfold defines.
      rewrite (names_of_read c names); [exact Hf| |exact Hr|exact Hv].
      unfold HasResultName. rewrite (Hgood eq_refl). reflexivity.
    + intros f Hf. exfalso. exact (read_cmd_no_depends c f Hr Hf).
  - inv_bind H. rename v into deps.
    destruct (forallb (fun dependFldNm => mem dependFldNm dp) deps) eqn:Ha; [|discriminate].
    inv_bind H. rename v into r. injection H as <- <-.
    apply closed_snoc; [exact Hc| |].
    + intros f Hf. unfold defines. rewrite (names_of_result c r); [exact Hf| |exact Hv0].
      unfold HasResultName. unfold GetResultName in Hv0.
      destruct (rslt (parsedCmd c)); [reflexivity | discriminate].
    + intros f [deps' [Hd Hin]]. rewrite Hv in Hd. injection Hd as <-.
      rewrite forallb_forall in Ha. apply mem_In. apply Ha. exact Hin.
Qed.

Lemma sweep_rec_closed (l : list EEMSCmd) (ord : list EEMSCmd) (dp : list string)
    (st : orderSt) :
  Forall constructed l -> closed ord dp ->
  sweep_rec l ord dp = OK st ->
  closed (orderedCmds st) (dpndsInOrderedCmds st).
Proof.
  revert st. induction l as [|c tl IH]; simpl; intros st Hl Hc H.
  - injection H as <-. exact Hc.
  - inversion Hl as [|? ? Hcc Htl]; subst.
    inv_bind H. rename v into st0. inv_bind H. rename v into o.
    pose proof (IH st0 Htl Hc Hv) as Hc0.
    destruct o as [[ord' dp']|]; injection H as <-; simpl; [|exact Hc0].
    apply (try_order_closed c _ _ _ _ (read_cmd_no_result c Hcc) Hc0 Hv0).
Qed.

Lemma sweep_closed (st st' : orderSt) :
  Forall constructed (toOrder st) ->
  closed (orderedCmds st) (dpndsInOrderedCmds st) ->
  sweep st = OK st' ->
  closed (orderedCmds st') (dpndsInOrderedCmds st').
Proof.
  rewrite sweep_eq. apply sweep_rec_closed.
Qed.

(** What the loop returns: every command, in an order that is closed. *)
Lemma order_loop_OK (n : nat) (st : orderSt) (res : list EEMSCmd) :
  Forall constructed (toOrder st) ->
  closed (orderedCmds st) (dpndsInOrderedCmds st) ->
  (List.length (toOrder st) <= n)%nat ->
  order_loop n st = OK res ->
  Permutation res (orderedCmds st ++ toOrder st)
  /\ exists dp, closed res dp.
Proof.
  revert st. induction n as [|n IH]; intros st Hl Hc Hn H.
  - simpl in H. injection H as <-.
    destruct (toOrder st); [|simpl in Hn; lia]. rewrite app_nil_r.
    split; [apply Permutation_refl | eauto].
  - simpl in H. destruct (0 <? List.length (toOrder st))%nat eqn:E0.
    + inv_bind H. rename v into st'.
      destruct (List.length (toOrder st) =? List.length (toOrder st'))%nat eqn:E1;
        [discriminate|].
      apply Nat.eqb_neq in E1.
      destruct (sweep_moves st st' Hv) as [m [Ho [_ [_ [Hp [Hlen _]]]]]].
      assert (Hl' : Forall constructed (toOrder st')).
      { rewrite Forall_forall in *. intros x Hx. apply Hl.
        apply (Permutation_in x (Permutation_sym Hp)). apply in_or_app. left. exact Hx. }
      destruct (IH st' Hl' (sweep_closed st st' Hl Hc Hv) ltac:(lia) H) as [Hperm Hcl].
      split; [|exact Hcl].
      rewrite Hperm, Ho, <- app_assoc. apply Permutation_app_head.
      rewrite Hp. rewrite (Permutation_app_comm (toOrder st') m).
      apply Permutation_app_tail. apply Permutation_sym, Permutation_rev.
    + apply Nat.ltb_ge in E0. injection H as <-.
      destruct (toOrder st); [|simpl in E0; lia]. rewrite app_nil_r.
      split; [apply Permutation_refl | eauto].
Qed.

Lemma flat_map_index {A B : Type} (g : A -> list B) (l : list A) (i i' : nat)
    (a a' : A) (f : B) :
  NoDup (flat_map g l) ->
  nth_error l i = Some a -> nth_error l i' = Some a' ->
  In f (g a) -> In f (g a') -> i = i'.
Proof.
  revert i i'. induction l as [|x l IH]; intros i i' Hn Hi Hi' Hf Hf'.
  - destruct i; discriminate.
  - simpl in Hn. destruct i as [|i], i' as [|i']; simpl in Hi, Hi'.
    + reflexivity.
    + injection Hi as ->. exfalso. apply (NoDup_app_disjoint _ _ f Hn Hf).
      apply in_flat_map. exists a'. split; [eapply nth_error_In; eauto | exact Hf'].
    + injection Hi' as ->. exfalso. apply (NoDup_app_disjoint _ _ f Hn Hf').
      apply in_flat_map. exists a. split; [eapply nth_error_In; eauto | exact Hf].
    + f_equal. apply (IH i i' (NoDup_app_r _ _ Hn) Hi Hi' Hf Hf').
Qed.


(** The parts of a successful loading. *)
Lemma EEMSProgram_init_OK (fNm : string) (lines : list string) (prog : EEMSProgram) :
  EEMSProgram_init fNm lines = OK prog ->
  exists p, read_program fNm lines = OK p
            /\ check_missing (unorderedCmds p) (allDefinedFieldNms p) = OK tt
            /\ order_loop (List.length (unorderedCmds p)) (start_state p)
               = OK (progOrderedCmds prog)
            /\ progDefinedFieldNms prog = allDefinedFieldNms p
            /\ crntCmdNdx prog = Some 0%Z.
Proof.
  unfold EEMSProgram_init. intro H. inv_bind H. rename v into p. inv_bind H.
  injection H as <-. simpl. unfold OrderCmds in Hv0. inv_bind Hv0. destruct v0.
  exists p. auto.
Qed.

Lemma loaded_order (fNm : string) (lines : list string) (prog : EEMSProgram) :
  EEMSProgram_init fNm lines = OK prog ->
  exists p, read_program fNm lines = OK p
            /\ registered p
            /\ Permutation (progOrderedCmds prog) (unorderedCmds p)
            /\ exists dp, closed (progOrderedCmds prog) dp.
Proof.
  intro H. destruct (EEMSProgram_init_OK _ _ _ H) as [p [Hp [_ [Ho _]]]].
  destruct (read_program_registered _ _ _ Hp) as [Hr _].
  exists p. split; [exact Hp|]. split; [exact Hr|].
  destruct Hr as [Hc _].
  exact (order_loop_OK _ (start_state p) _ Hc closed_nil (le_n _) Ho).
Qed.



(** X5.  Loading loses no command and repeats none: the ordered list of
    a loaded program is a rearrangement of the commands of its
    statements, each of them a command that passed construction, and
    there is at least one; the cursor stands at the first one. *)
Theorem loaded_order_is_permutation (fNm : string) (lines : list string)
    (prog : EEMSProgram) :
  EEMSProgram_init fNm lines = OK prog ->
  exists p, read_program fNm lines = OK p
            /\ Permutation (progOrderedCmds prog) (unorderedCmds p)
            /\ Forall constructed (progOrderedCmds prog)
            /\ progOrderedCmds prog <> []
            /\ progDefinedFieldNms prog = allDefinedFieldNms p
            /\ crntCmdNdx prog = Some 0%Z.
Proof.
  intro H. destruct (loaded_order _ _ _ H) as [p [Hp [Hr [Hperm _]]]].
  destruct (EEMSProgram_init_OK _ _ _ H) as [p' [Hp' [_ [_ [Hd Hc]]]]].
  rewrite Hp in Hp'. injection Hp' as <-.
  destruct (read_program_registered _ _ _ Hp) as [_ Hne].
  exists p. split; [exact Hp|]. split; [exact Hperm|]. split.
  - destruct Hr as [Hcs _]. rewrite Forall_forall in *. intros x Hx. apply Hcs.
    apply (Permutation_in x Hperm Hx).
  - split; [|split; assumption].
    intro He. rewrite He in Hperm. apply Permutation_nil in Hperm. contradiction.
Qed.

Lemma loaded_order_is_permutation_witness :
  exists prog p,
    EEMSProgram_init "prog.eem" chain_program = OK prog
    /\ read_program "prog.eem" chain_program = OK p
    /\ Permutation (progOrderedCmds prog) (unorderedCmds p).
Proof.
  assert (H : exists prog, EEMSProgram_init "prog.eem" chain_program = OK prog)
    by (eexists; vm_compute; reflexivity).
  destruct H as [prog H].
  destruct (loaded_order_is_permutation _ _ _ H) as [p [Hp [Hperm _]]].
  exists prog, p. split; [exact H|]. split; [exact Hp | exact Hperm].
Defined.

(** X6.  [__AddCmd] lets no field be defined twice: in the commands a
    program file is read into, two commands that define the same field
    are the same statement; the registry of the defined names holds
    each name once, in the order of the statements, and binds each name
    to a command of the program that defines it. *)
Theorem read_program_defines_once (fNm : string) (lines : list string) (p : progSt) :
  read_program fNm lines = OK p ->
  keys (allDefinedFieldNms p) = flat_map names_of (unorderedCmds p)
  /\ NoDup (keys (allDefinedFieldNms p))
  /\ (forall f c, get (allDefinedFieldNms p) f = Some c ->
        In c (unorderedCmds p) /\ defines c f)
  /\ (forall i j c1 c2 f,
        nth_error (unorderedCmds p) i = Some c1 ->
        nth_error (unorderedCmds p) j = Some c2 ->
        defines c1 f -> defines c2 f -> i = j).
Proof.
  intro H. destruct (read_program_registered _ _ _ H) as [[_ [Hk [Hn Hg]]] _].
  split; [exact Hk|]. split; [exact Hn|]. split; [exact Hg|].
  intros i j c1 c2 f Hi Hj H1 H2. rewrite Hk in Hn.
  exact (flat_map_index names_of _ i j c1 c2 f Hn Hi Hj H1 H2).
Qed.

Lemma read_program_defines_once_witness :
  exists p,
    read_program "prog.eem" chain_program = OK p
    /\ NoDup (keys (allDefinedFieldNms p)).
Proof.
  assert (H : exists p, read_program "prog.eem" chain_program = OK p)
    by (eexists; vm_compute; reflexivity).
  destruct H as [p H]. exists p. split; [exact H|].
  exact (proj1 (proj2 (read_program_defines_once _ _ _ H))).
Defined.

End OrderFacts.

(** ** The circular logic error *)

Section CycleFacts.
Import PyStr PyDict Cmd Prog Spec Sched.
Local Open Scope string_scope.

Lemma str_app_assoc (a b c : string) : (a ++ b) ++ c = a ++ b ++ c.
Proof. induction a as [|x a IH]; simpl; [reflexivity | f_equal; exact IH]. Qed.

Lemma str_app_nil_r (a : string) : a ++ "" = a.
Proof. induction a as [|x a IH]; simpl; [reflexivity | f_equal; exact IH]. Qed.

Lemma concat_cons (x : string) (l : list string) :
  String.concat "" (x :: l) = x ++ String.concat "" l.
Proof. destruct l; simpl; [symmetry; apply str_app_nil_r | reflexivity]. Qed.

Lemma occurs_in_app_l (sub pre s : string) : occurs_in sub s -> occurs_in sub (pre ++ s).
Proof.
  intros [a [b ->]]. exists (pre ++ a), b. symmetry. apply str_app_assoc.
Qed.

Lemma occurs_in_sub (pre sub post : string) : occurs_in sub (pre ++ sub ++ post).
Proof. exists pre, post. reflexivity. Qed.

Lemma occurs_in_inner (a sub b s : string) :
  occurs_in (a ++ sub ++ b) s -> occurs_in sub s.
Proof.
  intros [pre [post ->]]. exists (pre ++ a), (b ++ post).
  rewrite !str_app_assoc. reflexivity.
Qed.

Lemma occurs_in_concat (f : EEMSCmd -> string) (l : list EEMSCmd) (c : EEMSCmd) :
  In c l -> occurs_in (f c) (String.concat "" (map f l)).
Proof.
  induction l as [|x l IH]; simpl map; intro H; [contradiction|].
  rewrite concat_cons. destruct H as [->|H].
  - exists "", (String.concat "" (map f l)). reflexivity.
  - apply occurs_in_app_l. apply IH. exact H.
Qed.

(** The message of the error has the line of every command it is given. *)
Lemma circular_logic_lists (remaining : list EEMSCmd) (c : EEMSCmd) :
  In c remaining ->
  occurs_in ("  " ++ GetCommandString c ++ NL) (message (circular_logic remaining)).
Proof.
  intro H. unfold circular_logic, message.
  apply occurs_in_app_l. apply occurs_in_app_l.
  apply (occurs_in_concat (fun c => "  " ++ GetCommandString c ++ NL)). exact H.
Qed.

Lemma sweep_nil (ord : list EEMSCmd) (dp : list string) :
  sweep (mkOrderSt [] ord dp) = OK (mkOrderSt [] ord dp).
Proof. reflexivity. Qed.

(** The loop run from a state is the loop run from any state it goes
    through. *)
Lemma reaches_order_loop (st0 st : orderSt) :
  reaches st0 st ->
  forall n, (List.length (toOrder st0) <= n)%nat ->
  exists m, (List.length (toOrder st) <= m)%nat /\ order_loop n st0 = order_loop m st.
Proof.
  induction 1 as [st|st st1 st2 Hs Hne Hr IH]; intros n Hn.
  - exists n. split; [exact Hn | reflexivity].
  - pose proof (sweep_length_le st st1 Hs) as Hle.
    destruct n as [|n]; [lia|].
    destruct (IH n ltac:(lia)) as [m [Hm He]].
    exists m. split; [exact Hm|]. rewrite <- He. simpl.
    assert (E0 : (0 <? List.length (toOrder st))%nat = true) by (apply Nat.ltb_lt; lia).
    rewrite E0, Hs. simpl.
    assert (E1 : (List.length (toOrder st) =? List.length (toOrder st1))%nat = false)
      by (apply Nat.eqb_neq; lia).
    rewrite E1. reflexivity.
Qed.

(** C3.  When the ordering loop of a program comes to a state with
    commands left to order and the sweep of that state moves none of
    them, [__OrderCmds] raises the circular logic error, whose message
    has the line of every command that is left; the commands left after
    the sweep are the ones before it.  The error of [__OrderCmds] is the
    error of the loading.  The program of the two commands D and E, each
    the OR of the other, fails to load with this error, and the message
    has the text of both commands. *)
Theorem circular_dependency_error :
  (forall p st st',
      reaches (start_state p) st ->
      sweep st = OK st' ->
      (0 < List.length (toOrder st))%nat ->
      List.length (toOrder st') = List.length (toOrder st) ->
      toOrder st' = toOrder st
      /\ order_loop (List.length (unorderedCmds p)) (start_state p)
         = Raise (circular_logic (toOrder st))
      /\ (check_missing (unorderedCmds p) (allDefinedFieldNms p) = OK tt ->
          OrderCmds p = Raise (circular_logic (toOrder st)))
      /\ (forall c, In c (toOrder st) ->
            occurs_in ("  " ++ GetCommandString c ++ NL)
              (message (circular_logic (toOrder st)))))
  /\ (forall fNm lines p e,
         read_program fNm lines = OK p -> OrderCmds p = Raise e ->
         EEMSProgram_init fNm lines = Raise e)
  /\ (EEMSProgram_init "prog.eem" cycle_program
      = Raise (circular_logic [cmd_of "D = OR(InFieldNames=[E])";
                               cmd_of "E = OR(InFieldNames=[D])"])
      /\ occurs_in "D = OR(InFieldNames=[E])"
           (message (circular_logic [cmd_of "D = OR(InFieldNames=[E])";
                                     cmd_of "E = OR(InFieldNames=[D])"]))
      /\ occurs_in "E = OR(InFieldNames=[D])"
           (message (circular_logic [cmd_of "D = OR(InFieldNames=[E])";
                                     cmd_of "E = OR(InFieldNames=[D])"]))).
Proof.
  split; [|split].
  - intros p st st' Hr Hs Hpos Hlen.
    pose proof (sweep_no_progress st st' Hs Hlen) as Heq.
    assert (Hloop : order_loop (List.length (unorderedCmds p)) (start_state p)
                    = Raise (circular_logic (toOrder st))).
    { destruct (reaches_order_loop _ _ Hr (List.length (unorderedCmds p)) (le_n _))
        as [m [Hm He]].
      rewrite He. destruct m as [|m]; [lia|]. simpl.
      assert (E0 : (0 <? List.length (toOrder st))%nat = true) by (apply Nat.ltb_lt; lia).
      rewrite E0, Hs. simpl. rewrite <- Hlen, Nat.eqb_refl, Heq. reflexivity. }
    split; [exact Heq|]. split; [exact Hloop|]. split.
    + intro Hc. unfold OrderCmds. rewrite Hc. simpl. exact Hloop.
    + intros c Hc. apply circular_logic_lists. exact Hc.
  - intros fNm lines p e Hp He. unfold EEMSProgram_init. rewrite Hp. simpl.
    rewrite He. reflexivity.
  - split; [vm_compute; reflexivity|]. split.
    + apply (occurs_in_inner "  " _ NL).
      apply (circular_logic_lists _ (cmd_of "D = OR(InFieldNames=[E])")).
      left. reflexivity.
    + apply (occurs_in_inner "  " _ NL).
      apply (circular_logic_lists _ (cmd_of "E = OR(InFieldNames=[D])")).
      right. left. reflexivity.
Qed.

(** The first sweep of the cycle program is a sweep that moves nothing. *)
Lemma circular_dependency_error_witness :
  exists p,
    read_program "prog.eem" cycle_program = OK p
    /\ sweep (start_state p) = OK (start_state p)
    /\ order_loop (List.length (unorderedCmds p)) (start_state p)
       = Raise (circular_logic (toOrder (start_state p))).
Proof.
  assert (Hp : exists p, read_program "prog.eem" cycle_program = OK p
                         /\ sweep (start_state p) = OK (start_state p)
                         /\ (0 < List.length (toOrder (start_state p)))%nat).
  { eexists. split; [vm_compute; reflexivity|]. split; [vm_compute; reflexivity|].
    simpl. lia. }
  destruct Hp as [p [Hp [Hs Hpos]]]. exists p. split; [exact Hp|]. split; [exact Hs|].
  exact (proj1 (proj2 (proj1 circular_dependency_error p _ _
                         (reaches_here _) Hs Hpos eq_refl))).
Defined.

End CycleFacts.

(** ** The check for an undefined field *)

Section MissingFacts.
Import PyStr PyRe PyDict Cmd Prog Spec Sched.
Local Open Scope string_scope.

(** The inner loop of the check, over the names one command depends on. *)
Lemma check_names_cases (defs : dict EEMSCmd) (c : EEMSCmd) (deps : list string) :
  (Forall (fun f => In f (keys defs)) deps
   /\ for_each deps
        (fun dependNm (_ : unit) =>
           if negb (mem dependNm (keys defs)) then Raise (undefined_field dependNm c)
           else OK tt) tt = OK tt)
  \/ (exists f, In f deps /\ ~ In f (keys defs)
      /\ for_each deps
           (fun dependNm (_ : unit) =>
              if negb (mem dependNm (keys defs)) then Raise (undefined_field dependNm c)
              else OK tt) tt = Raise (undefined_field f c)).
Proof.
  induction deps as [|d deps IH]; simpl.
  - left. split; [constructor | reflexivity].
  - destruct (mem d (keys defs)) eqn:E; simpl.
    + apply mem_In in E. destruct IH as [[Ha Ho]|[f [Hin [Hn Hr]]]].
      * left. split; [constructor; assumption | exact Ho].
      * right. exists f. split; [right; exact Hin|]. split; assumption.
    + right. exists d. split; [left; reflexivity|]. split; [|reflexivity].
      apply mem_false. exact E.
Qed.

(** The check over the commands: it passes with every reference
    defined, or raises for the first command, in the order of the
    statements, with a reference that is not. *)
Lemma check_missing_cases (defs : dict EEMSCmd) (cmds : list EEMSCmd) :
  Forall constructed cmds ->
  ((forall c f, In c cmds -> references c f -> In f (keys defs))
   /\ check_missing cmds defs = OK tt)
  \/ (exists pre c post f,
        cmds = (pre ++ c :: post)%list
        /\ (forall c0 f0, In c0 pre -> references c0 f0 -> In f0 (keys defs))
        /\ references c f /\ ~ In f (keys defs)
        /\ check_missing cmds defs = Raise (undefined_field f c)).
Proof.
  unfold check_missing. induction cmds as [|c cmds IH]; intro Hc.
  - left. split; [intros c f [] | reflexivity].
  - inversion Hc as [|? ? Hcc Hcs]; subst.
    destruct (constructed_depends c Hcc) as [deps Hd].
    assert (Hstep : forall r,
               for_each deps
                 (fun dependNm (_ : unit) =>
                    if negb (mem dependNm (keys defs))
                    then Raise (undefined_field dependNm c) else OK tt) tt = r ->
               for_each (c :: cmds) (check_depends defs) tt
               = bind r (fun s' => for_each cmds (check_depends defs) s')).
    { intros r <-. simpl. unfold check_depends at 1. rewrite Hd. reflexivity. }
    destruct (check_names_cases defs c deps) as [[Ha Ho]|[f [Hin [Hn Hr]]]].
    + rewrite Forall_forall in Ha.
      assert (Hhere : forall f, references c f -> In f (keys defs)).
      { intros f [deps' [Hd' Hf]]. rewrite Hd in Hd'. injection Hd' as <-.
        apply Ha. exact Hf. }
      destruct (IH Hcs) as [[Hall Hok]|[pre [c' [post [f [He [Hpre [Hr [Hn Hraise]]]]]]]]].
      * left. split; [|rewrite (Hstep _ Ho); exact Hok].
        intros c0 f [<-|Hin] Hf; [apply Hhere; exact Hf | apply (Hall c0 f Hin Hf)].
      * right. exists (c :: pre), c', post, f. split; [rewrite He; reflexivity|].
        split; [|split; [exact Hr | split; [exact Hn | rewrite (Hstep _ Ho); exact Hraise]]].
        intros c0 f0 [<-|Hin] Hf; [apply Hhere; exact Hf | apply (Hpre c0 f0 Hin Hf)].
    + right. exists [], c, cmds, f. split; [reflexivity|].
      split; [intros c0 f0 []|]. split; [exists deps; split; assumption|].
      split; [exact Hn|]. rewrite (Hstep _ Hr). reflexivity.
Qed.

Lemma undefined_not_circular (f : string) (c : EEMSCmd) (l : list EEMSCmd) :
  undefined_field f c <> circular_logic l.
Proof.
  unfold undefined_field, circular_logic. intro H. injection H as H.
  vm_compute in H. discriminate.
Qed.

(** C4.  When a command of a program that was read references a field
    that no command of the program defines, loading fails in the check
    that [__OrderCmds] makes before its ordering loop: the check raises
    the undefined-field error for the first command, in the order of
    the statements, with such a reference; that is the error of
    [__OrderCmds] and of the loading, its message holds the statement
    of that command, and it is no circular-logic error. *)
Theorem undefined_field_fails_before_ordering (fNm : string) (lines : list string)
    (p : progSt) (c : EEMSCmd) (f : string) :
  read_program fNm lines = OK p ->
  In c (unorderedCmds p) ->
  references c f ->
  (forall c0, In c0 (unorderedCmds p) -> ~ defines c0 f) ->
  exists pre c' post f',
    unorderedCmds p = (pre ++ c' :: post)%list
    /\ (forall c0 f0, In c0 pre -> references c0 f0 ->
          exists c1, In c1 (unorderedCmds p) /\ defines c1 f0)
    /\ references c' f'
    /\ (forall c0, In c0 (unorderedCmds p) -> ~ defines c0 f')
    /\ IsReadCmd c' = false
    /\ check_missing (unorderedCmds p) (allDefinedFieldNms p)
       = Raise (undefined_field f' c')
    /\ OrderCmds p = Raise (undefined_field f' c')
    /\ EEMSProgram_init fNm lines = Raise (undefined_field f' c')
    /\ occurs_in (GetCommandString c') (message (undefined_field f' c'))
    /\ (forall l, undefined_field f' c' <> circular_logic l).
Proof.
  intros Hp Hin Href Hundef.
  destruct (read_program_registered _ _ _ Hp) as [[Hc [Hk [Hn Hg]]] _].
  assert (Hdef : forall x, In x (keys (allDefinedFieldNms p)) <->
                           exists c1, In c1 (unorderedCmds p) /\ defines c1 x).
  { intro x. rewrite Hk, in_flat_map. reflexivity. }
  destruct (check_missing_cases (allDefinedFieldNms p) _ Hc)
    as [[Hall _]|[pre [c' [post [f' [He [Hpre [Hr [Hnot Hraise]]]]]]]]].
  - exfalso. pose proof (Hall c f Hin Href) as Hf. apply Hdef in Hf.
    destruct Hf as [c1 [H1 H2]]. exact (Hundef c1 H1 H2).
  - exists pre, c', post, f'. split; [exact He|].
    split; [intros c0 f0 H0 Hf0; apply Hdef; apply (Hpre c0 f0 H0 Hf0)|].
    split; [exact Hr|].
    split; [intros c0 H0 Hd0; apply Hnot; apply Hdef; exists c0; split; assumption|].
    split.
    { destruct (IsReadCmd c') eqn:E; [|reflexivity].
      exfalso. exact (read_cmd_no_depends c' f' E Hr). }
    split; [exact Hraise|].
    assert (Ho : OrderCmds p = Raise (undefined_field f' c')).
    { unfold OrderCmds. rewrite Hraise. reflexivity. }
    split; [exact Ho|].
    split; [unfold EEMSProgram_init; rewrite Hp; simpl; rewrite Ho; reflexivity|].
    split; [|intro l; apply undefined_not_circular].
    unfold undefined_field, message.
    exists (banner ++ "Command depends on undefined field *" ++ f' ++ "*" ++ NL ++
            "Full command with error:" ++ NL ++ "  "), NL.
    rewrite !str_app_assoc. reflexivity.
Qed.

(** A program whose second statement reads a field Z that nothing
    defines. *)
Lemma undefined_field_fails_before_ordering_witness :
  exists c' f',
    EEMSProgram_init "prog.eem" undefined_program = Raise (undefined_field f' c').
Proof.
  assert (H : exists p c,
             read_program "prog.eem" undefined_program = OK p
             /\ unorderedCmds p = [cmd_of "READ(InFileName=in,InFieldName=A)"; c]
             /\ GetDependFieldNms c = OK ["Z"]
             /\ forallb (fun c0 => negb (mem "Z" (names_of c0))) (unorderedCmds p) = true).
  { eexists. eexists. split; [vm_compute; reflexivity|].
    split; [vm_compute; reflexivity|]. split; vm_compute; reflexivity. }
  destruct H as [p [c [Hp [Hl [Hd Hall]]]]].
  assert (Hin : In c (unorderedCmds p)) by (rewrite Hl; right; left; reflexivity).
  assert (Href : references c "Z") by (exists ["Z"]; split; [exact Hd | left; reflexivity]).
  assert (Hun : forall c0, In c0 (unorderedCmds p) -> ~ defines c0 "Z").
  { intros c0 H0 Hd0. rewrite forallb_forall in Hall. specialize (Hall c0 H0).
    apply negb_true_iff in Hall. apply mem_false in Hall. exact (Hall Hd0). }
  destruct (undefined_field_fails_before_ordering _ _ p c "Z" Hp Hin Href Hun)
    as [pre [c' [post [f' [_ [_ [_ [_ [_ [_ [_ [Hi _]]]]]]]]]]]].
  exists c', f'. exact Hi.
Defined.

End MissingFacts.

(** ** The order of the commands one sweep moves *)

Section TieFacts.
Import PyStr PyDict Cmd Prog Spec Sched.
Local Open Scope string_scope.

(** Two reads, declared A then B, both eligible in the first sweep, are
    ordered B then A. *)
Lemma two_reads_ordered_last_first :
  (p <- read_program "prog.eem" two_reads ;;
   OK (map GetCommandString (unorderedCmds p)))
  = OK ["READ(InFileName=in,InFieldName=A)"; "READ(InFileName=in,InFieldName=B)"]
  /\ (p <- read_program "prog.eem" two_reads ;;
      OK (map GetDependFieldNms (unorderedCmds p)))
     = OK [OK []; OK []]
  /\ (p <- read_program "prog.eem" two_reads ;;
      st <- sweep (start_state p) ;;
      OK (map GetCommandString (orderedCmds st), List.length (toOrder st)))
     = OK (["READ(InFileName=in,InFieldName=B)"; "READ(InFileName=in,InFieldName=A)"], 0%nat)
  /\ (p <- EEMSProgram_init "prog.eem" two_reads ;;
      OK (map GetCommandString (progOrderedCmds p)))
     = OK ["READ(InFileName=in,InFieldName=B)"; "READ(InFileName=in,InFieldName=A)"].
Proof.
  split; [vm_compute; reflexivity|]. split; [vm_compute; reflexivity|].
  split; vm_compute; reflexivity.
Qed.

(** C5.  In every sweep of the ordering loop, the
    commands the sweep moves are appended to the ordered list in the
    reverse of their declaration order: the ordered list grows by the
    reverse of a list [moved] that is in declaration order.  Every
    command that is eligible when the sweep starts is among them, and
    the commands left to order stay in declaration order. *)
Theorem sweep_appends_last_declared_first (p : progSt) (st st' : orderSt) :
  reaches (start_state p) st ->
  sweep st = OK st' ->
  exists moved,
    orderedCmds st' = (orderedCmds st ++ rev moved)%list
    /\ subseq moved (unorderedCmds p)
    /\ subseq (toOrder st') (unorderedCmds p)
    /\ Permutation (toOrder st) (toOrder st' ++ moved)
    /\ (forall c, In c (toOrder st) -> eligible c (dpndsInOrderedCmds st) -> In c moved).
Proof.
  intros Hr Hs.
  destruct (sweep_moves st st' Hs) as [m [Ho [Hm [Hrest [Hp [_ [_ He]]]]]]].
  pose proof (reaches_subseq _ _ Hr) as Hsub. simpl in Hsub.
  exists m. split; [exact Ho|].
  split; [exact (subseq_trans _ _ _ Hm Hsub)|].
  split; [exact (subseq_trans _ _ _ Hrest Hsub)|].
  split; [exact Hp | exact He].
Qed.

(** The first sweep of the two reads. *)
Lemma sweep_appends_last_declared_first_witness :
  exists p st' moved,
    read_program "prog.eem" two_reads = OK p
    /\ sweep (start_state p) = OK st'
    /\ orderedCmds st' = (rev moved)%list
    /\ subseq moved (unorderedCmds p).
Proof.
  assert (H : exists p st', read_program "prog.eem" two_reads = OK p
                            /\ sweep (start_state p) = OK st').
  { eexists. eexists. split; [vm_compute; reflexivity|]. vm_compute. reflexivity. }
  destruct H as [p [st' [Hp Hs]]].
  destruct (sweep_appends_last_declared_first p (start_state p) st' (reaches_here _) Hs)
    as [moved [Ho [Hm _]]].
  exists p, st', moved.
  split; [exact Hp|]. split; [exact Hs|]. split; [exact Ho | exact Hm].
Defined.

End TieFacts.

(** ** The range of the fuzzy operators *)

Section RangeFacts.
Import PyStr PyDict Cmd Runner Spec.
Local Open Scope string_scope.




Lemma bind_no_result {A : Type} (c : result A) (k : A -> result runner) :
  (forall a, c = OK a -> no_result (k a)) -> no_result (bind c k).
Proof.
  intros H r' Hr. inv_bind Hr. apply (H v Hv r' Hr).
Qed.

(** The name [stackedArrs] is not bound when it is used. *)
Lemma use_stackedArrs_no_result : no_result (@use_stackedArrs runner).
Proof. intros r' H. discriminate. Qed.

Lemma FuzzyXOr_no_result (r : runner) (names : list string) (o n : string) :
  no_result (FuzzyXOr r names o n).
Proof.
  unfold FuzzyXOr. destruct (List.length names <? 2)%nat.
  - apply bind_no_result. intros first _ r' H. discriminate.
  - repeat (apply bind_no_result; intros ? ?). apply use_stackedArrs_no_result.
Qed.




End RangeFacts.

(** ** The cardinality checks of command construction *)

Section CardinalityFacts.
Import PyStr PyRe PyDict Cmd Spec.

Lemma len_list_param_Some (s : string) (l : list string) :
  ListFromListParam s = Some l -> len_list_param s = OK (List.length l).
Proof. unfold len_list_param. intros ->. reflexivity. Qed.

(** A command is constructed only if every check of [__ValidateCmd]
    passes, the two cardinality checks among them. *)
Lemma init_checks (stmt : string) (pc : parsedCmdT) (d : cmdDescT) :
  ParseEEMSCmd stmt = OK (pc, d) ->
  (exists e, check_weights stmt pc d = Raise e)
  \/ (exists e, check_number_to_consider stmt pc d = Raise e) ->
  exists e, EEMSCmd_init stmt = Raise e.
Proof.
  intros Hp Hc. unfold EEMSCmd_init. rewrite Hp. simpl. unfold ValidateCmd.
  destruct (check_result stmt pc d) as [[]|e1]; [|eexists; reflexivity]. simpl.
  destruct (check_param_names stmt pc d) as [[]|e2]; [|eexists; reflexivity]. simpl.
  destruct (check_required stmt pc d) as [[]|e3]; [|eexists; reflexivity]. simpl.
  destruct (check_values stmt pc d) as [?|e4]; [|eexists; reflexivity]. simpl.
  destruct (check_paired_lists stmt pc d) as [[]|e5]; [|eexists; reflexivity]. simpl.
  destruct Hc as [[e He]|[e He]].
  - rewrite He. eexists. reflexivity.
  - destruct (check_weights stmt pc d) as [[]|e6]; [|eexists; reflexivity]. simpl.
    rewrite He. eexists. reflexivity.
Qed.

(** C6.  A statement of a weighted command (WTDUNION, WTDMEAN, WTDSUM,
    WTDEMDSAND) whose list of field names and list of weights differ in
    length is no command: construction raises.  So does a SELECTEDUNION
    statement whose NumberToConsider is greater than the number of its
    field names.  The weighted mean of two fields with one weight fails
    with the message that counts 2 names and 1 weight (and without a
    result name it fails too), and the selected union of two fields
    with NumberToConsider 3 fails with the message that 3 is more than
    2. *)
Theorem construction_checks_cardinality :
  (forall stmt pc d names wts ln lw,
      ParseEEMSCmd stmt = OK (pc, d) ->
      In (cmd pc) weighted_cmds ->
      get (params pc) "InFieldNames" = Some names ->
      get (params pc) "Weights" = Some wts ->
      ListFromListParam names = Some ln ->
      ListFromListParam wts = Some lw ->
      List.length ln <> List.length lw ->
      exists e, EEMSCmd_init stmt = Raise e)
  /\ (forall stmt pc d ntxt n names ln,
         ParseEEMSCmd stmt = OK (pc, d) ->
         cmd pc = "SELECTEDUNION" ->
         get (params pc) "NumberToConsider" = Some ntxt ->
         py_int ntxt = OK n ->
         get (params pc) "InFieldNames" = Some names ->
         ListFromListParam names = Some ln ->
         (Z.of_nat (List.length ln) < n)%Z ->
         exists e, EEMSCmd_init stmt = Raise e)
  /\ EEMSCmd_init wtdmean_stmt
     = Raise (Exception
         (banner ++
          "Number of InFieldNames must be the same as the number of Weights." ++ NL ++
          "  Command has 2 InFieldNames and 1 Weights." ++ NL ++
          full_cmd_help wtdmean_stmt (desc_of "WTDMEAN")))
  /\ EEMSCmd_init wtdmean_bare_stmt = Raise (KeyError "rslt")
  /\ EEMSCmd_init selunion_stmt
     = Raise (Exception
         (banner ++
          "NumberToConsider can not be greater than number of InFieldNames." ++ NL ++
          "  Number to consider is 3, number of FieldNames is 2." ++ NL ++
          full_cmd_help selunion_stmt (desc_of "SELECTEDUNION"))).
Proof.
  split; [|split; [|split; [|split]]].
  - intros stmt pc d names wts ln lw Hp Hin Hn Hw Hln Hlw Hne.
    apply (init_checks stmt pc d Hp). left.
    unfold check_weights. apply mem_In in Hin. rewrite Hin.
    rewrite (item_get _ _ _ Hn). simpl. rewrite (len_list_param_Some _ _ Hln). simpl.
    rewrite (item_get _ _ _ Hw). simpl. rewrite (len_list_param_Some _ _ Hlw). simpl.
    apply Nat.eqb_neq in Hne. rewrite Hne. simpl. eexists. reflexivity.
  - intros stmt pc d ntxt n names ln Hp Hc Hnt Hint Hn Hln Hlt.
    apply (init_checks stmt pc d Hp). right.
    unfold check_number_to_consider. rewrite Hc. simpl mem.
    rewrite (item_get _ _ _ Hnt). simpl. rewrite Hint. simpl.
    rewrite (item_get _ _ _ Hn). simpl. rewrite (len_list_param_Some _ _ Hln). simpl.
    apply Z.ltb_lt in Hlt. rewrite Hlt. eexists. reflexivity.
  - vm_compute. reflexivity.
  - vm_compute. reflexivity.
  - vm_compute. reflexivity.
Qed.

(** The weighted mean of the example is a statement the first part
    speaks of. *)
Lemma construction_checks_cardinality_witness :
  exists pc d,
    ParseEEMSCmd wtdmean_stmt = OK (pc, d)
    /\ In (cmd pc) weighted_cmds
    /\ get (params pc) "InFieldNames" = Some "[X,Y]"
    /\ get (params pc) "Weights" = Some "[1]"
    /\ ListFromListParam "[X,Y]" = Some ["X"; "Y"]
    /\ ListFromListParam "[1]" = Some ["1"]
    /\ List.length ["X"; "Y"] <> List.length ["1"]
    /\ exists e, EEMSCmd_init wtdmean_stmt = Raise e.
Proof.
  assert (Hp : exists pc d,
             ParseEEMSCmd wtdmean_stmt = OK (pc, d)
             /\ In (cmd pc) weighted_cmds
             /\ get (params pc) "InFieldNames" = Some "[X,Y]"
             /\ get (params pc) "Weights" = Some "[1]").
  { eexists. eexists. split; [vm_compute; reflexivity|].
    split; [right; left; reflexivity|]. split; reflexivity. }
  destruct Hp as [pc [d [Hp [Hin [Hn Hw]]]]].
  assert (Hln : ListFromListParam "[X,Y]" = Some ["X"; "Y"]) by (vm_compute; reflexivity).
  assert (Hlw : ListFromListParam "[1]" = Some ["1"]) by (vm_compute; reflexivity).
  assert (Hne : List.length ["X"; "Y"] <> List.length ["1"]) by (simpl; lia).
  exists pc, d. repeat split; try assumption.
  exact (proj1 construction_checks_cardinality _ _ _ _ _ _ _ Hp Hin Hn Hw Hln Hlw Hne).
Defined.

End CardinalityFacts.

(** ** The conversion to fuzzy *)

Section CvtToFuzzyFacts.
Import PyStr PyDict Cmd Prog Runner Spec Sched.
Local Open Scope string_scope.

Lemma scalar_cell_scalar2 (f : float -> float -> float) (a b : scalar) :
  scalar_cell (scalar2 f a b) = lift2 f (scalar_cell a) (scalar_cell b).
Proof. destruct a, b; reflexivity. Qed.

Lemma sdiv_OK (a b m : scalar) :
  sdiv a b = OK m -> scalar_cell m = lift2 F64.div (scalar_cell a) (scalar_cell b).
Proof.
  unfold sdiv. destruct a as [x|x|], b as [y|y|]; simpl; intro H;
    try (injection H as <-; reflexivity).
  destruct (F64.is_zero y); [discriminate|]. injection H as <-. reflexivity.
Qed.

(** A threshold that is neither of the two limit values is used as it
    is. *)
Lemma resolve_thresh_given (r : runner) (n : string) (thr : float) :
  F64.eqb thr MinForFuzzyLimit = false -> F64.eqb thr MaxForFuzzyLimit = false ->
  resolve_thresh r n thr = OK (PyFloat thr).
Proof. intros H1 H2. unfold resolve_thresh. rewrite H1, H2. reflexivity. Qed.

Lemma cvt_cell_cells (m b : scalar) (fv tv : float) (d : marray) :
  scalar_cell m = Some (F64.div (F64.of_Z (-2)) (F64.sub fv tv)) ->
  scalar_cell b
  = Some (F64.sub F64.one (F64.mul (F64.div (F64.of_Z (-2)) (F64.sub fv tv)) tv)) ->
  cells (clip (linear m b d)) = map (cvt_cell fv tv) (cells d).
Proof.
  intros Hm Hb. unfold clip, linear, derived, shrunk. simpl. rewrite map_map.
  apply map_ext. intros [x|]; [|reflexivity].
  rewrite Hm, Hb. reflexivity.
Qed.

Lemma CvtToFuzzy_parts (r r' : runner) (inFld : string) (t f : float) (out n : string) :
  CvtToFuzzy r inFld t f out n = OK r' ->
  exists d sf st,
    fld_data r inFld = OK d
    /\ resolve_thresh r inFld f = OK sf
    /\ resolve_thresh r inFld t = OK st
    /\ truthy (ceq (scalar_cell st) (scalar_cell sf)) = false
    /\ (forall fv tv, scalar_cell sf = Some fv -> scalar_cell st = Some tv ->
          cells_of r' n = Some (map (cvt_cell fv tv) (cells d))).
Proof.
  unfold CvtToFuzzy. intro H. inv_bind H. rename v into sf. inv_bind H. rename v into st.
  destruct (truthy (ceq (scalar_cell st) (scalar_cell sf))) eqn:E; [discriminate|].
  inv_bind H. rename v into m. inv_bind H. rename v into d.
  apply AddField_OK in H. destruct H as [Hc _].
  exists d, sf, st. repeat (split; [assumption|]).
  intros fv tv Hf Ht. rewrite Hc. f_equal.
  apply sdiv_OK in Hv1. unfold ssub in Hv1.
  rewrite scalar_cell_scalar2, Hf, Ht in Hv1. simpl in Hv1.
  apply cvt_cell_cells; [exact Hv1|].
  unfold ssub, smul. rewrite !scalar_cell_scalar2, Hv1, Ht. reflexivity.
Qed.

Lemma cvt_cell_fuzzy (f t : float) (c : cell) :
  fuzzy_cell (cvt_cell f t c) /\ (cvt_cell f t c = None <-> c = None).
Proof.
  unfold cvt_cell. split; [apply clip_cell_fuzzy|].
  rewrite clip_cell_masked. destruct c; split; intro H; try discriminate; reflexivity.
Qed.

(** Over the rationals the expression is the line through
    (f, -1) and (t, 1). *)
Lemma cvt_exact_line (f t x : Q) :
  ~ (f == t)%Q -> (cvt_exact f t x == line_through f (-1) t 1 x)%Q.
Proof.
  intro H. unfold cvt_exact, cvt_expr, line_through.
  assert (H1 : ~ (f - t == 0)%Q) by (intro E; apply H; lra).
  assert (H2 : ~ (t - f == 0)%Q) by (intro E; apply H; lra).
  field. split; assumption.
Qed.

(** C7.  [CvtToFuzzy] evaluates the expression x * m + b, with
    m = -2 / (falseThresh - trueThresh) and b = 1 - m * trueThresh, in
    double precision, every operation rounded, and clamps the value:
    a result, when there is one, has the cells [cvt_cell] makes of the
    cells of the input, for the thresholds the call resolved, which
    are not equal.  A cell of the result is masked where the input is,
    and otherwise holds a value from -1 to 1 or a value that is not a
    number.  Thresholds that are given (neither of the two limit
    values) are used as they are, and equal ones are refused.  Over
    the rationals the expression is the straight line through
    (falseThresh, -1) and (trueThresh, +1).  With the thresholds 100
    and 0 the field 0, 50, 100 becomes -1, 0, 1, and its negation
    1, -0, -1. *)
Theorem CvtToFuzzy_line_clamped :
  (forall r inFieldName trueThreshold falseThreshold outFileName rsltName r',
      CvtToFuzzy r inFieldName trueThreshold falseThreshold outFileName rsltName = OK r' ->
      exists d sf st,
        fld_data r inFieldName = OK d
        /\ resolve_thresh r inFieldName falseThreshold = OK sf
        /\ resolve_thresh r inFieldName trueThreshold = OK st
        /\ truthy (ceq (scalar_cell st) (scalar_cell sf)) = false
        /\ (forall falseThresh trueThresh,
              scalar_cell sf = Some falseThresh -> scalar_cell st = Some trueThresh ->
              cells_of r' rsltName
              = Some (map (cvt_cell falseThresh trueThresh) (cells d))))
  /\ (forall falseThresh trueThresh c,
        fuzzy_cell (cvt_cell falseThresh trueThresh c)
        /\ (cvt_cell falseThresh trueThresh c = None <-> c = None))
  /\ (forall r inFieldName thr,
        F64.eqb thr MinForFuzzyLimit = false -> F64.eqb thr MaxForFuzzyLimit = false ->
        resolve_thresh r inFieldName thr = OK (PyFloat thr))
  /\ (forall r inFieldName trueThreshold falseThreshold outFileName rsltName,
        F64.eqb trueThreshold MinForFuzzyLimit = false ->
        F64.eqb trueThreshold MaxForFuzzyLimit = false ->
        F64.eqb falseThreshold MinForFuzzyLimit = false ->
        F64.eqb falseThreshold MaxForFuzzyLimit = false ->
        F64.eqb trueThreshold falseThreshold = true ->
        exists msg,
          CvtToFuzzy r inFieldName trueThreshold falseThreshold outFileName rsltName
          = Raise (Exception msg)
          /\ occurs_in "CvtToFuzzy(): trueThresh cannot equal falseThresh." msg)
  /\ (forall f t x : Q, ~ (f == t)%Q -> (cvt_exact f t x == line_through f (-1) t 1 x)%Q)
  /\ (r1 <- CvtToFuzzy raw_example "A" (F64.of_Z 100) (F64.of_Z 0) "NONE" "B" ;;
      r2 <- FuzzyNot r1 "B" "NONE" "C" ;;
      OK (cells_of r2 "B", cells_of r2 "C"))
     = OK (Some [num (-1); num 0; num 1],
           Some [num 1; Some (F64.opp F64.zero); num (-1)])
  /\ F64.eqb (F64.opp F64.zero) F64.zero = true.
Proof.
  split; [intros; apply (CvtToFuzzy_parts r r' inFieldName trueThreshold falseThreshold
                           outFileName rsltName); assumption|].
  split; [intros; apply cvt_cell_fuzzy|].
  split; [intros; apply resolve_thresh_given; assumption|].
  split.
  { intros r inFld t f out n Ht1 Ht2 Hf1 Hf2 He. unfold CvtToFuzzy.
    rewrite (resolve_thresh_given r inFld f Hf1 Hf2), (resolve_thresh_given r inFld t Ht1 Ht2).
    cbv beta iota delta [bind scalar_cell ceq ccmp truthy]. rewrite He.
    eexists. split; [reflexivity|]. exists banner. eexists. reflexivity. }
  split; [intros; apply cvt_exact_line; assumption|].
  split; vm_compute; reflexivity.
Qed.

(** The conversion of the example field, with the thresholds 100 and 0. *)
Lemma CvtToFuzzy_line_clamped_witness :
  exists r',
    CvtToFuzzy raw_example "A" (F64.of_Z 100) (F64.of_Z 0) "NONE" "B" = OK r'
    /\ cells_of r' "B"
       = Some (map (cvt_cell (F64.of_Z 0) (F64.of_Z 100)) [num 0; num 50; num 100]).
Proof.
  assert (H : exists r',
             CvtToFuzzy raw_example "A" (F64.of_Z 100) (F64.of_Z 0) "NONE" "B" = OK r')
    by (eexists; vm_compute; reflexivity).
  destruct H as [r' H]. exists r'. split; [exact H|].
  destruct (proj1 CvtToFuzzy_line_clamped _ _ _ _ _ _ _ H)
    as [d [sf [st [Hd [Hf [Ht [_ Hc]]]]]]].
  assert (Ed : d = arr [num 0; num 50; num 100]).
  { vm_compute in Hd. injection Hd as <-. reflexivity. }
  assert (Ef : sf = PyFloat (F64.of_Z 0)).
  { vm_compute in Hf. injection Hf as <-. reflexivity. }
  assert (Et : st = PyFloat (F64.of_Z 100)).
  { vm_compute in Ht. injection Ht as <-. reflexivity. }
  subst. apply (Hc (F64.of_Z 0) (F64.of_Z 100)); reflexivity.
Defined.

(** C7 as the specification words it does not hold: the value can miss
    the line.  With the thresholds 1.1 (true) and 0.2 (false) the cell
    0.2, which is the false threshold, where the line is at -1,
    becomes -0.9999999999999998. *)
Lemma CvtToFuzzy_misses_the_line :
  exists r' y,
    CvtToFuzzy rounding_example "A" (F64.dec 11 1) (F64.dec 2 1) "NONE" "B" = OK r'
    /\ cells_of rounding_example "A" = Some [Some (F64.dec 2 1)]
    /\ cells_of r' "B" = Some [Some y]
    /\ y = F64.dec (-9999999999999998) 16
    /\ F64.eqb y (F64.of_Z (-1)) = false
    /\ (line_through (F64.to_Q (F64.dec 2 1)) (-1) (F64.to_Q (F64.dec 11 1)) 1
          (F64.to_Q (F64.dec 2 1)) == -1)%Q.
Proof.
  eexists. eexists.
  split; [vm_compute; reflexivity|].
  split; [vm_compute; reflexivity|].
  split; [vm_compute; reflexivity|].
  split; [vm_compute; reflexivity|].
  split; [vm_compute; reflexivity|].
  vm_compute. reflexivity.
Qed.

End CvtToFuzzyFacts.

(** ** The exclusive or *)

Section XOrFacts.
Import PyStr PyDict Cmd Prog Runner Spec Sched Obs.
Local Open Scope string_scope.

Lemma fld_data_get (r : runner) (n : string) (d : marray) :
  fld_data r n = OK d <-> exists f, get (EEMSFlds r) n = Some f /\ data f = d.
Proof.
  unfold fld_data, item. destruct (get (EEMSFlds r) n) as [f|]; simpl; split.
  - intro H. injection H as <-. exists f. split; reflexivity.
  - intros [f' [H <-]]. injection H as <-. reflexivity.
  - discriminate.
  - intros [f' [H _]]. discriminate.
Qed.

Lemma for_each_unit_intro {A : Type} (l : list A) (body : A -> unit -> result unit) :
  (forall x, In x l -> body x tt = OK tt) -> for_each l body tt = OK tt.
Proof.
  induction l as [|a l IH]; simpl; intro H; [reflexivity|].
  rewrite (H a (or_introl eq_refl)). simpl. apply IH. intros x Hx. apply H. right. exact Hx.
Qed.

Lemma shape_eqb_refl (s : list nat) : shape_eqb s s = true.
Proof.
  unfold shape_eqb. rewrite Nat.eqb_refl. simpl.
  induction s as [|x s IH]; simpl; [reflexivity|]. rewrite Nat.eqb_refl. exact IH.
Qed.

(** The fields of a registry that is well formed can be stacked. *)
Lemma field_arrays_well_formed (r : runner) (sh : list nat) (names : list string) :
  (forall n f, get (EEMSFlds r) n = Some f -> shape (data f) = sh) ->
  (forall nm, In nm names -> exists d, fld_data r nm = OK d) ->
  exists arrs, field_arrays r names = OK arrs /\ Forall (fun d => shape d = sh) arrs.
Proof.
  intros Hsh. induction names as [|nm names IH]; intro H.
  - exists []. split; [reflexivity | constructor].
  - destruct (H nm (or_introl eq_refl)) as [d Hd].
    destruct IH as [arrs [Ha Hf]]; [intros x Hx; apply H; right; exact Hx|].
    exists (d :: arrs). simpl. rewrite Hd, Ha. split; [reflexivity|].
    constructor; [|exact Hf].
    apply fld_data_get in Hd. destruct Hd as [f [Hg <-]]. apply (Hsh nm f Hg).
Qed.

Lemma same_shapes_Forall (sh : list nat) (arrs : list marray) :
  Forall (fun d => shape d = sh) arrs -> same_shapes arrs = true.
Proof.
  intro H. destruct arrs as [|a arrs]; [reflexivity|]. simpl.
  inversion H as [|? ? Ha Hr]; subst. apply forallb_forall. intros d Hd.
  rewrite Forall_forall in Hr. rewrite (Hr d Hd). apply shape_eqb_refl.
Qed.

Lemma exec_stack_OK (r : runner) (names : list string) :
  well_formed r -> names <> [] ->
  (forall nm, In nm names -> exists d, fld_data r nm = OK d) ->
  exec_stack r names = OK tt.
Proof.
  intros [sh [_ Hw]] Hne H. unfold exec_stack, stacked.
  destruct names as [|nm names]; [contradiction|].
  destruct (field_arrays_well_formed r sh (nm :: names)) as [arrs [Ha Hf]].
  - intros n f Hg. apply (Hw n f Hg).
  - exact H.
  - rewrite Ha. simpl. rewrite (same_shapes_Forall sh arrs Hf). reflexivity.
Qed.

(** C8.  XOR computes no cell.  A call over fewer than two fields
    fails with the error of the method itself.  A
    call over two or more fields never returns a result: once the
    fields have passed the guard and have been stacked, the method
    uses [stackedArrs], a local variable the [exec] before it cannot
    bind, and raises [UnboundLocalError]. *)
Theorem FuzzyXOr_UnboundLocalError :
  (forall r inFieldNames outFileName rsltName,
      no_result (FuzzyXOr r inFieldNames outFileName rsltName))
  /\ (forall r inFieldNames outFileName rsltName,
        (2 <= List.length inFieldNames)%nat ->
        well_formed r ->
        (forall nm, In nm inFieldNames -> VerifyFuzzyField r nm = OK tt) ->
        FuzzyXOr r inFieldNames outFileName rsltName
        = Raise (UnboundLocalError "stackedArrs"))
  /\ (forall r inFieldName outFileName rsltName,
        exists msg,
          FuzzyXOr r [inFieldName] outFileName rsltName = Raise (Exception msg)
          /\ occurs_in "FuzzyXOr takes a minimum of 2 inFieldNames." msg).
Proof.
  split; [|split].
  - intros. apply FuzzyXOr_no_result.
  - intros r names o n Hlen Hw Hg. unfold FuzzyXOr.
    assert (E : (List.length names <? 2)%nat = false) by (apply Nat.ltb_ge; exact Hlen).
    rewrite E.
    assert (Hv : verify_all r names = OK tt)
      by (unfold verify_all; apply for_each_unit_intro; exact Hg).
    rewrite Hv. simpl bind.
    rewrite (exec_stack_OK r names Hw).
    + reflexivity.
    + destruct names; [simpl in Hlen; lia | discriminate].
    + intros nm Hnm. specialize (Hg nm Hnm). apply VerifyFuzzyField_cases in Hg.
      destruct Hg as [d [Hd _]]. exists d. exact Hd.
  - intros r nm o n. eexists. split; [reflexivity|].
    exists banner. eexists. reflexivity.
Qed.

(** The exclusive or of two fields of one cell, which pass the guard. *)
Lemma FuzzyXOr_UnboundLocalError_witness :
  VerifyFuzzyField xor_example "X" = OK tt
  /\ VerifyFuzzyField xor_example "Y" = OK tt
  /\ FuzzyXOr xor_example ["X"; "Y"] "NONE" "R" = Raise (UnboundLocalError "stackedArrs").
Proof.
  assert (Hx : VerifyFuzzyField xor_example "X" = OK tt) by (vm_compute; reflexivity).
  assert (Hy : VerifyFuzzyField xor_example "Y" = OK tt) by (vm_compute; reflexivity).
  split; [exact Hx|]. split; [exact Hy|].
  apply (proj1 (proj2 FuzzyXOr_UnboundLocalError)).
  - apply Nat.leb_le. reflexivity.
  - exists [1%nat]. split; [reflexivity|]. intros n f H.
    unfold xor_example, registry in H. simpl in H.
    repeat (match type of H with
            | (if ?b then _ else _) = _ => destruct b
            end;
            [injection H as <-; split; reflexivity|]).
    discriminate.
  - intros nm [<-|[<-|[]]]; assumption.
Defined.

End XOrFacts.

(** ** Mean to mid *)

Section MeanToMidFacts.
Import PyStr PyDict Cmd Runner Spec.

(** C10.  A call of [MeanToMid] that keeps the zeros raises the
    [NameError] of the name [cp], whatever the registry, the field and
    the fuzzy values are, so before any statistic of the field is taken;
    [cp] is not bound in the module while [re] and [np] are; hence a call
    that gives a result is one that ignores the zeros. *)
Theorem MeanToMid_keeping_zeros_NameError :
  (forall np_sum r inFieldName fuzzyValues outFileName rsltName,
      MeanToMid np_sum r inFieldName false fuzzyValues outFileName rsltName
      = Raise (NameError "cp"))
  /\ mem "cp" module_globals = false
  /\ mem "re" module_globals = true
  /\ mem "np" module_globals = true
  /\ (forall np_sum r inFieldName ignoreZeros fuzzyValues outFileName rsltName r',
         MeanToMid np_sum r inFieldName ignoreZeros fuzzyValues outFileName rsltName = OK r' ->
         ignoreZeros = true).
Proof.
  assert (H : forall np_sum r inFieldName fuzzyValues outFileName rsltName,
             MeanToMid np_sum r inFieldName false fuzzyValues outFileName rsltName
             = Raise (NameError "cp")).
  { intros. unfold MeanToMid. reflexivity. }
  repeat split; try reflexivity; try exact H.
  intros s r f iz fv o n r' Hok. destruct iz; [reflexivity|].
  rewrite H in Hok. discriminate.
Qed.

(** A run that ignores the zeros does give a result. *)
Lemma MeanToMid_ignoring_zeros_runs :
  exists r', mean_to_mid_example = OK r' /\ true = true.
Proof.
  eexists. split.
  - vm_compute. reflexivity.
  - eapply (proj2 (proj2 (proj2 (proj2 MeanToMid_keeping_zeros_NameError)))
              sum_in_order mean_to_mid_registry "A" true five_fuzzy_values "NONE" "R").
    vm_compute. reflexivity.
Defined.

End MeanToMidFacts.

(** ** The dispatch of the weighted EMDS and *)

Section DispatchFacts.
Import PyStr PyDict Cmd Prog Runner Interp Spec.

(** C9.  [RunProgram] asks the runner for [FuzzyEMDSWeightedAnd], a name
    the class does not have (its method is [FuzzyEMDSWeighteddAnd]): no
    WTDEMDSAND command ever produces a field, and once its parameters
    are collected the turn ends in the [AttributeError]. *)
Theorem WTDEMDSAND_dispatch_AttributeError :
  forall ReadMulti dflt ovr np_sum c r,
    GetCommandName c = "WTDEMDSAND" ->
    (forall r', run_cmd ReadMulti dflt ovr np_sum c r <> OK r') /\
    (forall ps, all_params dflt ovr c = OK ps ->
                run_cmd ReadMulti dflt ovr np_sum c r
                = Raise (AttributeError "FuzzyEMDSWeightedAnd")).
Proof.
  intros RM dflt ovr np_sum c r Hnm.
  assert (H : forall ps, all_params dflt ovr c = OK ps ->
                run_cmd RM dflt ovr np_sum c r
                = Raise (AttributeError "FuzzyEMDSWeightedAnd")).
  { intros ps Hps. unfold run_cmd. rewrite Hps, Hnm. reflexivity. }
  split; [|exact H].
  intros r' Hr. destruct (all_params dflt ovr c) as [ps|e] eqn:Hps.
  - rewrite (H ps eq_refl) in Hr. discriminate.
  - unfold run_cmd in Hr. rewrite Hps in Hr. discriminate.
Qed.

Lemma WTDEMDSAND_dispatch_AttributeError_witness :
  GetCommandName (cmd_of "R = WTDEMDSAND(InFieldNames=[X,Y], Weights=[1,3])") = "WTDEMDSAND"
  /\ run_cmd no_read [] [] sum_in_order
       (cmd_of "R = WTDEMDSAND(InFieldNames=[X,Y], Weights=[1,3])")
       (registry 2 [("X", [num 1; lit 5 1]); ("Y", [num 0; num (-1)])])
     = Raise (AttributeError "FuzzyEMDSWeightedAnd").
Proof.
  assert (Hn : GetCommandName (cmd_of "R = WTDEMDSAND(InFieldNames=[X,Y], Weights=[1,3])")
               = "WTDEMDSAND") by (vm_compute; reflexivity).
  split; [exact Hn|].
  assert (Hp : exists ps,
             all_params [] [] (cmd_of "R = WTDEMDSAND(InFieldNames=[X,Y], Weights=[1,3])")
             = OK ps) by (eexists; vm_compute; reflexivity).
  destruct Hp as [ps Hp].
  exact (proj2 (WTDEMDSAND_dispatch_AttributeError no_read [] [] sum_in_order _ _ Hn) ps Hp).
Defined.

End DispatchFacts.

(** ** The registry of the fields *)

Section RegistryFacts.
Import PyStr PyDict Cmd Runner Spec Sched Obs.
Local Open Scope string_scope.

Lemma shape_eqb_eq (s1 s2 : list nat) : shape_eqb s1 s2 = true <-> s1 = s2.
Proof.
  unfold shape_eqb. revert s2. induction s1 as [|x s1 IH]; intros [|y s2]; simpl;
    try (split; [discriminate | discriminate]); [split; reflexivity|].
  specialize (IH s2). split.
  - intro H. apply andb_prop in H. destruct H as [Hl H]. apply andb_prop in H.
    destruct H as [Hx H]. apply Nat.eqb_eq in Hx. subst y. f_equal. apply IH.
    rewrite Hl, H. reflexivity.
  - intro H. injection H as -> ->.
    assert (E : s2 = s2) by reflexivity. apply IH in E. apply andb_prop in E.
    destruct E as [_ E]. rewrite !Nat.eqb_refl, E. reflexivity.
Qed.

(** What a successful insertion says of the registry before and after. *)
Lemma AddFieldToEEMSFlds_parts (r r' : runner) (o n : string) (a : marray) :
  AddFieldToEEMSFlds r o n a = OK r' ->
  ~ In n (keys (EEMSFlds r))
  /\ keys (EEMSFlds r') = (keys (EEMSFlds r) ++ [n])%list
  /\ get (EEMSFlds r') n = Some (mkField o a)
  /\ (forall k, k <> n -> get (EEMSFlds r') k = get (EEMSFlds r) k)
  /\ arrayShape r' = Some (shape a)
  /\ (forall sh, arrayShape r = Some sh -> shape a = sh).
Proof.
  unfold AddFieldToEEMSFlds. intro H.
  destruct (mem n (keys (EEMSFlds r))) eqn:E; [discriminate|].
  apply mem_false in E. inv_bind H. injection H as <-. simpl.
  split; [exact E|].
  split; [apply keys_set_new; apply get_None_keys; exact E|].
  split; [apply get_set_same|].
  split; [intros k Hk; apply get_set_other; exact Hk|].
  destruct (arrayShape r) as [sh|].
  - destruct (shape_eqb (shape a) sh) eqn:Es; simpl in Hv; [|discriminate].
    injection Hv as <-. apply shape_eqb_eq in Es. split; [congruence|].
    intros sh' Hsh. congruence.
  - injection Hv as <-. split; [reflexivity|]. intros sh H. discriminate.
Qed.

(** X7.   [_AddFieldToEEMSFlds] never overwrites a field: for a name the
    registry has, it raises (a TypeError, from the message it tries to
    format); for a new name and an array whose shape is not the shape
    of the registry it raises the shape mismatch; and when it succeeds
    the name was new, it is added after the others, bound to the array
    and its output file, every other field is as before, and the shape
    of the registry is the shape of the array. *)
Theorem AddFieldToEEMSFlds_behaviour (r : runner) (o n : string) (a : marray) :
  (In n (keys (EEMSFlds r)) ->
   AddFieldToEEMSFlds r o n a
   = Raise (TypeError "not all arguments converted during string formatting"))
  /\ (forall sh, ~ In n (keys (EEMSFlds r)) -> arrayShape r = Some sh -> shape a <> sh ->
        exists msg, AddFieldToEEMSFlds r o n a = Raise (Exception msg)
                    /\ occurs_in "Data Shape mismatch" msg)
  /\ (forall r', AddFieldToEEMSFlds r o n a = OK r' ->
        ~ In n (keys (EEMSFlds r))
        /\ keys (EEMSFlds r') = (keys (EEMSFlds r) ++ [n])%list
        /\ get (EEMSFlds r') n = Some (mkField o a)
        /\ (forall k, k <> n -> get (EEMSFlds r') k = get (EEMSFlds r) k)
        /\ arrayShape r' = Some (shape a)
        /\ (forall sh, arrayShape r = Some sh -> shape a = sh)).
Proof.
  unfold AddFieldToEEMSFlds. split; [|split].
  - intro H. apply mem_In in H. rewrite H. reflexivity.
  - intros sh Hn Hs Hne. apply mem_false in Hn. rewrite Hn, Hs.
    destruct (shape_eqb (shape a) sh) eqn:E; [apply shape_eqb_eq in E; contradiction|].
    simpl. eexists. split; [reflexivity|].
    exists banner. eexists. reflexivity.
  - intros r' H. fold (AddFieldToEEMSFlds r o n a) in H.
    exact (AddFieldToEEMSFlds_parts r r' o n a H).
Qed.

Lemma AddField_adds_only (r : runner) (o n : string) (a : marray) :
  adds_only r n (AddFieldToEEMSFlds r o n a).
Proof.
  intros r' H.
  destruct (AddFieldToEEMSFlds_parts r r' o n a H) as [H1 [H2 [_ [H4 _]]]].
  split; [exact H1|]. split; [exact H2 | exact H4].
Qed.

Lemma bind_adds_only {A : Type} (r : runner) (n : string) (c : result A)
    (k : A -> result runner) :
  (forall a, c = OK a -> adds_only r n (k a)) -> adds_only r n (bind c k).
Proof.
  intros H r' Hr. inv_bind Hr. apply (H v Hv r' Hr).
Qed.

Lemma Raise_adds_only (r : runner) (n : string) (e : exn) : adds_only r n (Raise e).
Proof. intros r' H. discriminate. Qed.

Ltac frame_steps :=
  repeat first
    [ apply AddField_adds_only
    | apply Raise_adds_only
    | apply bind_adds_only; intros ? ?
    | match goal with
      | |- adds_only _ _ (if ?b then _ else _) => destruct b
      | |- adds_only _ _ (match ?p with pair _ _ => _ end) => destruct p
      end ].

(** X8.   No operator of the runner changes or drops a field: a call
    that succeeds adds the one field of its result name, which the
    registry did not have, after the others, and every other field is
    what it was before the call. *)
Theorem operators_add_one_field (r : runner) (out rsltName : string) :
  (forall inFld t f, adds_only r rsltName (CvtToFuzzy r inFld t f out rsltName))
  /\ (forall inFld raw fuz, adds_only r rsltName (CvtToFuzzyCurve r inFld raw fuz out rsltName))
  /\ (forall inFld raw fuz dflt,
        adds_only r rsltName (CvtToFuzzyCat r inFld raw fuz dflt out rsltName))
  /\ (forall np_sum inFld iz fuz,
        adds_only r rsltName (MeanToMid np_sum r inFld iz fuz out rsltName))
  /\ (forall inFld, adds_only r rsltName (CopyField r inFld out rsltName))
  /\ (forall inFld, adds_only r rsltName (FuzzyNot r inFld out rsltName))
  /\ (forall a b, adds_only r rsltName (DifFlds r a b out rsltName))
  /\ (forall inFld, adds_only r rsltName (ScoreRangeBenefit r inFld out rsltName))
  /\ (forall inFld, adds_only r rsltName (ScoreRangeCost r inFld out rsltName))
  /\ (forall inFlds,
        adds_only r rsltName (MinFlds r inFlds out rsltName)
        /\ adds_only r rsltName (MaxFlds r inFlds out rsltName)
        /\ adds_only r rsltName (SumFlds r inFlds out rsltName)
        /\ adds_only r rsltName (MeanFlds r inFlds out rsltName)
        /\ adds_only r rsltName (FuzzyUnion r inFlds out rsltName)
        /\ adds_only r rsltName (FuzzyOr r inFlds out rsltName)
        /\ adds_only r rsltName (FuzzyAnd r inFlds out rsltName)
        /\ adds_only r rsltName (FuzzyOrNeg r inFlds out rsltName)
        /\ adds_only r rsltName (FuzzyEMDSAnd r inFlds out rsltName)
        /\ adds_only r rsltName (FuzzyXOr r inFlds out rsltName))
  /\ (forall inFlds wts,
        adds_only r rsltName (WeightedMean r inFlds wts out rsltName)
        /\ adds_only r rsltName (WeightedSum r inFlds wts out rsltName)
        /\ adds_only r rsltName (FuzzyWeightedUnion r inFlds wts out rsltName)
        /\ adds_only r rsltName (FuzzyEMDSWeighteddAnd r inFlds wts out rsltName))
  /\ (forall inFlds tf k,
        adds_only r rsltName (FuzzySelectedUnion r inFlds tf k out rsltName)).
Proof.
  repeat match goal with
         | |- _ /\ _ => split
         | |- forall _, _ => intro
         end;
    unfold CvtToFuzzy, CvtToFuzzyCurve, CvtToFuzzyCat, MeanToMid, CvtToFuzzyCurveCells,
      CopyField, FuzzyNot, DifFlds, ScoreRangeBenefit, ScoreRangeCost, MinFlds, MaxFlds,
      SumFlds, MeanFlds, FuzzyUnion, FuzzyOr, FuzzyOrNeg, FuzzyAnd, FuzzyEMDSAnd, FuzzyXOr,
      WeightedMean, WeightedSum, FuzzyWeightedUnion, FuzzyEMDSWeighteddAnd,
      FuzzySelectedUnion, CopyField;
    frame_steps.
Qed.

Lemma AddField_succeeds (r : runner) (o n : string) (a : marray) :
  ~ In n (keys (EEMSFlds r)) ->
  (forall sh, arrayShape r = Some sh -> shape a = sh) ->
  exists r', AddFieldToEEMSFlds r o n a = OK r'.
Proof.
  intros Hn Hs. unfold AddFieldToEEMSFlds. apply mem_false in Hn. rewrite Hn.
  destruct (arrayShape r) as [sh|]; simpl; [|eauto].
  assert (E : shape_eqb (shape a) sh = true) by (apply shape_eqb_eq; apply Hs; reflexivity).
  rewrite E. simpl. eauto.
Qed.

(** X9.   [_VerifyFuzzyField] passes exactly on a field the registry
    has, with at least one cell, that has a cell that is not a number
    or whose cells that are not masked all lie between -1 and 1 (so
    also on a field with every cell masked).  On a name the registry
    does not have it raises the KeyError of the name, and on a field
    with no cell that is not a number and a value below -1 or above 1
    it raises the range error. *)
Theorem VerifyFuzzyField_passes_iff (r : runner) (n : string) :
  (VerifyFuzzyField r n = OK tt <->
   exists d, fld_data r n = OK d /\ cells d <> []
             /\ (In (Some F64.nan) (cells d) \/ fuzzy_array d))
  /\ (get (EEMSFlds r) n = None -> VerifyFuzzyField r n = Raise (KeyError n))
  /\ (forall d x, fld_data r n = OK d -> In (Some x) (cells d) ->
        ~ In (Some F64.nan) (cells d) ->
        in_fuzzy_range x = false ->
        exists msg, VerifyFuzzyField r n = Raise (Exception msg)).
Proof.
  split; [apply VerifyFuzzyField_cases|]. split.
  - intro H. unfold VerifyFuzzyField, fld_data, item. rewrite H. reflexivity.
  - intros d x Hd Hx Hnan Hout.
    assert (Hnot : VerifyFuzzyField r n <> OK tt).
    { intro E. apply VerifyFuzzyField_cases in E. destruct E as [d' [Hd' [_ Hc]]].
      rewrite Hd in Hd'. injection Hd' as <-. destruct Hc as [Hc|Hc]; [contradiction|].
      unfold fuzzy_array in Hc. rewrite Forall_forall in Hc. specialize (Hc _ Hx).
      simpl in Hc. congruence. }
    revert Hnot. unfold VerifyFuzzyField. rewrite Hd.
    cbv beta iota delta [bind]. unfold amin, amax, reduce.
    destruct (cells d) as [|c0 cs]; [contradiction|].
    destruct (existsb is_unmasked (c0 :: cs)); cbv beta iota.
    + match goal with
      | |- (if ?b then _ else _) <> _ -> _ => destruct b
      end; intro Hnot.
      * eexists. reflexivity.
      * exfalso. apply Hnot. reflexivity.
    + intro Hnot. exfalso. apply Hnot. reflexivity.
Qed.

Lemma neg_clip (x : float) :
  F64.valid x = true -> in_fuzzy_range x = true ->
  clip_cell (cmul (Some F64.minus_one) (Some x)) = Some (F64.opp x).
Proof.
  intros Hv Hf. unfold cmul, lift2. rewrite (mul_minus_one x Hv).
  apply clip_cell_id. rewrite opp_fuzzy. exact Hf.
Qed.

(** The negation of the cells of an array of floats in the fuzzy
    range. *)
Lemma neg_cells (l : list cell) :
  Forall valid_cell l -> Forall strict_fuzzy_cell l ->
  map clip_cell (map (fun x => cmul (Some F64.minus_one) x) l)
  = map (option_map F64.opp) l.
Proof.
  intros Hv Hf. rewrite map_map. induction l as [|c l IH]; cbn [map]; [reflexivity|].
  inversion Hv as [|? ? Hv1 Hv2]; subst. inversion Hf as [|? ? Hf1 Hf2]; subst.
  rewrite (IH Hv2 Hf2). f_equal.
  destruct c as [x|]; [|reflexivity]. apply neg_clip; assumption.
Qed.

Lemma Forall_opp_valid (l : list cell) :
  Forall valid_cell l -> Forall valid_cell (map (option_map F64.opp) l).
Proof.
  intro H. induction H as [|c l Hc Hl IH]; simpl; constructor; [|exact IH].
  destruct c as [x|]; simpl in *; [rewrite opp_valid; exact Hc | exact I].
Qed.

Lemma Forall_opp_fuzzy (l : list cell) :
  Forall strict_fuzzy_cell l -> Forall strict_fuzzy_cell (map (option_map F64.opp) l).
Proof.
  intro H. induction H as [|c l Hc Hl IH]; simpl; constructor; [|exact IH].
  destruct c as [x|]; simpl in *; [rewrite opp_fuzzy; exact Hc | exact I].
Qed.

Lemma map_opp_opp (l : list cell) :
  map (option_map F64.opp) (map (option_map F64.opp) l) = l.
Proof.
  induction l as [|c l IH]; simpl; [reflexivity|]. rewrite IH. f_equal.
  destruct c as [x|]; simpl; [rewrite opp_involutive|]; reflexivity.
Qed.

(** X10.   The fuzzy NOT is its own inverse on numbers: after NOT of a
    field whose cells hold floats of the format, none of them not a
    number, the NOT of the result, under any new name, runs and gives
    back the cells of the field, the masked ones masked. *)
Theorem FuzzyNot_involution (r r1 : runner) (x o1 n1 o2 n2 : string) (d : marray) :
  fld_data r x = OK d ->
  Forall valid_cell (cells d) ->
  ~ In (Some F64.nan) (cells d) ->
  FuzzyNot r x o1 n1 = OK r1 ->
  ~ In n2 (keys (EEMSFlds r1)) ->
  exists r2,
    FuzzyNot r1 n1 o2 n2 = OK r2
    /\ cells_of r1 n1 = Some (map (option_map F64.opp) (cells d))
    /\ cells_of r2 n2 = Some (cells d).
Proof.
  intros Hd Hval Hnan H Hn2. unfold FuzzyNot in H. inv_bind H. destruct v.
  inv_bind H. rewrite Hd in Hv0. injection Hv0 as <-.
  apply VerifyFuzzyField_cases in Hv. destruct Hv as [d' [Hd' [Hne Hc]]].
  rewrite Hd in Hd'. injection Hd' as <-.
  destruct Hc as [Hc|Hf]; [contradiction|]. unfold fuzzy_array in Hf.
  destruct (AddFieldToEEMSFlds_parts _ _ _ _ _ H) as [_ [_ [Hg [_ [Hs _]]]]].
  remember (clip (derived d true (map (fun c => cmul (Some F64.minus_one) c) (cells d))))
    as d1 eqn:Ed1.
  assert (Hc1 : cells d1 = map (option_map F64.opp) (cells d))
    by (rewrite Ed1; apply neg_cells; assumption).
  assert (Hd1 : fld_data r1 n1 = OK d1) by (unfold fld_data, item; rewrite Hg; reflexivity).
  assert (Hv1 : VerifyFuzzyField r1 n1 = OK tt).
  { apply VerifyFuzzyField_cases. exists d1. split; [exact Hd1|]. split.
    - rewrite Hc1. destruct (cells d); [congruence | discriminate].
    - right. unfold fuzzy_array. rewrite Hc1. apply Forall_opp_fuzzy. exact Hf. }
  remember (clip (derived d1 true (map (fun c => cmul (Some F64.minus_one) c) (cells d1))))
    as d2 eqn:Ed2.
  assert (Hc2 : cells d2 = cells d).
  { rewrite Ed2.
    change (cells (clip (derived d1 true
                     (map (fun c => cmul (Some F64.minus_one) c) (cells d1)))))
      with (map clip_cell (map (fun c => cmul (Some F64.minus_one) c) (cells d1))).
    rewrite neg_cells.
    - rewrite Hc1. apply map_opp_opp.
    - rewrite Hc1. apply Forall_opp_valid. exact Hval.
    - rewrite Hc1. apply Forall_opp_fuzzy. exact Hf. }
  destruct (AddField_succeeds r1 o2 n2 d2 Hn2) as [r2 Hr2].
  { intros sh Hsh. rewrite Hs in Hsh. injection Hsh as <-. rewrite Ed2. reflexivity. }
  exists r2. split; [|split].
  - unfold FuzzyNot. rewrite Hv1. cbv beta iota delta [bind]. rewrite Hd1.
    cbv beta iota. rewrite <- Ed2. exact Hr2.
  - unfold cells_of. rewrite Hg. simpl. f_equal. exact Hc1.
  - destruct (AddField_OK _ _ _ _ _ Hr2) as [Hc _]. rewrite Hc, Hc2. reflexivity.
Qed.

Lemma FuzzyNot_involution_witness :
  exists r1 r2,
    FuzzyNot fuzzy_example "X" "NONE" "NX" = OK r1
    /\ FuzzyNot r1 "NX" "NONE" "NNX" = OK r2
    /\ cells_of r2 "NNX" = cells_of fuzzy_example "X".
Proof.
  assert (H : exists r1, FuzzyNot fuzzy_example "X" "NONE" "NX" = OK r1
                         /\ mem "NNX" (keys (EEMSFlds r1)) = false).
  { eexists. split; [vm_compute; reflexivity|]. vm_compute. reflexivity. }
  destruct H as [r1 [H1 Hm]]. apply mem_false in Hm.
  destruct (FuzzyNot_involution fuzzy_example r1 "X" "NONE" "NX" "NONE" "NNX"
              (arr [num 1; lit 5 1; num (-1); None])) as [r2 [H2 [_ Hc]]].
  - reflexivity.
  - repeat constructor.
  - simpl. intros [E|[E|[E|[E|[]]]]]; discriminate.
  - exact H1.
  - exact Hm.
  - exists r1, r2. split; [exact H1|]. split; [exact H2|]. rewrite Hc. reflexivity.
Defined.

End RegistryFacts.

(** ** What a constructed command has *)

Section ConstructedFacts.
Import PyStr PyRe PyDict Cmd Prog Spec Sched CmdObs.
Local Open Scope string_scope.

Lemma cmdDescTable_read_ok : forallb read_desc_ok cmdDescTable = true.
Proof. vm_compute. reflexivity. Qed.

Lemma cmdDescTable_no_skip : forallb no_skip_type cmdDescTable = true.
Proof. vm_compute. reflexivity. Qed.

Lemma constructed_read_desc_ok (c : EEMSCmd) :
  constructed c -> read_desc_ok (cmdDesc c) = true.
Proof.
  intro H. destruct (constructed_parts c H) as [Hin _].
  pose proof cmdDescTable_read_ok as Ht. rewrite forallb_forall in Ht. apply Ht. exact Hin.
Qed.

Lemma get_In {V : Type} (d : dict V) (k : string) (v : V) :
  get d k = Some v -> In (k, v) d.
Proof.
  induction d as [|[k' v'] d IH]; simpl; [discriminate|].
  destruct (String.eqb k' k) eqn:E.
  - intro H. injection H as <-. apply String.eqb_eq in E. subst. left. reflexivity.
  - intro H. right. apply IH. exact H.
Qed.

Lemma declared_type_not_skip (c : EEMSCmd) (k ty : string) :
  constructed c -> declared_type (cmdDesc c) k = Some ty -> String.eqb ty "skip" = false.
Proof.
  intros H Hd. destruct (constructed_parts c H) as [Hin _].
  pose proof cmdDescTable_no_skip as Ht. rewrite forallb_forall in Ht.
  specialize (Ht _ Hin). unfold no_skip_type in Ht. rewrite forallb_forall in Ht.
  unfold declared_type in Hd.
  assert (Hkv : In (k, ty) (RequiredParams (cmdDesc c) ++ OptionalParams (cmdDesc c))%list).
  { apply in_or_app.
    destruct (mem k (keys (RequiredParams (cmdDesc c)))); [left; apply get_In; exact Hd|].
    destruct (mem k (keys (OptionalParams (cmdDesc c)))); [right; apply get_In; exact Hd|].
    discriminate. }
  specialize (Ht _ Hkv). simpl in Ht. apply negb_true_iff in Ht. exact Ht.
Qed.

(** The value of every parameter the description declares has passed
    the check of its type. *)
Lemma checked_value (c : EEMSCmd) (k v ty : string) :
  constructed c ->
  get (params (parsedCmd c)) k = Some v ->
  declared_type (cmdDesc c) k = Some ty ->
  IsParamType v ty = OK true.
Proof.
  intros H Hv Hd. pose proof (declared_type_not_skip c k ty H Hd) as Hs.
  destruct (constructed_parts c H) as [_ [_ [_ [_ [_ [o Hval]]]]]].
  unfold check_values in Hval.
  assert (Hin : In k (keys (params (parsedCmd c)))).
  { apply mem_In. apply mem_keys_get. eauto. }
  destruct (for_each_In _ _ _ _ Hval k Hin) as [s1 [s2 Hb]].
  unfold declared_type in Hd.
  assert (Hty : (if mem k (keys (RequiredParams (cmdDesc c)))
                 then get (RequiredParams (cmdDesc c)) k
                 else if mem k (keys (OptionalParams (cmdDesc c)))
                      then get (OptionalParams (cmdDesc c)) k
                      else if mem (cmd (parsedCmd c)) ["CALLEXTERN"] then Some "skip"
                           else s1) = Some ty).
  { destruct (mem k (keys (RequiredParams (cmdDesc c)))); [exact Hd|].
    destruct (mem k (keys (OptionalParams (cmdDesc c)))); [exact Hd | discriminate]. }
  rewrite Hty in Hb. rewrite Hs in Hb. simpl in Hb.
  rewrite (item_get _ _ _ Hv) in Hb. simpl in Hb.
  destruct (IsParamType v ty) as [[|]|e]; simpl in Hb; try discriminate. reflexivity.
Qed.

Lemma GetParam_optional_name (c : EEMSCmd) (k v : string) :
  mem k (keys (RequiredParams (cmdDesc c))) = false ->
  get (OptionalParams (cmdDesc c)) k = Some "Field Name" ->
  get (params (parsedCmd c)) k = Some v ->
  GetParam c k = OK (VStr v).
Proof.
  intros Hr Hk Hv. unfold GetParam, GetParamType, IsRequiredParam, IsOptionalParam.
  assert (Hm : mem k (keys (OptionalParams (cmdDesc c))) = true).
  { apply mem_keys_get. eauto. }
  rewrite Hr, Hm, (item_get _ _ _ Hk). simpl. rewrite Hv. reflexivity.
Qed.

Lemma GetParam_optional_list (c : EEMSCmd) (k v : string) (l : list string) :
  mem k (keys (RequiredParams (cmdDesc c))) = false ->
  get (OptionalParams (cmdDesc c)) k = Some "Field Name List" ->
  get (params (parsedCmd c)) k = Some v ->
  ListFromListParam v = Some l ->
  GetParam c k = OK (VStrList l).
Proof.
  intros Hr Hk Hv Hl. unfold GetParam, GetParamType, IsRequiredParam, IsOptionalParam.
  assert (Hm : mem k (keys (OptionalParams (cmdDesc c))) = true).
  { apply mem_keys_get. eauto. }
  rewrite Hr, Hm, (item_get _ _ _ Hk). simpl. rewrite Hv.
  unfold list_of_param. rewrite Hl. reflexivity.
Qed.

(** [__GetReadFieldNms] never fails on a constructed read command. *)
Lemma constructed_read_names (c : EEMSCmd) :
  constructed c -> IsReadCmd c = true -> exists names, GetReadFieldNms c = OK names.
Proof.
  intros H Hr. pose proof (constructed_read_desc_ok c H) as Hd.
  destruct (constructed_parts c H) as [_ [Hn _]].
  unfold GetReadFieldNms, GetCommandName. unfold IsReadCmd in Hr.
  unfold read_desc_ok in Hd. rewrite Hn in Hd.
  unfold mem in Hr |- *. simpl existsb in Hr |- *.
  destruct (String.eqb (cmd (parsedCmd c)) "READ") eqn:E1; simpl.
  - repeat (apply andb_prop in Hd; let H' := fresh "Hc" in destruct Hd as [Hd H']).
    apply opt_is_eq in Hd, Hc. apply negb_true_iff in Hc0.
    destruct (HasParam c "NewFieldName") eqn:Hp.
    + unfold HasParam in Hp. apply mem_keys_get in Hp. destruct Hp as [v Hv].
      rewrite (GetParam_optional_name c _ v Hc0 Hc Hv). simpl. eauto.
    + destruct (required_present c _ _ H Hd) as [v Hv].
      rewrite (GetParam_field_name c _ v Hd Hv). simpl. eauto.
  - destruct (String.eqb (cmd (parsedCmd c)) "READMULTI") eqn:E2; simpl in Hr;
      [|discriminate]. simpl.
    repeat (apply andb_prop in Hd; let H' := fresh "Hc" in destruct Hd as [Hd H']).
    apply opt_is_eq in Hd, Hc. apply negb_true_iff in Hc0.
    destruct (HasParam c "NewFieldNames") eqn:Hp.
    + unfold HasParam in Hp. apply mem_keys_get in Hp. destruct Hp as [v Hv].
      assert (Hty : declared_type (cmdDesc c) "NewFieldNames" = Some "Field Name List").
      { unfold declared_type. rewrite Hc0.
        assert (Hm : mem "NewFieldNames" (keys (OptionalParams (cmdDesc c))) = true)
          by (apply mem_keys_get; eauto).
        rewrite Hm. exact Hc. }
      destruct (IsParamType_field_list v (checked_value c _ v _ H Hv Hty)) as [l Hl].
      rewrite (GetParam_optional_list c _ v l Hc0 Hc Hv Hl). simpl. eauto.
    + destruct (required_present c _ _ H Hd) as [v Hv].
      destruct (checked_field_list c _ v H Hd Hv) as [l Hl].
      rewrite (GetParam_field_list c _ v l Hd Hv Hl). simpl. eauto.
Qed.

(** A command has a result name exactly when it is no read command. *)
Lemma constructed_result_iff (c : EEMSCmd) :
  constructed c -> HasResultName c = negb (IsReadCmd c).
Proof.
  intro H. destruct (IsReadCmd c) eqn:Hr; simpl.
  - unfold HasResultName. rewrite (read_cmd_no_result c H Hr). reflexivity.
  - pose proof (constructed_read_desc_ok c H) as Hd.
    destruct (constructed_parts c H) as [_ [Hn [Hres _]]].
    unfold read_desc_ok in Hd. rewrite Hn in Hd. unfold IsReadCmd, mem in Hr.
    simpl existsb in Hr.
    destruct (String.eqb (cmd (parsedCmd c)) "READ"); [discriminate|].
    destruct (String.eqb (cmd (parsedCmd c)) "READMULTI"); [discriminate|].
    unfold check_result in Hres. unfold HasResultName.
    destruct (Result (cmdDesc c)); [|discriminate].
    destruct (rslt (parsedCmd c)); [reflexivity | discriminate].
Qed.

End ConstructedFacts.

(** ** The ways a loading ends *)

Section OutcomeFacts.
Import PyStr PyRe PyDict Cmd Prog Spec Sched CmdObs.
Local Open Scope string_scope.

Lemma required_has (c : EEMSCmd) (k : string) :
  constructed c -> IsRequiredParam c k = true -> HasParam c k = true.
Proof.
  intros H Hk. unfold IsRequiredParam in Hk. apply mem_keys_get in Hk.
  destruct Hk as [ty Hty]. destruct (required_present c k ty H Hty) as [v Hv].
  unfold HasParam. apply mem_keys_get. eauto.
Qed.

Lemma has_declared (c : EEMSCmd) (k : string) :
  constructed c -> GetCommandName c <> "CALLEXTERN" -> HasParam c k = true ->
  IsRequiredParam c k = true \/ IsOptionalParam c k = true.
Proof.
  intros H Hx Hk. destruct (constructed_parts c H) as [_ [_ [_ [Hnames _]]]].
  unfold check_param_names in Hnames. unfold GetCommandName in Hx.
  assert (E : mem (cmd (parsedCmd c)) ["CALLEXTERN"] = false).
  { apply mem_false. intros [He|[]]. apply Hx. symmetry. exact He. }
  rewrite E in Hnames. simpl in Hnames. unfold HasParam in Hk. apply mem_In in Hk.
  destruct (for_each_In _ _ _ _ Hnames k Hk) as [s1 [s2 Hb]].
  unfold IsRequiredParam, IsOptionalParam.
  destruct (mem k (keys (RequiredParams (cmdDesc c)) ++ keys (OptionalParams (cmdDesc c)))%list)
    eqn:Em; [|discriminate].
  apply mem_In in Em. apply in_app_or in Em.
  destruct Em as [Em|Em]; [left | right]; apply mem_In; exact Em.
Qed.

Lemma constructed_result_name (c : EEMSCmd) :
  constructed c -> IsReadCmd c = false -> exists r, GetResultName c = OK r.
Proof.
  intros H Hr. pose proof (constructed_result_iff c H) as Hres. rewrite Hr in Hres.
  simpl in Hres. unfold HasResultName in Hres. unfold GetResultName.
  destruct (rslt (parsedCmd c)) as [r|]; [eauto | discriminate].
Qed.

(** X13.  What construction guarantees of a command: its description is
    the entry of the table with its name; every required parameter is
    given; unless the command is CALLEXTERN every parameter given is a
    required or an optional one; the value of every parameter the
    description declares has passed the check of the declared type; it
    has a result name exactly when it is no read command; and the
    methods the scheduler calls on it do not fail. *)
Theorem constructed_command_invariants (c : EEMSCmd) :
  constructed c ->
  In (cmdDesc c) cmdDescTable
  /\ Name (cmdDesc c) = GetCommandName c
  /\ (forall k, IsRequiredParam c k = true -> HasParam c k = true)
  /\ (GetCommandName c <> "CALLEXTERN" ->
      forall k, HasParam c k = true ->
                IsRequiredParam c k = true \/ IsOptionalParam c k = true)
  /\ (forall k v ty,
        get (params (parsedCmd c)) k = Some v ->
        declared_type (cmdDesc c) k = Some ty ->
        IsParamType v ty = OK true)
  /\ HasResultName c = negb (IsReadCmd c)
  /\ (exists deps, GetDependFieldNms c = OK deps)
  /\ (IsReadCmd c = true -> exists names, GetReadFieldNms c = OK names)
  /\ (IsReadCmd c = false -> exists r, GetResultName c = OK r).
Proof.
  intro H. destruct (constructed_parts c H) as [Hin [Hn _]].
  split; [exact Hin|]. split; [exact Hn|].
  split; [intros k Hk; apply (required_has c k H Hk)|].
  split; [intros Hx k Hk; apply (has_declared c k H Hx Hk)|].
  split; [intros k v ty Hv Hty; apply (checked_value c k v ty H Hv Hty)|].
  split; [apply (constructed_result_iff c H)|].
  split; [apply (constructed_depends c H)|].
  split; [apply (constructed_read_names c H) | apply (constructed_result_name c H)].
Qed.

Lemma constructed_command_invariants_witness :
  exists c,
    EEMSCmd_init "C = NOT(InFieldName=B)" = OK c
    /\ HasResultName c = negb (IsReadCmd c)
    /\ exists deps, GetDependFieldNms c = OK deps.
Proof.
  assert (H : exists c, EEMSCmd_init "C = NOT(InFieldName=B)" = OK c)
    by (eexists; vm_compute; reflexivity).
  destruct H as [c H]. exists c. split; [exact H|].
  assert (Hc : constructed c) by (exists "C = NOT(InFieldName=B)"; exact H).
  destruct (constructed_command_invariants c Hc) as [_ [_ [_ [_ [_ [H1 [H2 _]]]]]]].
  split; [exact H1 | exact H2].
Defined.

(** The sweep does not fail on constructed commands. *)
Lemma try_order_total (c : EEMSCmd) (ord : list EEMSCmd) (dp : list string) :
  constructed c -> exists o, try_order c ord dp = OK o.
Proof.
  intro H. unfold try_order. destruct (IsReadCmd c) eqn:Hr.
  - destruct (constructed_read_names c H Hr) as [names ->]. simpl. eauto.
  - destruct (constructed_depends c H) as [deps ->]. simpl.
    destruct (forallb (fun dependFldNm => mem dependFldNm dp) deps); [|eauto].
    destruct (constructed_result_name c H Hr) as [r ->]. simpl. eauto.
Qed.

Lemma sweep_rec_total (l : list EEMSCmd) (ord : list EEMSCmd) (dp : list string) :
  Forall constructed l -> exists st, sweep_rec l ord dp = OK st.
Proof.
  induction l as [|c tl IH]; intro Hl; simpl; [eauto|].
  inversion Hl as [|? ? Hc Htl]; subst. destruct (IH Htl) as [st ->]. simpl.
  destruct (try_order_total c (orderedCmds st) (dpndsInOrderedCmds st) Hc) as [o ->].
  simpl. destruct o as [[ord' dp']|]; eauto.
Qed.

Lemma sweep_total (st : orderSt) :
  Forall constructed (toOrder st) -> exists st', sweep st = OK st'.
Proof. rewrite sweep_eq. apply sweep_rec_total. Qed.

(** The loop ends with the ordered list or with the circular logic
    error of the commands that are left. *)
Lemma order_loop_cases (n : nat) (st : orderSt) :
  Forall constructed (toOrder st) ->
  (exists res, order_loop n st = OK res)
  \/ (exists l, l <> [] /\ subseq l (toOrder st)
                /\ order_loop n st = Raise (circular_logic l)).
Proof.
  revert st. induction n as [|n IH]; intros st Hl; simpl; [left; eauto|].
  destruct (0 <? List.length (toOrder st))%nat eqn:E0; [|left; eauto].
  destruct (sweep_total st Hl) as [st' Hs]. rewrite Hs. simpl.
  destruct (sweep_moves st st' Hs) as [m [_ [_ [Hsub [Hp _]]]]].
  destruct (List.length (toOrder st) =? List.length (toOrder st'))%nat eqn:E1.
  - right. exists (toOrder st'). split; [|split; [exact Hsub | reflexivity]].
    apply Nat.eqb_eq in E1. apply Nat.ltb_lt in E0. intro He. rewrite He in E1.
    simpl in E1. lia.
  - assert (Hl' : Forall constructed (toOrder st')).
    { rewrite Forall_forall in *. intros x Hx. apply Hl.
      apply (Permutation_in x (Permutation_sym Hp)). apply in_or_app. left. exact Hx. }
    destruct (IH st' Hl') as [[res Hres]|[l [Hne [Hsl Hr]]]].
    + left. eauto.
    + right. exists l. split; [exact Hne|]. split; [|exact Hr].
      exact (subseq_trans _ _ _ Hsl Hsub).
Qed.

(** X14.  A program file that was read (every statement a command that
    passed construction, no field defined twice) ends its loading in
    one of three ways and no other: the program is loaded; or the
    undefined-field error of a command of the program and a field it
    references; or, the check for undefined fields passed, the circular
    logic error of a part of the commands, in the order of their
    statements, that is not empty. *)
Theorem loading_outcomes (fNm : string) (lines : list string) (p : progSt) :
  read_program fNm lines = OK p ->
  (exists prog, EEMSProgram_init fNm lines = OK prog)
  \/ (exists f c, In c (unorderedCmds p) /\ references c f
                  /\ ~ In f (keys (allDefinedFieldNms p))
                  /\ EEMSProgram_init fNm lines = Raise (undefined_field f c))
  \/ (exists l, l <> [] /\ subseq l (unorderedCmds p)
                /\ check_missing (unorderedCmds p) (allDefinedFieldNms p) = OK tt
                /\ EEMSProgram_init fNm lines = Raise (circular_logic l)).
Proof.
  intro Hp. destruct (read_program_registered _ _ _ Hp) as [[Hc _] _].
  unfold EEMSProgram_init. rewrite Hp. simpl. unfold OrderCmds.
  destruct (check_missing_cases (allDefinedFieldNms p) _ Hc)
    as [[_ Hok]|[pre [c [post [f [He [_ [Hr [Hn Hraise]]]]]]]]].
  - rewrite Hok. simpl.
    destruct (order_loop_cases (List.length (unorderedCmds p))
                (mkOrderSt (unorderedCmds p) [] []) Hc) as [[res Hres]|[l [Hne [Hsl Hr]]]].
    + left. rewrite Hres. simpl. eauto.
    + right. right. exists l. rewrite Hr. simpl.
      split; [exact Hne|]. split; [exact Hsl|]. split; reflexivity.
  - right. left. exists f, c. rewrite Hraise. simpl.
    split; [rewrite He; apply in_or_app; right; left; reflexivity|].
    split; [exact Hr|]. split; [exact Hn | reflexivity].
Qed.

Lemma loading_outcomes_witness :
  exists p,
    read_program "prog.eem" cycle_program = OK p
    /\ ((exists prog, EEMSProgram_init "prog.eem" cycle_program = OK prog)
        \/ (exists f c, In c (unorderedCmds p) /\ references c f
                        /\ ~ In f (keys (allDefinedFieldNms p))
                        /\ EEMSProgram_init "prog.eem" cycle_program
                           = Raise (undefined_field f c))
        \/ (exists l, l <> [] /\ subseq l (unorderedCmds p)
                      /\ check_missing (unorderedCmds p) (allDefinedFieldNms p) = OK tt
                      /\ EEMSProgram_init "prog.eem" cycle_program
                         = Raise (circular_logic l))).
Proof.
  assert (H : exists p, read_program "prog.eem" cycle_program = OK p)
    by (eexists; vm_compute; reflexivity).
  destruct H as [p H]. exists p. split; [exact H|].
  exact (loading_outcomes _ _ p H).
Defined.

End OutcomeFacts.

(** ** The work loop of the interpreter *)

Section WorkLoopFacts.
Import PyStr PyDict Cmd Prog Runner Interp Nav Spec.
Local Open Scope string_scope.

Variable ReadMulti : runner -> pyval -> pyval -> pyval -> pyval -> result runner.
Variable Finish : runner -> result runner.
Variable dflt ovr : dict pyval.
Variable np_sum : list F64.float -> F64.float.

Lemma GetCrntCmd_at (p : EEMSProgram) (pre rest : list EEMSCmd) (c : EEMSCmd) :
  progOrderedCmds p = (pre ++ c :: rest)%list ->
  crntCmdNdx p = Some (Z.of_nat (List.length pre)) ->
  GetCrntCmd p = OK c.
Proof.
  intros Hc Hi. unfold GetCrntCmd. rewrite Hi, Hc. cbv zeta.
  assert (E1 : (Z.of_nat (List.length pre) <? 0)%Z = false) by (apply Z.ltb_ge; lia).
  rewrite !E1. simpl orb.
  assert (E2 : (Z.of_nat (List.length (pre ++ c :: rest)) <=? Z.of_nat (List.length pre))%Z
               = false).
  { apply Z.leb_gt. rewrite length_app. simpl. lia. }
  rewrite E2. rewrite Nat2Z.id. unfold index.
  rewrite nth_error_app2, Nat.sub_diag by lia. reflexivity.
Qed.

Lemma NextCmd_at (p : EEMSProgram) (pre rest : list EEMSCmd) (c : EEMSCmd) :
  progOrderedCmds p = (pre ++ c :: rest)%list ->
  crntCmdNdx p = Some (Z.of_nat (List.length pre)) ->
  NextCmd p
  = match rest with
    | [] => OK (set_cursor p None, false)
    | _ => OK (set_cursor p (Some (Z.of_nat (List.length (pre ++ [c])))), true)
    end.
Proof.
  intros Hc Hi. unfold NextCmd. rewrite Hi, Hc. cbv zeta.
  destruct rest as [|c' rest].
  - assert (E : (Z.of_nat (List.length (pre ++ [c])) <=? Z.of_nat (List.length pre) + 1)%Z
                = true) by (apply Z.leb_le; rewrite length_app; simpl; lia).
    rewrite E. reflexivity.
  - assert (E : (Z.of_nat (List.length (pre ++ c :: c' :: rest))
                 <=? Z.of_nat (List.length pre) + 1)%Z = false)
      by (apply Z.leb_gt; rewrite length_app; simpl; lia).
    rewrite E.
    replace (Z.of_nat (List.length (pre ++ [c]))) with (Z.of_nat (List.length pre) + 1)%Z
      by (rewrite length_app; simpl; lia).
    reflexivity.
Qed.

(** From a cursor inside the list, the loop runs the commands from the
    cursor to the end, one after the other, and leaves the cursor
    [None]. *)
Lemma work_loop_from (rest pre : list EEMSCmd) (p : EEMSProgram) (r : runner)
    (fuel : nat) :
  rest <> [] ->
  progOrderedCmds p = (pre ++ rest)%list ->
  crntCmdNdx p = Some (Z.of_nat (List.length pre)) ->
  (List.length rest <= fuel)%nat ->
  work_loop ReadMulti dflt ovr np_sum fuel p r
  = Some (r' <- for_each rest (run_cmd ReadMulti dflt ovr np_sum) r ;;
          OK (set_cursor p None, r')).
Proof.
  revert pre p r fuel. induction rest as [|c rest IH]; intros pre p r fuel Hne Hc Hi Hf;
    [contradiction|].
  destruct fuel as [|fuel]; [simpl in Hf; lia|]. simpl work_loop.
  rewrite (GetCrntCmd_at p pre rest c Hc Hi). simpl bind.
  destruct (run_cmd ReadMulti dflt ovr np_sum c r) as [r'|e]; [|reflexivity].
  rewrite (NextCmd_at p pre rest c Hc Hi). destruct rest as [|c' rest]; [reflexivity|].
  rewrite (IH (pre ++ [c])%list (set_cursor p (Some (Z.of_nat (List.length (pre ++ [c])))))
              r' fuel).
  - reflexivity.
  - discriminate.
  - simpl. rewrite Hc, <- app_assoc. reflexivity.
  - reflexivity.
  - simpl in Hf |- *. lia.
Qed.

(** X15.  The work loop of [RunProgram], written on the cursor of the
    program, does what a loop over the ordered list does: from the
    cursor at the first command it runs every command once, in order,
    stops at the first one that raises, and after the last one calls
    [Finish]; it ends with the cursor [None], so that a second
    [RunProgram] without [SetCrntCmdToFirst] raises a TypeError before
    any command runs. *)
Theorem RunProgram_loop_runs_in_order (p : EEMSProgram) (r : runner) (fuel : nat) :
  crntCmdNdx p = Some 0%Z ->
  (1 <= fuel)%nat ->
  (List.length (progOrderedCmds p) <= fuel)%nat ->
  RunProgram_loop ReadMulti Finish dflt ovr np_sum fuel p r
  = Some (r' <- RunProgram ReadMulti Finish dflt ovr np_sum p r ;; OK (set_cursor p None, r'))
  /\ RunProgram_loop ReadMulti Finish dflt ovr np_sum fuel (set_cursor p None) r
     = Some (Raise (TypeError "list indices must be integers or slices, not NoneType")).
Proof.
  intros Hi H1 Hf. split.
  - unfold RunProgram_loop, RunProgram.
    destruct (progOrderedCmds p) as [|c cmds] eqn:Hc.
    + destruct fuel as [|fuel]; [lia|]. simpl. unfold GetCrntCmd. rewrite Hi, Hc.
      reflexivity.
    + rewrite (work_loop_from (c :: cmds) [] p r fuel); [|discriminate|exact Hc|exact Hi|exact Hf].
      destruct (for_each (c :: cmds) (run_cmd ReadMulti dflt ovr np_sum) r) as [r'|e];
        reflexivity.
  - destruct fuel as [|fuel]; [lia|]. reflexivity.
Qed.

End WorkLoopFacts.

Section WorkLoopWitness.
Import PyStr PyDict Cmd Prog Runner Interp Nav Spec Sched.
Local Open Scope string_scope.

(** The end-to-end run of the chain: the program is loaded from its
    three statements, declared last command first; the loop reads A,
    converts it to B and negates B to C, calls [Finish] and leaves the
    cursor [None]. *)
Lemma RunProgram_loop_runs_in_order_witness :
  exists r',
    map GetCommandString (progOrderedCmds chain_loaded)
    = ["READ(InFileName=in,InFieldName=A)";
       "B = CVTTOFUZZY(InFieldName=A,TrueThreshold=100,FalseThreshold=0)";
       "C = NOT(InFieldName=B)"]
    /\ RunProgram (table_reader raw_table) (fun r => OK r) [] [] sum_in_order
         chain_loaded runner_init = OK r'
    /\ keys (EEMSFlds r') = ["A"; "B"; "C"]
    /\ RunProgram_loop (table_reader raw_table) (fun r => OK r) [] [] sum_in_order 3
         chain_loaded runner_init
       = Some (OK (set_cursor chain_loaded None, r'))
    /\ RunProgram_loop (table_reader raw_table) (fun r => OK r) [] [] sum_in_order 3
         (set_cursor chain_loaded None) runner_init
       = Some (Raise (TypeError "list indices must be integers or slices, not NoneType")).
Proof.
  assert (H : exists r',
             RunProgram (table_reader raw_table) (fun r => OK r) [] [] sum_in_order
               chain_loaded runner_init = OK r'
             /\ keys (EEMSFlds r') = ["A"; "B"; "C"]).
  { eexists. split; [vm_compute; reflexivity|]. vm_compute. reflexivity. }
  destruct H as [r' [Hr Hk]]. exists r'.
  split; [vm_compute; reflexivity|].
  split; [exact Hr|]. split; [exact Hk|].
  destruct (RunProgram_loop_runs_in_order (table_reader raw_table) (fun r => OK r) [] []
              sum_in_order chain_loaded runner_init 3) as [H1 H2].
  - vm_compute. reflexivity.
  - apply Nat.leb_le. reflexivity.
  - apply Nat.leb_le. vm_compute. reflexivity.
  - rewrite Hr in H1. split; [exact H1 | exact H2].
Defined.

End WorkLoopWitness.

(** ** The parameters a command is run with *)

Section ParamFacts.
Import PyStr PyDict Cmd Prog Runner Interp Spec.
Local Open Scope string_scope.

Lemma for_each_ext {A S : Type} (l : list A) (body1 body2 : A -> S -> result S) (s : S) :
  (forall x s', body1 x s' = body2 x s') ->
  for_each l body1 s = for_each l body2 s.
Proof.
  intro H. revert s. induction l as [|x l IH]; simpl; intro s; [reflexivity|].
  rewrite H. destruct (body2 x s); simpl; [apply IH | reflexivity].
Qed.

(** A loop that binds each name of a list to a value that depends on the
    name only. *)
Lemma for_each_set_get {V : Type} (F : string -> result V) (l : list string)
    (d0 d : dict V) :
  for_each l (fun k d' => v <- F k ;; OK (set d' k v)) d0 = OK d ->
  forall k,
    (mem k l = true -> exists v, F k = OK v /\ get d k = Some v)
    /\ (mem k l = false -> get d k = get d0 k).
Proof.
  revert d0. induction l as [|x l IH]; simpl; intros d0 H k.
  - injection H as <-. split; [discriminate | reflexivity].
  - inv_bind H. inv_bind Hv. rename v0 into vx. injection Hv as <-.
    destruct (IH _ H k) as [IH1 IH2]. unfold mem. simpl existsb. fold (mem k l).
    destruct (String.eqb k x) eqn:E; simpl.
    + apply String.eqb_eq in E. subst x. split; [|discriminate]. intros _.
      destruct (mem k l) eqn:Em; [apply IH1; reflexivity|].
      exists vx. split; [exact Hv0|]. rewrite (IH2 eq_refl). apply get_set_same.
    + split; [exact IH1|]. intro Hm. rewrite (IH2 Hm). apply get_set_other.
      intro He. subst. rewrite String.eqb_refl in E. discriminate.
Qed.

(** X16.  The parameters [RunProgram] hands to a command.  For a
    parameter the statement gives, an override value set in the
    interpreter replaces the value of the statement, and without one
    the value of the statement is used; for an optional parameter the
    statement does not give, the default set in the interpreter is
    used, or the string NONE when there is none, and an override is not
    looked at; any other name is not among the parameters. *)
Theorem all_params_precedence (dflt ovr : dict pyval) (c : EEMSCmd) (d : dict pyval) :
  all_params dflt ovr c = OK d ->
  forall k,
    (HasParam c k = true ->
     forall v, get ovr k = Some v -> get d k = Some v)
    /\ (HasParam c k = true -> get ovr k = None ->
        exists v, GetParam c k = OK v /\ get d k = Some v)
    /\ (HasParam c k = false -> IsOptionalParam c k = true ->
        get d k = Some (match get dflt k with Some v => v | None => VStr "NONE" end))
    /\ (HasParam c k = false -> IsOptionalParam c k = false -> get d k = None).
Proof.
  intros H k. unfold all_params in H. inv_bind H. rename v into d1.
  unfold optional_params in Hv.
  rewrite (for_each_ext _ _
             (fun k d' =>
                v <- (if HasParam c k then GetParam c k
                      else OK (match get dflt k with Some v => v | None => VStr "NONE" end)) ;;
                OK (set d' k v))) in Hv.
  2:{ intros x s'. destruct (HasParam c x); [reflexivity|].
      destruct (get dflt x); reflexivity. }
  rewrite (for_each_ext _ _
             (fun k d' =>
                v <- (match get ovr k with Some v => OK v | None => GetParam c k end) ;;
                OK (set d' k v))) in H.
  2:{ intros x s'. destruct (get ovr x); reflexivity. }
  destruct (for_each_set_get _ _ _ _ Hv k) as [O1 O2].
  destruct (for_each_set_get _ _ _ _ H k) as [P1 P2].
  unfold GetParamNames in P1, P2. unfold GetOptionalParamNames in O1, O2.
  unfold HasParam, IsOptionalParam.
  split; [|split; [|split]].
  - intros Hh v Hov. destruct (P1 Hh) as [v' [Hv' Hg]]. rewrite Hov in Hv'.
    injection Hv' as <-. exact Hg.
  - intros Hh Hov. destruct (P1 Hh) as [v' [Hv' Hg]]. rewrite Hov in Hv'.
    exists v'. split; assumption.
  - intros Hh Ho. rewrite (P2 Hh). destruct (O1 Ho) as [v' [Hv' Hg]].
    unfold HasParam in Hv'. rewrite Hh in Hv'. injection Hv' as <-. exact Hg.
  - intros Hh Ho. rewrite (P2 Hh), (O2 Ho). reflexivity.
Qed.

Lemma all_params_precedence_witness :
  exists d,
    all_params [("OutFileName", VStr "out.csv")] [("InFieldName", VStr "Z")]
      (cmd_of "C = NOT(InFieldName=B)") = OK d
    /\ get d "InFieldName" = Some (VStr "Z")
    /\ get d "OutFileName" = Some (VStr "out.csv").
Proof.
  assert (H : exists d,
             all_params [("OutFileName", VStr "out.csv")] [("InFieldName", VStr "Z")]
               (cmd_of "C = NOT(InFieldName=B)") = OK d)
    by (eexists; vm_compute; reflexivity).
  destruct H as [d H]. exists d. split; [exact H|].
  pose proof (all_params_precedence _ _ _ _ H "InFieldName") as [H1 _].
  pose proof (all_params_precedence _ _ _ _ H "OutFileName") as [_ [_ [H3 _]]].
  split.
  - apply H1; vm_compute; reflexivity.
  - apply H3; vm_compute; reflexivity.
Defined.

End ParamFacts.

(** ** The integer parameters *)

Section IntegerFacts.
Import PyStr PyRe PyDict Cmd Prog Spec.
Local Open Scope string_scope.

Lemma IsStrValidInt_digit (s : string) :
  IsStrValidInt s = true ->
  exists d, is_digit d = true /\ (s = String d "" \/ s = String d NL).
Proof.
  unfold IsStrValidInt, matches, re_match, reInt, Seq, Digit.
  destruct s as [|a [|b [|c s']]]; simpl.
  - discriminate.
  - destruct (is_digit a) eqn:E; [|discriminate]. intros _. exists a. auto.
  - destruct (is_digit a) eqn:E; [|discriminate].
    destruct (Ascii.eqb b nl) eqn:E2; [|discriminate]. intros _.
    apply Ascii.eqb_eq in E2. subst. exists a. auto.
  - destruct (is_digit a); discriminate.
Qed.

Lemma digit_IsStrValidInt (d : ascii) :
  is_digit d = true ->
  IsStrValidInt (String d "") = true /\ IsStrValidInt (String d NL) = true.
Proof.
  intro H. unfold IsStrValidInt, matches, re_match, reInt, Seq, Digit. simpl.
  rewrite H. split; reflexivity.
Qed.

Lemma py_int_digit (d : ascii) :
  is_digit d = true ->
  py_int (String d "") = OK (digit_val d)
  /\ py_int (String d NL) = OK (digit_val d)
  /\ (0 <= digit_val d <= 9)%Z.
Proof.
  intro H. destruct d as [[] [] [] [] [] [] [] []]; vm_compute in H; try discriminate;
    vm_compute; repeat split; congruence.
Qed.

(** X17.  An integer parameter is one digit.  [__IsStrValidInt] accepts
    exactly the texts of a single decimal digit (possibly followed by a
    line end), so the type Integer accepts the values 0 to 9 and the
    type Positive Integer, the type of NumberToConsider, the values 1
    to 9: a number of two digits or more is refused. *)
Theorem integer_parameter_single_digit :
  (forall s, IsStrValidInt s = true <->
             exists d, is_digit d = true /\ (s = String d "" \/ s = String d NL))
  /\ (forall s, IsParamType s "Integer" = OK (IsStrValidInt s))
  /\ (forall s, IsParamType s "Positive Integer" = OK true <->
                exists d, is_digit d = true /\ (1 <= digit_val d)%Z
                          /\ (s = String d "" \/ s = String d NL))
  /\ (forall s n, IsStrValidInt s = true -> py_int s = OK n -> (0 <= n <= 9)%Z)
  /\ (forall s, (3 <= String.length s)%nat ->
                IsParamType s "Integer" = OK false
                /\ IsParamType s "Positive Integer" = OK false).
Proof.
  assert (Hpos : forall s, IsParamType s "Positive Integer"
                           = if IsStrValidInt s then n <- py_int s ;; OK (0 <? n)%Z
                             else OK false) by reflexivity.
  assert (Hlong : forall s, (3 <= String.length s)%nat -> IsStrValidInt s = false).
  { intros s Hl. destruct (IsStrValidInt s) eqn:E; [|reflexivity].
    destruct (IsStrValidInt_digit s E) as [d [_ [->| ->]]]; simpl in Hl; lia. }
  split; [|split; [|split; [|split]]].
  - intro s. split; [apply IsStrValidInt_digit|].
    intros [d [Hd [->| ->]]]; apply (digit_IsStrValidInt d Hd).
  - intro s. reflexivity.
  - intro s. rewrite Hpos. split.
    + destruct (IsStrValidInt s) eqn:E; [|discriminate].
      destruct (IsStrValidInt_digit s E) as [d [Hd Hs]].
      destruct (py_int_digit d Hd) as [P1 [P2 _]].
      intro H. exists d. split; [exact Hd|]. split; [|exact Hs].
      destruct Hs as [->| ->]; [rewrite P1 in H | rewrite P2 in H]; simpl in H;
        injection H as H; apply Z.ltb_lt in H; lia.
    + intros [d [Hd [Hv Hs]]]. destruct (digit_IsStrValidInt d Hd) as [V1 V2].
      destruct (py_int_digit d Hd) as [P1 [P2 _]].
      assert (E : (0 <? digit_val d)%Z = true) by (apply Z.ltb_lt; lia).
      destruct Hs as [->| ->]; [rewrite V1, P1 | rewrite V2, P2]; simpl; rewrite E;
        reflexivity.
  - intros s n Hv Hn. destruct (IsStrValidInt_digit s Hv) as [d [Hd Hs]].
    destruct (py_int_digit d Hd) as [P1 [P2 Hr]].
    destruct Hs as [->| ->]; [rewrite P1 in Hn | rewrite P2 in Hn]; injection Hn as <-;
      exact Hr.
  - intros s Hl. rewrite Hpos. change (IsParamType s "Integer") with (OK (IsStrValidInt s)).
    rewrite (Hlong s Hl). split; reflexivity.
Qed.

End IntegerFacts.

(** ** The conversion by categories *)

Section CatFacts.
Import PyStr PyDict Cmd Runner Spec Obs.
Local Open Scope string_scope.

Lemma zip_with_length {A B C : Type} (f : A -> B -> C) (l : list A) (l' : list B) :
  List.length l' = List.length l -> List.length (zip_with f l l') = List.length l.
Proof.
  revert l'. induction l as [|x l IH]; intros [|y l'] H; simpl in *; try discriminate;
    [reflexivity|]. f_equal. apply IH. lia.
Qed.

Lemma zip_with_keep {A B : Type} (l : list A) (l' : list B) :
  List.length l' = List.length l -> zip_with (fun _ old => old) l l' = l'.
Proof.
  revert l'. induction l as [|x l IH]; intros [|y l'] H; simpl in *; try discriminate;
    [reflexivity|]. f_equal. apply IH. lia.
Qed.

Lemma zip_with_zip_with {A B : Type} (f g : A -> B -> B) (l : list A) (l' : list B) :
  zip_with g l (zip_with f l l') = zip_with (fun x old => g x (f x old)) l l'.
Proof.
  revert l'. induction l as [|x l IH]; intros [|y l']; simpl; try reflexivity.
  f_equal. apply IH.
Qed.

Lemma zip_with_map_r {A B C : Type} (f : A -> B -> C) (g : A -> B) (l : list A) :
  zip_with f l (map g l) = map (fun x => f x (g x)) l.
Proof. induction l as [|x l IH]; simpl; [reflexivity | f_equal; exact IH]. Qed.

Lemma zip_with_ext {A B C : Type} (f g : A -> B -> C) (l : list A) (l' : list B) :
  (forall x y, f x y = g x y) -> zip_with f l l' = zip_with g l l'.
Proof.
  intro H. revert l'. induction l as [|x l IH]; intros [|y l']; simpl; try reflexivity.
  rewrite H. f_equal. apply IH.
Qed.

(** The loop over the raw values, cell by cell. *)
Lemma cat_lookup_cells (raw fuz : list float) (d nd res : list cell) :
  List.length nd = List.length d ->
  cat_lookup d raw fuz nd = OK res ->
  res = zip_with (cat_cell raw fuz) d nd /\ (List.length raw <= List.length fuz)%nat.
Proof.
  revert fuz nd. induction raw as [|x raw IH]; intros fuz nd Hl H.
  - simpl in H. injection H as <-. split; [|simpl; lia].
    symmetry. rewrite (zip_with_ext _ (fun _ old => old)); [apply zip_with_keep; exact Hl|].
    intros c old. destruct fuz; reflexivity.
  - destruct fuz as [|y fuz]; [discriminate|]. simpl in H.
    assert (Hl' : List.length
                    (zip_with (fun c old : cell =>
                                 cwhere (ceq c (Some x)) (Some y) old) d nd)
                  = List.length d) by (apply zip_with_length; congruence).
    destruct (IH fuz _ Hl' H) as [-> Hlen].
    split; [|simpl; lia]. rewrite zip_with_zip_with. reflexivity.
Qed.

Lemma cat_lookup_short (raw fuz : list float) (d nd : list cell) :
  (List.length fuz < List.length raw)%nat ->
  cat_lookup d raw fuz nd = Raise (IndexError "list index out of range").
Proof.
  revert fuz nd. induction raw as [|x raw IH]; intros fuz nd H; [simpl in H; lia|].
  destruct fuz as [|y fuz]; [reflexivity|]. simpl. apply IH. simpl in H. lia.
Qed.

Lemma cat_cell_masked (raw fuz : list float) : cat_cell raw fuz None None = None.
Proof.
  revert fuz. induction raw as [|x raw IH]; intros [|y fuz]; simpl; try reflexivity.
  apply IH.
Qed.

(** A value that is none of the raw values keeps what it has. *)
Lemma cat_cell_other (raw fuz : list float) (q : float) (old : cell) :
  (forall x, In x raw -> F64.eqb q x = false) ->
  cat_cell raw fuz (Some q) old = old.
Proof.
  revert fuz old. induction raw as [|x raw IH]; intros fuz old H; [destruct fuz; reflexivity|].
  destruct fuz as [|y fuz]; [reflexivity|]. cbn [cat_cell].
  unfold ceq, ccmp. rewrite (H x (or_introl eq_refl)). cbn [cwhere].
  apply IH. intros z Hz. apply H. right. exact Hz.
Qed.

(** A value that equals a raw value gets the fuzzy value of the last
    raw value it equals. *)
Lemma cat_cell_match (pre post fuz : list float) (x q y : float) (old : cell) :
  F64.eqb q x = true ->
  (forall z, In z post -> F64.eqb q z = false) ->
  nth_error fuz (List.length pre) = Some y ->
  (List.length (pre ++ x :: post) <= List.length fuz)%nat ->
  cat_cell (pre ++ x :: post) fuz (Some q) old = Some y.
Proof.
  revert fuz old. induction pre as [|p pre IH]; intros fuz old Hq Hpost Hy Hl.
  - destruct fuz as [|y' fuz]; [discriminate|]. simpl in Hy. injection Hy as ->.
    cbn [app cat_cell]. unfold ceq, ccmp. rewrite Hq. cbn [cwhere].
    apply cat_cell_other. exact Hpost.
  - destruct fuz as [|y' fuz]; [discriminate|]. simpl in Hy, Hl. cbn [app cat_cell].
    apply IH; [exact Hq | exact Hpost | exact Hy | lia].
Qed.

Lemma eqb_nan_l (x : float) : F64.eqb F64.nan x = false.
Proof. reflexivity. Qed.

Lemma nan_or_cases (v : float) (c : cell) :
  nan_or v c
  = match c with
    | None => None
    | Some q => if F64.is_nan q then Some F64.nan else Some v
    end.
Proof.
  destruct c as [q|]; [|reflexivity]. unfold nan_or, cne, ccmp, F64.neb.
  destruct q as [s|s| |s m e]; try reflexivity.
  - destruct s; reflexivity.
  - unfold SFeqb, SFcompare. destruct s; rewrite Z.compare_refl, compare_cont_Eq, Pos.compare_refl;
      reflexivity.
Qed.

(** X19.  [CvtToFuzzyCat] looks every cell up in the raw values: a
    masked cell stays masked; a cell that is not a number stays so; a
    value that equals none of the raw values gets the default fuzzy
    value; a value that equals a raw value gets the fuzzy value at the
    position of the last raw value it equals; the values are not
    clamped.  With fewer fuzzy values than raw values the call raises
    an IndexError. *)
Theorem CvtToFuzzyCat_lookup (r : runner) (x : string) (raw fuz : list float) (dflt : float)
    (o n : string) :
  (forall r', CvtToFuzzyCat r x raw fuz dflt o n = OK r' ->
     (List.length raw <= List.length fuz)%nat
     /\ exists d newCells,
          fld_data r x = OK d
          /\ cells_of r' n = Some newCells
          /\ Forall2
               (fun c c' =>
                  match c with
                  | None => c' = None
                  | Some q =>
                      (F64.is_nan q = true -> c' = Some F64.nan)
                      /\ (F64.is_nan q = false ->
                          (forall z, In z raw -> F64.eqb q z = false) -> c' = Some dflt)
                      /\ (forall pre z post y,
                            raw = (pre ++ z :: post)%list -> F64.eqb q z = true ->
                            (forall w, In w post -> F64.eqb q w = false) ->
                            nth_error fuz (List.length pre) = Some y ->
                            c' = Some y)
                  end) (cells d) newCells)
  /\ (forall d, fld_data r x = OK d ->
        (List.length fuz < List.length raw)%nat ->
        CvtToFuzzyCat r x raw fuz dflt o n = Raise (IndexError "list index out of range")).
Proof.
  split.
  - intros r' H. unfold CvtToFuzzyCat in H. inv_bind H. rename v into d.
    inv_bind H. rename v into res.
    assert (Hl0 : List.length (map (nan_or dflt) (cells d)) = List.length (cells d))
      by apply length_map.
    destruct (cat_lookup_cells raw fuz (cells d) _ res Hl0 Hv0) as [-> Hlen].
    split; [exact Hlen|]. apply AddField_OK in H. destruct H as [Hc _]. simpl in Hc.
    exists d. eexists. split; [exact Hv|]. split; [exact Hc|].
    rewrite zip_with_map_r. apply Forall2_map_r. intros c _.
    rewrite nan_or_cases.
    destruct c as [q|]; [|apply cat_cell_masked]. split; [|split].
    + intro Hn. rewrite Hn. apply is_nan_eq in Hn. subst q.
      apply cat_cell_other. intros z _. apply eqb_nan_l.
    + intros Hn Hnone. rewrite Hn. apply cat_cell_other. exact Hnone.
    + intros pre z post y -> Hq Hpost Hy. apply cat_cell_match; assumption.
  - intros d Hd Hl. unfold CvtToFuzzyCat. rewrite Hd. simpl.
    rewrite (cat_lookup_short raw fuz _ _ Hl). reflexivity.
Qed.

End CatFacts.
